(** * convex-paddle: the webhook admission and idempotency pipeline

    A shallow embedding of the Convex component [src/component/private.ts]
    (event ledger, entity and utility mutations), of the table definitions
    in [src/component/schema.ts], of queries and the customer upsert of
    [src/component/public.ts], and of the webhook route of the client
    ([verifyPaddleWebhookSignature], [registerRoutes] and [processEvent]).

    Conventions of the embedding:
    - a Convex table is the list of its documents in creation order; an index
      range [q.eq(field, k)] is the sub-list of the documents whose field is
      [k], in that order;
    - a mutation is a function from the database to either a thrown error
      (the transaction is rolled back, nothing is written) or a returned
      value with the new database;
    - JavaScript strings are [string]s, [undefined] is [None], epoch
      milliseconds and seconds are integers ([Z]). *)

From Stdlib Require Import ZArith Ascii String.
From stdpp Require Import base option list strings gmap pretty.

Set Warnings "-register-all".
Local Open Scope Z_scope.

(** ** Values *)

(** A value as [v.any()] accepts it, and as [JSON.parse] produces it.
    Numbers are carried as integers: the modelled code never computes with a
    number held in a value, it only tests it for truthiness. *)
Inductive Value :=
| VNull
| VBool (b : bool)
| VNumber (n : Z)
| VString (s : string)
| VArray (xs : list Value)
| VObject (o : gmap string Value).

(** JavaScript truthiness of an expression that may be [undefined]. *)
Definition truthy (v : option Value) : bool :=
  match v with
  | None => false
  | Some VNull => false
  | Some (VBool b) => b
  | Some (VNumber n) => negb (n =? 0)
  | Some (VString s) => negb (String.eqb s "")
  | Some (VArray _) => true
  | Some (VObject _) => true
  end.

(** Truthiness of a [string | undefined]. *)
Definition truthy_str (s : option string) : bool :=
  match s with
  | None => false
  | Some s => negb (String.eqb s "")
  end.

(** [o.k] for an [o] that is neither [null] nor [undefined]: only an object
    carries the properties read here. *)
Definition prop (k : string) (o : Value) : option Value :=
  match o with
  | VObject m => m !! k
  | _ => None
  end.

(** [x || {}] *)
Definition or_empty (x : option Value) : Value :=
  if truthy x then default VNull x else VObject ∅.

(** ** Errors and mutations *)

Inductive Error :=
| NotUnique          (* [.unique()] found more than one document *)
| ValidationError    (* a value does not fit the schema or the argument validator *)
| TypeError          (* property read on [null] or [undefined], call of a non-function *)
| StorageError.      (* the backend could not run or commit the function *)

Inductive Result (A : Type) :=
| Ok (a : A)
| Throw (e : Error).
Arguments Ok {A} a.
Arguments Throw {A} e.

(** Document ids. *)
Abbreviation Id := nat (only parsing).

Record Doc (A : Type) := mkDoc { _id : Id; fields : A }.
Arguments mkDoc {A} _ _.
Arguments _id {A} _.
Arguments fields {A} _.

(** A table: its documents, in creation order. *)
Abbreviation Table A := (list (Doc A)) (only parsing).

(** [.unique()]: [null] for no document, the document for one, an exception
    for more. *)
Definition unique {A} (l : list A) : Result (option A) :=
  match l with
  | [] => Ok None
  | [x] => Ok (Some x)
  | _ :: _ :: _ => Throw NotUnique
  end.

Definition tbl_insert {A} (i : Id) (x : A) (t : Table A) : Table A :=
  t ++ [mkDoc i x].

Definition tbl_delete {A} (i : Id) (t : Table A) : Table A :=
  filter (λ d, _id d ≠ i) t.

Definition tbl_patch {A} (i : Id) (f : A → A) (t : Table A) : Table A :=
  (λ d, if decide (_id d = i) then mkDoc (_id d) (f (fields d)) else d) <$> t.

(** A validated [v.optional(v.string())] field: [undefined] and strings pass. *)
Definition optional_string (v : option Value) : Result (option string) :=
  match v with
  | None => Ok None
  | Some (VString s) => Ok (Some s)
  | Some _ => Throw ValidationError
  end.

(** ** Tables ([schema.ts]) *)

Module Customer.
Record t := mk {
  paddleCustomerId : string;
  email : option string;
  name : option string;
  status : option string;
  customData : option Value }.
End Customer.

Module Subscription.
Record t := mk {
  paddleSubscriptionId : string;
  paddleCustomerId : string;
  status : string;
  priceId : string;
  quantity : option Z;
  scheduledChange : option Value;
  currentBillingPeriodStart : option string;
  currentBillingPeriodEnd : option string;
  nextBilledAt : option string;
  pausedAt : option string;
  canceledAt : option string;
  customData : option Value;
  userId : option string;
  orgId : option string }.
End Subscription.

Module Transaction.
Record t := mk {
  paddleTransactionId : string;
  paddleCustomerId : option string;
  paddleSubscriptionId : option string;
  status : string;
  currencyCode : option string;
  totalAmount : option string;
  collectionMode : option string;
  billedAt : option string;
  createdAt : option string;
  customData : option Value;
  userId : option string;
  orgId : option string }.
End Transaction.

Module Adjustment.
Record t := mk {
  paddleAdjustmentId : string;
  paddleTransactionId : string;
  paddleCustomerId : option string;
  paddleSubscriptionId : option string;
  action : string;
  reason : option string;
  status : string;
  totalAmount : option string;
  currencyCode : option string;
  createdAt : option string }.
End Adjustment.

Module WebhookEvent.
Inductive Status := processing | processed | processed_pending.

#[global] Instance Status_eq_dec : EqDecision Status.
Proof. solve_decision. Defined.

Record t := mk {
  paddleEventId : string;
  eventType : string;
  occurredAt : string;
  processedAt : Z;
  status : option Status }.
End WebhookEvent.

(** The component's database: the five tables, and the next document id the
    backend hands out. *)
Record DB := mkDB {
  customers : Table Customer.t;
  subscriptions : Table Subscription.t;
  transactions : Table Transaction.t;
  adjustments : Table Adjustment.t;
  webhook_events : Table WebhookEvent.t;
  next_id : Id }.

Definition empty_db : DB := mkDB [] [] [] [] [] 0%nat.

Definition set_subscriptions (f : Table Subscription.t → Table Subscription.t) (db : DB) : DB :=
  mkDB (customers db) (f (subscriptions db)) (transactions db) (adjustments db)
       (webhook_events db) (next_id db).

Definition set_transactions (f : Table Transaction.t → Table Transaction.t) (db : DB) : DB :=
  mkDB (customers db) (subscriptions db) (f (transactions db)) (adjustments db)
       (webhook_events db) (next_id db).

Definition set_webhook_events (f : Table WebhookEvent.t → Table WebhookEvent.t) (db : DB) : DB :=
  mkDB (customers db) (subscriptions db) (transactions db) (adjustments db)
       (f (webhook_events db)) (next_id db).

Definition bump_id (db : DB) : DB :=
  mkDB (customers db) (subscriptions db) (transactions db) (adjustments db)
       (webhook_events db) (S (next_id db)).

(** ** The event ledger ([private.ts], lines 8-145) *)

Definition LOCK_TTL_MS : Z := 10 * 60 * 1000.

Definition by_paddle_event_id (k : string) (db : DB) : list (Doc WebhookEvent.t) :=
  filter (λ d, WebhookEvent.paddleEventId (fields d) = k) (webhook_events db).

Record CheckArgs := mkCheckArgs {
  ca_paddleEventId : string;
  ca_eventType : string;
  ca_occurredAt : string }.

(** [ctx.db.insert("webhook_events", {..., status: "processing"})] *)
Definition acquire_lock (now : Z) (args : CheckArgs) (db : DB) : DB :=
  bump_id (set_webhook_events
    (tbl_insert (next_id db)
       (WebhookEvent.mk (ca_paddleEventId args) (ca_eventType args)
          (ca_occurredAt args) now (Some WebhookEvent.processing))) db).

(** Returns [true] when the event was already reserved or processed, [false]
    when the caller newly holds the lock. [now] is [Date.now()], which is
    fixed for the duration of a mutation. *)
Definition checkAndRecordEvent (now : Z) (args : CheckArgs) (db : DB) : Result (bool * DB) :=
  match unique (by_paddle_event_id (ca_paddleEventId args) db) with
  | Throw e => Throw e
  | Ok None => Ok (false, acquire_lock now args db)
  | Ok (Some existing) =>
      let status := default WebhookEvent.processed (WebhookEvent.status (fields existing)) in
      match status with
      | WebhookEvent.processed | WebhookEvent.processed_pending => Ok (true, db)
      | WebhookEvent.processing =>
          let age := now - WebhookEvent.processedAt (fields existing) in
          if age >? LOCK_TTL_MS
          then Ok (false, acquire_lock now args
                            (set_webhook_events (tbl_delete (_id existing)) db))
          else Ok (true, db)
      end
  end.

(** The [status] argument: [v.optional(v.union("processed", "processed_pending"))]. *)
Inductive FinalStatus := final_processed | final_processed_pending.

Definition final_status (s : FinalStatus) : WebhookEvent.Status :=
  match s with
  | final_processed => WebhookEvent.processed
  | final_processed_pending => WebhookEvent.processed_pending
  end.

Definition markEventProcessed (now : Z) (paddleEventId : string)
    (status : option FinalStatus) (db : DB) : Result DB :=
  let targetStatus := default final_processed status in
  match unique (by_paddle_event_id paddleEventId db) with
  | Throw e => Throw e
  | Ok None => Ok db
  | Ok (Some existing) =>
      Ok (set_webhook_events
            (tbl_patch (_id existing)
               (λ r, WebhookEvent.mk (WebhookEvent.paddleEventId r)
                       (WebhookEvent.eventType r) (WebhookEvent.occurredAt r)
                       now (Some (final_status targetStatus)))) db)
  end.

Definition unreserveEvent (paddleEventId : string) (db : DB) : Result DB :=
  match unique (by_paddle_event_id paddleEventId db) with
  | Throw e => Throw e
  | Ok None => Ok db
  | Ok (Some existing) =>
      if decide (WebhookEvent.status (fields existing) = Some WebhookEvent.processing)
      then Ok (set_webhook_events (tbl_delete (_id existing)) db)
      else Ok db
  end.

(** ** Entity mutations ([private.ts], lines 147-750) *)

Definition set_customers (f : Table Customer.t → Table Customer.t) (db : DB) : DB :=
  mkDB (f (customers db)) (subscriptions db) (transactions db) (adjustments db)
       (webhook_events db) (next_id db).

Definition set_adjustments (f : Table Adjustment.t → Table Adjustment.t) (db : DB) : DB :=
  mkDB (customers db) (subscriptions db) (transactions db) (f (adjustments db))
       (webhook_events db) (next_id db).

Definition customers_by_paddle_customer_id (k : string) (db : DB) :=
  filter (λ d, Customer.paddleCustomerId (fields d) = k) (customers db).

Definition subscriptions_by_paddle_subscription_id (k : string) (db : DB) :=
  filter (λ d, Subscription.paddleSubscriptionId (fields d) = k) (subscriptions db).

Definition transactions_by_paddle_transaction_id (k : string) (db : DB) :=
  filter (λ d, Transaction.paddleTransactionId (fields d) = k) (transactions db).

Definition transactions_by_paddle_subscription_id (k : string) (db : DB) :=
  filter (λ d, Transaction.paddleSubscriptionId (fields d) = Some k) (transactions db).

Definition adjustments_by_paddle_adjustment_id (k : string) (db : DB) :=
  filter (λ d, Adjustment.paddleAdjustmentId (fields d) = k) (adjustments db).

(** *** Customers *)

Module CustomerArgs.
Record t := mk {
  paddleCustomerId : string;
  email : option string;
  name : option string;
  status : option string;
  customData : option Value }.
End CustomerArgs.

Definition customer_of_args (args : CustomerArgs.t) : Customer.t :=
  Customer.mk (CustomerArgs.paddleCustomerId args) (CustomerArgs.email args)
    (CustomerArgs.name args) (CustomerArgs.status args)
    (Some (or_empty (CustomerArgs.customData args))).

Definition handleCustomerCreated (args : CustomerArgs.t) (db : DB) : Result DB :=
  match unique (customers_by_paddle_customer_id (CustomerArgs.paddleCustomerId args) db) with
  | Throw e => Throw e
  | Ok (Some _) => Ok db
  | Ok None =>
      Ok (bump_id (set_customers (tbl_insert (next_id db) (customer_of_args args)) db))
  end.

Definition handleCustomerUpdated (args : CustomerArgs.t) (db : DB) : Result DB :=
  match unique (customers_by_paddle_customer_id (CustomerArgs.paddleCustomerId args) db) with
  | Throw e => Throw e
  | Ok (Some customer) =>
      Ok (set_customers
            (tbl_patch (_id customer)
               (λ r, Customer.mk (Customer.paddleCustomerId r) (CustomerArgs.email args)
                       (CustomerArgs.name args) (CustomerArgs.status args)
                       (CustomerArgs.customData args))) db)
  | Ok None =>
      Ok (bump_id (set_customers (tbl_insert (next_id db) (customer_of_args args)) db))
  end.

(** *** Subscriptions *)

Module SubscriptionCreatedArgs.
Record t := mk {
  paddleSubscriptionId : string;
  paddleCustomerId : string;
  status : string;
  priceId : string;
  quantity : option Z;
  scheduledChange : option Value;
  currentBillingPeriodStart : option string;
  currentBillingPeriodEnd : option string;
  nextBilledAt : option string;
  customData : option Value }.
End SubscriptionCreatedArgs.

Definition BATCH_SIZE : nat := 100.

(** The patch of one transaction in the backfill,
    [{...(userId && !txn.userId && { userId }), ...(orgId && !txn.orgId && { orgId })}]:
    a field is written when the new value is truthy and the stored one is
    not; the written value must fit [v.optional(v.string())]. *)
Definition backfill_field (new : option Value) (old : option string) : Result (option string) :=
  if truthy new && negb (truthy_str old) then optional_string new else Ok old.

(** The stored row [r] after the patch computed from the fetched [txn]; [u]
    and [o] are the validated new values. *)
Definition backfill_row (userId orgId : option Value) (txn : Doc Transaction.t)
    (u o : option string) (r : Transaction.t) : Transaction.t :=
  Transaction.mk (Transaction.paddleTransactionId r)
    (Transaction.paddleCustomerId r) (Transaction.paddleSubscriptionId r)
    (Transaction.status r) (Transaction.currencyCode r)
    (Transaction.totalAmount r) (Transaction.collectionMode r)
    (Transaction.billedAt r) (Transaction.createdAt r)
    (Transaction.customData r)
    (if truthy userId && negb (truthy_str (Transaction.userId (fields txn)))
     then u else Transaction.userId r)
    (if truthy orgId && negb (truthy_str (Transaction.orgId (fields txn)))
     then o else Transaction.orgId r).

Definition backfill_patch (userId orgId : option Value) (txn : Doc Transaction.t)
    (db : DB) : Result DB :=
  match backfill_field userId (Transaction.userId (fields txn)) with
  | Throw e => Throw e
  | Ok u =>
    match backfill_field orgId (Transaction.orgId (fields txn)) with
    | Throw e => Throw e
    | Ok o =>
        Ok (set_transactions
              (tbl_patch (_id txn) (backfill_row userId orgId txn u o)) db)
    end
  end.

(** [for (const txn of toUpdate) await ctx.db.patch(...)] *)
Fixpoint backfill_patches (userId orgId : option Value) (toUpdate : list (Doc Transaction.t))
    (db : DB) : Result DB :=
  match toUpdate with
  | [] => Ok db
  | txn :: rest =>
      match backfill_patch userId orgId txn db with
      | Throw e => Throw e
      | Ok db' => backfill_patches userId orgId rest db'
      end
  end.

(** [!txn.userId || !txn.orgId] *)
Definition needs_linkage (txn : Doc Transaction.t) : bool :=
  negb (truthy_str (Transaction.userId (fields txn)))
  || negb (truthy_str (Transaction.orgId (fields txn))).

(** One turn of the [while (hasMore)] loop: the new database and the new
    value of [hasMore]. *)
Definition backfill_step (userId orgId : option Value) (paddleSubscriptionId : string)
    (db : DB) : Result (DB * bool) :=
  let batch := take BATCH_SIZE (transactions_by_paddle_subscription_id paddleSubscriptionId db) in
  let toUpdate := filter (λ txn, needs_linkage txn = true) batch in
  match backfill_patches userId orgId toUpdate db with
  | Throw e => Throw e
  | Ok db' =>
      Ok (db', Nat.eqb (length batch) BATCH_SIZE && Nat.ltb 0 (length toUpdate))
  end.

(** The loop, with the number of turns it may take: [None] when it is still
    running after [fuel] turns. *)
Fixpoint backfill_loop (fuel : nat) (userId orgId : option Value)
    (paddleSubscriptionId : string) (db : DB) : option (Result DB) :=
  match fuel with
  | O => None
  | S fuel' =>
      match backfill_step userId orgId paddleSubscriptionId db with
      | Throw e => Some (Throw e)
      | Ok (db', hasMore) =>
          if hasMore then backfill_loop fuel' userId orgId paddleSubscriptionId db'
          else Some (Ok db')
      end
  end.

Definition handleSubscriptionCreated (fuel : nat) (args : SubscriptionCreatedArgs.t)
    (db : DB) : option (Result DB) :=
  match unique (subscriptions_by_paddle_subscription_id
                  (SubscriptionCreatedArgs.paddleSubscriptionId args) db) with
  | Throw e => Some (Throw e)
  | Ok existing =>
      let customData := or_empty (SubscriptionCreatedArgs.customData args) in
      let userId := prop "userId" customData in
      let orgId := prop "orgId" customData in
      let inserted : Result DB :=
        match existing with
        | Some _ => Ok db
        | None =>
            match optional_string userId, optional_string orgId with
            | Ok u, Ok o =>
                Ok (bump_id (set_subscriptions
                      (tbl_insert (next_id db)
                         (Subscription.mk
                            (SubscriptionCreatedArgs.paddleSubscriptionId args)
                            (SubscriptionCreatedArgs.paddleCustomerId args)
                            (SubscriptionCreatedArgs.status args)
                            (SubscriptionCreatedArgs.priceId args)
                            (SubscriptionCreatedArgs.quantity args)
                            (SubscriptionCreatedArgs.scheduledChange args)
                            (SubscriptionCreatedArgs.currentBillingPeriodStart args)
                            (SubscriptionCreatedArgs.currentBillingPeriodEnd args)
                            (SubscriptionCreatedArgs.nextBilledAt args)
                            None None (Some customData) u o)) db))
            | Throw e, _ => Throw e
            | _, Throw e => Throw e
            end
        end in
      match inserted with
      | Throw e => Some (Throw e)
      | Ok db1 =>
          if truthy userId || truthy orgId
          then backfill_loop fuel userId orgId
                 (SubscriptionCreatedArgs.paddleSubscriptionId args) db1
          else Some (Ok db1)
      end
  end.

Module SubscriptionUpdatedArgs.
Record t := mk {
  paddleSubscriptionId : string;
  status : string;
  priceId : option string;
  quantity : option Z;
  scheduledChange : option Value;
  currentBillingPeriodStart : option string;
  currentBillingPeriodEnd : option string;
  nextBilledAt : option string;
  pausedAt : option string;
  canceledAt : option string;
  customData : option Value }.
End SubscriptionUpdatedArgs.

(** The object handed to [ctx.db.patch] by [handleSubscriptionUpdated],
    applied to the stored row [r]: a key whose value is [undefined] removes
    the field, a key left out by a spread of [false] keeps it. [u] and [o]
    are the validated [userId] and [orgId] of the custom data. *)
Definition subscription_updated_patch (args : SubscriptionUpdatedArgs.t)
    (userId orgId : option Value) (u o : option string) (r : Subscription.t) : Subscription.t :=
  Subscription.mk
    (Subscription.paddleSubscriptionId r)
    (Subscription.paddleCustomerId r)
    (SubscriptionUpdatedArgs.status args)
    (match SubscriptionUpdatedArgs.priceId args with
     | Some p => p
     | None => Subscription.priceId r
     end)
    (SubscriptionUpdatedArgs.quantity args)
    (SubscriptionUpdatedArgs.scheduledChange args)
    (SubscriptionUpdatedArgs.currentBillingPeriodStart args)
    (SubscriptionUpdatedArgs.currentBillingPeriodEnd args)
    (SubscriptionUpdatedArgs.nextBilledAt args)
    (SubscriptionUpdatedArgs.pausedAt args)
    (SubscriptionUpdatedArgs.canceledAt args)
    (match SubscriptionUpdatedArgs.customData args with
     | Some _ => Some (or_empty (SubscriptionUpdatedArgs.customData args))
     | None => Subscription.customData r
     end)
    (match userId with Some _ => u | None => Subscription.userId r end)
    (match orgId with Some _ => o | None => Subscription.orgId r end).

Definition handleSubscriptionUpdated (args : SubscriptionUpdatedArgs.t) (db : DB) : Result DB :=
  match unique (subscriptions_by_paddle_subscription_id
                  (SubscriptionUpdatedArgs.paddleSubscriptionId args) db) with
  | Throw e => Throw e
  | Ok None => Ok db
  | Ok (Some subscription) =>
      let customData := or_empty (SubscriptionUpdatedArgs.customData args) in
      let userId := prop "userId" customData in
      let orgId := prop "orgId" customData in
      match optional_string userId, optional_string orgId with
      | Ok u, Ok o =>
          Ok (set_subscriptions
                (tbl_patch (_id subscription)
                   (subscription_updated_patch args userId orgId u o)) db)
      | Throw e, _ => Throw e
      | _, Throw e => Throw e
      end
  end.

(** A patch of a subscription row found by its Paddle id, for the mutations
    that write constants and arguments only. *)
Definition patch_subscription (paddleSubscriptionId : string)
    (f : Subscription.t → Subscription.t) (db : DB) : Result DB :=
  match unique (subscriptions_by_paddle_subscription_id paddleSubscriptionId db) with
  | Throw e => Throw e
  | Ok None => Ok db
  | Ok (Some subscription) => Ok (set_subscriptions (tbl_patch (_id subscription) f) db)
  end.

Definition handleSubscriptionCanceled (paddleSubscriptionId : string)
    (canceledAt : option string) (db : DB) : Result DB :=
  patch_subscription paddleSubscriptionId
    (λ r, Subscription.mk (Subscription.paddleSubscriptionId r) (Subscription.paddleCustomerId r)
            "canceled" (Subscription.priceId r) (Subscription.quantity r)
            None
            (Subscription.currentBillingPeriodStart r) (Subscription.currentBillingPeriodEnd r)
            (Subscription.nextBilledAt r) (Subscription.pausedAt r)
            canceledAt
            (Subscription.customData r) (Subscription.userId r) (Subscription.orgId r)) db.

Definition handleSubscriptionPaused (paddleSubscriptionId : string)
    (pausedAt : option string) (db : DB) : Result DB :=
  patch_subscription paddleSubscriptionId
    (λ r, Subscription.mk (Subscription.paddleSubscriptionId r) (Subscription.paddleCustomerId r)
            "paused" (Subscription.priceId r) (Subscription.quantity r)
            (Subscription.scheduledChange r)
            (Subscription.currentBillingPeriodStart r) (Subscription.currentBillingPeriodEnd r)
            (Subscription.nextBilledAt r)
            pausedAt
            (Subscription.canceledAt r)
            (Subscription.customData r) (Subscription.userId r) (Subscription.orgId r)) db.

Definition handleSubscriptionResumed (paddleSubscriptionId : string)
    (nextBilledAt : option string) (db : DB) : Result DB :=
  patch_subscription paddleSubscriptionId
    (λ r, Subscription.mk (Subscription.paddleSubscriptionId r) (Subscription.paddleCustomerId r)
            "active" (Subscription.priceId r) (Subscription.quantity r)
            (Subscription.scheduledChange r)
            (Subscription.currentBillingPeriodStart r) (Subscription.currentBillingPeriodEnd r)
            nextBilledAt
            None
            (Subscription.canceledAt r)
            (Subscription.customData r) (Subscription.userId r) (Subscription.orgId r)) db.

Definition handleSubscriptionActivated (paddleSubscriptionId : string)
    (nextBilledAt currentBillingPeriodStart currentBillingPeriodEnd : option string)
    (db : DB) : Result DB :=
  patch_subscription paddleSubscriptionId
    (λ r, Subscription.mk (Subscription.paddleSubscriptionId r) (Subscription.paddleCustomerId r)
            "active" (Subscription.priceId r) (Subscription.quantity r)
            (Subscription.scheduledChange r)
            currentBillingPeriodStart currentBillingPeriodEnd
            nextBilledAt
            (Subscription.pausedAt r) (Subscription.canceledAt r)
            (Subscription.customData r) (Subscription.userId r) (Subscription.orgId r)) db.

(** *** Transactions *)

Module TransactionCreatedArgs.
Record t := mk {
  paddleTransactionId : string;
  paddleCustomerId : option string;
  paddleSubscriptionId : option string;
  status : string;
  currencyCode : option string;
  totalAmount : option string;
  collectionMode : option string;
  billedAt : option string;
  createdAt : option string;
  customData : option Value }.
End TransactionCreatedArgs.

(** The linkage identifiers of a transaction row about to be inserted, as
    both [handleTransactionCreated] and the insert path of
    [handleTransactionCompleted] compute them: [userId] and [orgId] of the
    custom data, replaced by those of the subscription row when both are
    falsy, a subscription id is given and its row exists. *)
Definition resolve_linkage (customData : Value) (paddleSubscriptionId : option string)
    (db : DB) : Result (option Value * option Value) :=
  let userId := prop "userId" customData in
  let orgId := prop "orgId" customData in
  if negb (truthy userId) && negb (truthy orgId) && truthy_str paddleSubscriptionId
  then
    match unique (subscriptions_by_paddle_subscription_id
                    (default "" paddleSubscriptionId) db) with
    | Throw e => Throw e
    | Ok (Some subscription) =>
        Ok (VString <$> Subscription.userId (fields subscription),
            VString <$> Subscription.orgId (fields subscription))
    | Ok None => Ok (userId, orgId)
    end
  else Ok (userId, orgId).

(** [ctx.db.insert("transactions", row)], the linkage identifiers checked
    against the schema. *)
Definition insert_transaction (row : option string → option string → Transaction.t)
    (userId orgId : option Value) (db : DB) : Result DB :=
  match optional_string userId, optional_string orgId with
  | Ok u, Ok o => Ok (bump_id (set_transactions (tbl_insert (next_id db) (row u o)) db))
  | Throw e, _ => Throw e
  | _, Throw e => Throw e
  end.

Definition handleTransactionCreated (args : TransactionCreatedArgs.t) (db : DB) : Result DB :=
  match unique (transactions_by_paddle_transaction_id
                  (TransactionCreatedArgs.paddleTransactionId args) db) with
  | Throw e => Throw e
  | Ok (Some _) => Ok db
  | Ok None =>
      let customData := or_empty (TransactionCreatedArgs.customData args) in
      match resolve_linkage customData (TransactionCreatedArgs.paddleSubscriptionId args) db with
      | Throw e => Throw e
      | Ok (userId, orgId) =>
          insert_transaction
            (Transaction.mk
               (TransactionCreatedArgs.paddleTransactionId args)
               (TransactionCreatedArgs.paddleCustomerId args)
               (TransactionCreatedArgs.paddleSubscriptionId args)
               (TransactionCreatedArgs.status args)
               (TransactionCreatedArgs.currencyCode args)
               (TransactionCreatedArgs.totalAmount args)
               (TransactionCreatedArgs.collectionMode args)
               (TransactionCreatedArgs.billedAt args)
               (TransactionCreatedArgs.createdAt args)
               (Some customData))
            userId orgId db
      end
  end.

Module TransactionUpdatedArgs.
Record t := mk {
  paddleTransactionId : string;
  status : string;
  totalAmount : option string;
  billedAt : option string;
  customData : option Value }.
End TransactionUpdatedArgs.

(** [...(x !== undefined && { field: x })] over a stored optional field. *)
Definition if_defined {A} (x : option A) (old : option A) : option A :=
  match x with
  | Some _ => x
  | None => old
  end.

Definition handleTransactionUpdated (args : TransactionUpdatedArgs.t) (db : DB) : Result DB :=
  match unique (transactions_by_paddle_transaction_id
                  (TransactionUpdatedArgs.paddleTransactionId args) db) with
  | Throw e => Throw e
  | Ok None => Ok db
  | Ok (Some transaction) =>
      Ok (set_transactions
            (tbl_patch (_id transaction)
               (λ r, Transaction.mk (Transaction.paddleTransactionId r)
                       (Transaction.paddleCustomerId r) (Transaction.paddleSubscriptionId r)
                       (TransactionUpdatedArgs.status args)
                       (Transaction.currencyCode r)
                       (if_defined (TransactionUpdatedArgs.totalAmount args) (Transaction.totalAmount r))
                       (Transaction.collectionMode r)
                       (if_defined (TransactionUpdatedArgs.billedAt args) (Transaction.billedAt r))
                       (Transaction.createdAt r)
                       (if_defined (TransactionUpdatedArgs.customData args) (Transaction.customData r))
                       (Transaction.userId r) (Transaction.orgId r))) db)
  end.

Module TransactionCompletedArgs.
Record t := mk {
  paddleTransactionId : string;
  paddleCustomerId : option string;
  paddleSubscriptionId : option string;
  totalAmount : option string;
  billedAt : option string;
  customData : option Value }.
End TransactionCompletedArgs.

Definition handleTransactionCompleted (args : TransactionCompletedArgs.t) (db : DB) : Result DB :=
  match unique (transactions_by_paddle_transaction_id
                  (TransactionCompletedArgs.paddleTransactionId args) db) with
  | Throw e => Throw e
  | Ok (Some transaction) =>
      Ok (set_transactions
            (tbl_patch (_id transaction)
               (λ r, Transaction.mk (Transaction.paddleTransactionId r)
                       (if_defined (TransactionCompletedArgs.paddleCustomerId args)
                                   (Transaction.paddleCustomerId r))
                       (if_defined (TransactionCompletedArgs.paddleSubscriptionId args)
                                   (Transaction.paddleSubscriptionId r))
                       "completed"
                       (Transaction.currencyCode r)
                       (if_defined (TransactionCompletedArgs.totalAmount args) (Transaction.totalAmount r))
                       (Transaction.collectionMode r)
                       (if_defined (TransactionCompletedArgs.billedAt args) (Transaction.billedAt r))
                       (Transaction.createdAt r) (Transaction.customData r)
                       (Transaction.userId r) (Transaction.orgId r))) db)
  | Ok None =>
      let customData := or_empty (TransactionCompletedArgs.customData args) in
      match resolve_linkage customData (TransactionCompletedArgs.paddleSubscriptionId args) db with
      | Throw e => Throw e
      | Ok (userId, orgId) =>
          insert_transaction
            (Transaction.mk
               (TransactionCompletedArgs.paddleTransactionId args)
               (TransactionCompletedArgs.paddleCustomerId args)
               (TransactionCompletedArgs.paddleSubscriptionId args)
               "completed"
               None
               (TransactionCompletedArgs.totalAmount args)
               None
               (TransactionCompletedArgs.billedAt args)
               None
               (Some customData))
            userId orgId db
      end
  end.

(** *** Adjustments *)

Definition handleAdjustmentCreated (args : Adjustment.t) (db : DB) : Result DB :=
  match unique (adjustments_by_paddle_adjustment_id (Adjustment.paddleAdjustmentId args) db) with
  | Throw e => Throw e
  | Ok (Some _) => Ok db
  | Ok None => Ok (bump_id (set_adjustments (tbl_insert (next_id db) args) db))
  end.

Definition handleAdjustmentUpdated (paddleAdjustmentId status : string)
    (totalAmount : option string) (db : DB) : Result DB :=
  match unique (adjustments_by_paddle_adjustment_id paddleAdjustmentId db) with
  | Throw e => Throw e
  | Ok None => Ok db
  | Ok (Some adjustment) =>
      Ok (set_adjustments
            (tbl_patch (_id adjustment)
               (λ r, Adjustment.mk (Adjustment.paddleAdjustmentId r)
                       (Adjustment.paddleTransactionId r) (Adjustment.paddleCustomerId r)
                       (Adjustment.paddleSubscriptionId r) (Adjustment.action r)
                       (Adjustment.reason r) status
                       (if_defined totalAmount (Adjustment.totalAmount r))
                       (Adjustment.currencyCode r) (Adjustment.createdAt r))) db)
  end.

(** ** Webhook signature verification (client, [verifyPaddleWebhookSignature]) *)

(** [s.split(sep)] for a one-character separator. *)
Fixpoint split (sep : ascii) (s : string) : list string :=
  match s with
  | EmptyString => [EmptyString]
  | String c rest =>
      if Ascii.eqb c sep then EmptyString :: split sep rest
      else match split sep rest with
           | [] => [String c EmptyString]
           | hd :: tl => String c hd :: tl
           end
  end.

Definition startsWith (p s : string) : bool := String.prefix p s.

(** White space skipped by [parseInt], among the code units below 256. *)
Definition is_white_space (c : ascii) : bool :=
  let n := N_of_ascii c in
  ((9 <=? n) && (n <=? 13) || (n =? 32) || (n =? 160))%N.

Fixpoint trim_start (s : string) : string :=
  match s with
  | EmptyString => EmptyString
  | String c rest => if is_white_space c then trim_start rest else s
  end.

Definition digit_value (c : ascii) : option Z :=
  let n := Z.of_N (N_of_ascii c) in
  if (48 <=? n) && (n <=? 57) then Some (n - 48) else None.

(** The value of the longest prefix of decimal digits; [acc] is [None] until
    a digit has been read. *)
Fixpoint parse_digits (s : string) (acc : option Z) : option Z :=
  match s with
  | EmptyString => acc
  | String c rest =>
      match digit_value c with
      | Some d => parse_digits rest (Some (10 * default 0 acc + d))
      | None => acc
      end
  end.

(** [parseInt(s, 10)]; [None] is [NaN]. *)
Definition parseInt (s : string) : option Z :=
  match trim_start s with
  | String "-" rest => Z.opp <$> parse_digits rest None
  | String "+" rest => parse_digits rest None
  | t => parse_digits t None
  end.

Definition hex_digit (n : N) : ascii :=
  default "0"%char (list_ascii_of_string "0123456789abcdef" !! N.to_nat n).

(** [b.toString(16).padStart(2, "0")] for a byte. *)
Definition byte_hex (b : Byte.byte) : string :=
  let n := Byte.to_N b in
  String (hex_digit (n / 16)%N) (String (hex_digit (n mod 16)%N) EmptyString).

(** [Array.from(bytes).map(...).join("")] *)
Definition hex_encode (bytes : list Byte.byte) : string :=
  foldr (λ b acc, byte_hex b +:+ acc) EmptyString bytes.

(** The digits of a lower-case hexadecimal numeral. *)
Definition is_lower_hex (c : ascii) : bool :=
  let n := N_of_ascii c in
  ((48 <=? n) && (n <=? 57) || (97 <=? n) && (n <=? 102))%N.

Definition charCode (c : ascii) : Z := Z.of_N (N_of_ascii c).

(** The body of the comparison loop: [result |= a.charCodeAt(i) ^ b.charCodeAt(i)]
    over two strings of equal length. *)
Fixpoint compare_loop (a b : string) (result : Z) : Z :=
  match a, b with
  | String x a', String y b' =>
      compare_loop a' b' (Z.lor result (Z.lxor (charCode x) (charCode y)))
  | _, _ => result
  end.

Definition constant_time_equal (computedHash h1 : string) : bool :=
  if negb (Nat.eqb (String.length computedHash) (String.length h1)) then false
  else compare_loop computedHash h1 0 =? 0.

Definition WEBHOOK_MAX_AGE_SECONDS : Z := 300.

(** [parts.find((p) => p.startsWith(name + "="))?.split("=")[1]] *)
Definition header_field (name : string) (signatureHeader : string) : option string :=
  match List.find (startsWith (name +:+ "=")) (split ";" signatureHeader) with
  | Some field => split "=" field !! 1%nat
  | None => None
  end.

Definition is_empty (s : string) : bool := String.eqb s "".

Section Signature.

(** HMAC-SHA256 of the platform ([crypto.subtle.importKey] and [sign]) over
    the encoded key and message: the signature bytes, or [None] when one of
    the two calls throws. *)
Variable hmac_sha256 : string → string → option (list Byte.byte).

(** [now] is [Date.now()], in milliseconds. *)
Definition verifyPaddleWebhookSignature (now : Z) (rawBody secret signatureHeader : string)
    : bool :=
  match header_field "ts" signatureHeader, header_field "h1" signatureHeader with
  | Some ts, Some h1 =>
      if is_empty ts || is_empty h1 then false
      else
        match parseInt ts with
        | None => false
        | Some tsSeconds =>
            let nowSeconds := now / 1000 in
            if Z.abs (nowSeconds - tsSeconds) >? WEBHOOK_MAX_AGE_SECONDS then false
            else
              match hmac_sha256 secret (ts +:+ ":" +:+ rawBody) with
              | None => false
              | Some signatureBytes =>
                  constant_time_equal (hex_encode signatureBytes) h1
              end
        end
  | _, _ => false
  end.

End Signature.

(** ** Default event processing (client, [processEvent]) *)

#[global] Instance Result_ret : MRet Result := λ A a, Ok a.
#[global] Instance Result_bind : MBind Result :=
  λ A B f r, match r with Ok a => f a | Throw e => Throw e end.

(** [o.k] where [o] may be [null] or [undefined]: a [TypeError] then. *)
Definition get (k : string) (o : option Value) : Result (option Value) :=
  match o with
  | None | Some VNull => Throw TypeError
  | Some o => Ok (prop k o)
  end.

(** [o?.k] *)
Definition get_opt (k : string) (o : option Value) : option Value :=
  match o with
  | None | Some VNull => None
  | Some o => prop k o
  end.

(** [o?.[0]] *)
Definition first_opt (o : option Value) : option Value :=
  match o with
  | Some (VArray xs) => head xs
  | Some (VString (String c _)) => Some (VString (String c EmptyString))
  | Some (VObject m) => m !! "0"%string
  | _ => None
  end.

(** [x || undefined] *)
Definition or_undefined (x : option Value) : option Value :=
  if truthy x then x else None.

(** Argument validators: [v.string()], [v.optional(v.number())]. *)
Definition required_string (v : option Value) : Result string :=
  match v with
  | Some (VString s) => Ok s
  | _ => Throw ValidationError
  end.

Definition optional_number (v : option Value) : Result (option Z) :=
  match v with
  | None => Ok None
  | Some (VNumber n) => Ok (Some n)
  | Some _ => Throw ValidationError
  end.

(** [(o.k as string) || undefined] checked by [v.optional(v.string())] *)
Definition string_or_undefined (k : string) (o : option Value) : Result (option string) :=
  x ← get k o; optional_string (or_undefined x).

(** The cases of the [switch] over [event.event_type]. *)
Inductive EventCase :=
| CustomerCreated | CustomerUpdated
| SubscriptionCreated | SubscriptionActivated | SubscriptionUpdated
| SubscriptionCanceled | SubscriptionPaused | SubscriptionResumed
| TransactionCreated | TransactionUpdated | TransactionCompleted
| AdjustmentCreated | AdjustmentUpdated
| Unhandled.

Definition event_case (event_type : string) : EventCase :=
  if decide (event_type = "customer.created" ∨ event_type = "customer.imported")
  then CustomerCreated
  else if decide (event_type = "customer.updated") then CustomerUpdated
  else if decide (event_type = "subscription.created" ∨ event_type = "subscription.imported")
  then SubscriptionCreated
  else if decide (event_type = "subscription.activated") then SubscriptionActivated
  else if decide (event_type = "subscription.updated" ∨ event_type = "subscription.trialing"
                  ∨ event_type = "subscription.past_due")
  then SubscriptionUpdated
  else if decide (event_type = "subscription.canceled") then SubscriptionCanceled
  else if decide (event_type = "subscription.paused") then SubscriptionPaused
  else if decide (event_type = "subscription.resumed") then SubscriptionResumed
  else if decide (event_type = "transaction.created" ∨ event_type = "transaction.ready"
                  ∨ event_type = "transaction.billed")
  then TransactionCreated
  else if decide (event_type = "transaction.updated" ∨ event_type = "transaction.paid"
                  ∨ event_type = "transaction.past_due"
                  ∨ event_type = "transaction.payment_failed"
                  ∨ event_type = "transaction.canceled")
  then TransactionUpdated
  else if decide (event_type = "transaction.completed") then TransactionCompleted
  else if decide (event_type = "adjustment.created") then AdjustmentCreated
  else if decide (event_type = "adjustment.updated") then AdjustmentUpdated
  else Unhandled.

(** [ctx.runMutation(f, args)]: the backend may fail to run or commit the
    function; otherwise the mutation runs as one transaction. *)
Definition runMutation {A} (fails : bool) (m : DB → Result A) (db : DB) : Result A :=
  if fails then Throw StorageError else m db.

(** A mutation still running after [limit] turns of its loop is stopped by
    the backend, and fails. *)
Definition within_limit {A} (r : option (Result A)) : Result A :=
  match r with
  | Some r => r
  | None => Throw StorageError
  end.

(** [event] is the parsed body, [event_type] its [event_type]; [fails] and
    [limit] are the backend's behaviour for the one mutation that is run. *)
Definition processEvent (fails : bool) (limit : nat) (event : Value) (event_type : string)
    (db : DB) : Result DB :=
  let data := prop "data" event in
  match event_case event_type with
  | CustomerCreated | CustomerUpdated =>
      id ← get "id" data ≫= required_string;
      email ← string_or_undefined "email" data;
      name ← string_or_undefined "name" data;
      status ← string_or_undefined "status" data;
      custom_data ← get "custom_data" data;
      let args := CustomerArgs.mk id email name status (or_undefined custom_data) in
      match event_case event_type with
      | CustomerCreated => runMutation fails (handleCustomerCreated args) db
      | _ => runMutation fails (handleCustomerUpdated args) db
      end
  | SubscriptionCreated =>
      items ← get "items" data;
      let firstItem := first_opt items in
      let price := get_opt "price" firstItem in
      billingPeriod ← get "current_billing_period" data;
      id ← get "id" data ≫= required_string;
      customer_id ← get "customer_id" data ≫= required_string;
      status ← get "status" data ≫= required_string;
      priceId ← required_string
                  (let p := get_opt "id" price in if truthy p then p else Some (VString ""));
      quantity ← optional_number (or_undefined (get_opt "quantity" firstItem));
      scheduled_change ← get "scheduled_change" data;
      starts_at ← optional_string (or_undefined (get_opt "starts_at" billingPeriod));
      ends_at ← optional_string (or_undefined (get_opt "ends_at" billingPeriod));
      next_billed_at ← string_or_undefined "next_billed_at" data;
      custom_data ← get "custom_data" data;
      runMutation fails
        (λ db, within_limit
                 (handleSubscriptionCreated limit
                    (SubscriptionCreatedArgs.mk id customer_id status priceId quantity
                       (or_undefined scheduled_change) starts_at ends_at next_billed_at
                       (or_undefined custom_data)) db)) db
  | SubscriptionActivated =>
      billingPeriod ← get "current_billing_period" data;
      id ← get "id" data ≫= required_string;
      next_billed_at ← string_or_undefined "next_billed_at" data;
      starts_at ← optional_string (or_undefined (get_opt "starts_at" billingPeriod));
      ends_at ← optional_string (or_undefined (get_opt "ends_at" billingPeriod));
      runMutation fails (handleSubscriptionActivated id next_billed_at starts_at ends_at) db
  | SubscriptionUpdated =>
      items ← get "items" data;
      let firstItem := first_opt items in
      let price := get_opt "price" firstItem in
      billingPeriod ← get "current_billing_period" data;
      id ← get "id" data ≫= required_string;
      status ← get "status" data ≫= required_string;
      priceId ← optional_string (or_undefined (get_opt "id" price));
      quantity ← optional_number (or_undefined (get_opt "quantity" firstItem));
      scheduled_change ← get "scheduled_change" data;
      starts_at ← optional_string (or_undefined (get_opt "starts_at" billingPeriod));
      ends_at ← optional_string (or_undefined (get_opt "ends_at" billingPeriod));
      next_billed_at ← string_or_undefined "next_billed_at" data;
      paused_at ← string_or_undefined "paused_at" data;
      canceled_at ← string_or_undefined "canceled_at" data;
      custom_data ← get "custom_data" data;
      runMutation fails
        (handleSubscriptionUpdated
           (SubscriptionUpdatedArgs.mk id status priceId quantity (or_undefined scheduled_change)
              starts_at ends_at next_billed_at paused_at canceled_at
              (or_undefined custom_data))) db
  | SubscriptionCanceled =>
      id ← get "id" data ≫= required_string;
      canceled_at ← string_or_undefined "canceled_at" data;
      runMutation fails (handleSubscriptionCanceled id canceled_at) db
  | SubscriptionPaused =>
      id ← get "id" data ≫= required_string;
      paused_at ← string_or_undefined "paused_at" data;
      runMutation fails (handleSubscriptionPaused id paused_at) db
  | SubscriptionResumed =>
      id ← get "id" data ≫= required_string;
      next_billed_at ← string_or_undefined "next_billed_at" data;
      runMutation fails (handleSubscriptionResumed id next_billed_at) db
  | TransactionCreated =>
      details ← get "details" data;
      let totals := get_opt "totals" details in
      id ← get "id" data ≫= required_string;
      customer_id ← string_or_undefined "customer_id" data;
      subscription_id ← string_or_undefined "subscription_id" data;
      status ← get "status" data ≫= required_string;
      currency_code ← string_or_undefined "currency_code" data;
      total ← optional_string (or_undefined (get_opt "total" totals));
      collection_mode ← string_or_undefined "collection_mode" data;
      billed_at ← string_or_undefined "billed_at" data;
      created_at ← string_or_undefined "created_at" data;
      custom_data ← get "custom_data" data;
      runMutation fails
        (handleTransactionCreated
           (TransactionCreatedArgs.mk id customer_id subscription_id status currency_code
              total collection_mode billed_at created_at (or_undefined custom_data))) db
  | TransactionUpdated =>
      details ← get "details" data;
      let totals := get_opt "totals" details in
      id ← get "id" data ≫= required_string;
      status ← get "status" data ≫= required_string;
      total ← optional_string (or_undefined (get_opt "total" totals));
      billed_at ← string_or_undefined "billed_at" data;
      custom_data ← get "custom_data" data;
      runMutation fails
        (handleTransactionUpdated
           (TransactionUpdatedArgs.mk id status total billed_at (or_undefined custom_data))) db
  | TransactionCompleted =>
      details ← get "details" data;
      let totals := get_opt "totals" details in
      id ← get "id" data ≫= required_string;
      customer_id ← string_or_undefined "customer_id" data;
      subscription_id ← string_or_undefined "subscription_id" data;
      total ← optional_string (or_undefined (get_opt "total" totals));
      billed_at ← string_or_undefined "billed_at" data;
      custom_data ← get "custom_data" data;
      runMutation fails
        (handleTransactionCompleted
           (TransactionCompletedArgs.mk id customer_id subscription_id total billed_at
              (or_undefined custom_data))) db
  | AdjustmentCreated =>
      id ← get "id" data ≫= required_string;
      transaction_id ← get "transaction_id" data ≫= required_string;
      customer_id ← string_or_undefined "customer_id" data;
      subscription_id ← string_or_undefined "subscription_id" data;
      action ← get "action" data ≫= required_string;
      reason ← string_or_undefined "reason" data;
      status ← get "status" data ≫= required_string;
      total_amount ← string_or_undefined "total_amount" data;
      currency_code ← string_or_undefined "currency_code" data;
      created_at ← string_or_undefined "created_at" data;
      runMutation fails
        (handleAdjustmentCreated
           (Adjustment.mk id transaction_id customer_id subscription_id action reason status
              total_amount currency_code created_at)) db
  | AdjustmentUpdated =>
      id ← get "id" data ≫= required_string;
      status ← get "status" data ≫= required_string;
      total_amount ← string_or_undefined "total_amount" data;
      runMutation fails (handleAdjustmentUpdated id status total_amount) db
  | Unhandled => Ok db
  end.

(** ** The webhook route (client, [registerRoutes]) *)

(** A caller-supplied handler runs in the action context: it returns the
    database as it left it and whether it threw. *)
Definition Hook := Value → DB → DB * bool.

Record RegisterRoutesConfig := mkConfig {
  PADDLE_WEBHOOK_SECRET : option string;
  onEvent : option Hook;
  events : gmap string Hook }.

(** What the handler takes from its surroundings: the environment variable,
    [Date.now()] at the signature check and in each ledger mutation, the
    calls to the backend that fail, and the backend's limit on loop turns. *)
Record Env := mkEnv {
  env_PADDLE_WEBHOOK_SECRET : option string;
  now_verify : Z;
  now_check : Z;
  now_mark : Z;
  now_fallback : Z;
  check_fails : bool;
  process_fails : bool;
  mark_fails : bool;
  fallback_fails : bool;
  unreserve_fails : bool;
  limit : nat }.

Record Request := mkRequest {
  paddle_signature : option string;   (* [req.headers.get("paddle-signature")] *)
  req_text : string }.                (* [await req.text()] *)

Inductive Body :=
| Text (s : string)
| Received (duplicate : bool).        (* [{received: true}], with [duplicate: true] or without *)

Record Response := mkResponse {
  resp_status : Z;
  resp_body : Body }.

(** The calls the handler makes, in order. *)
Inductive Call :=
| CallCheckAndRecordEvent
| CallProcessEvent
| CallOnEvent
| CallCustomHandler
| CallMarkEventProcessed (status : option FinalStatus)
| CallUnreserveEvent.

Definition Outcome : Type := Response * DB * list Call.

(** [a || b] over [string | undefined]. *)
Definition or_else (a b : option string) : option string :=
  if truthy_str a then a else b.

Section Route.

Variable hmac_sha256 : string → string → option (list Byte.byte).

(** [JSON.parse]: [None] when it throws. *)
Variable JSON_parse : string → option Value.

Variable config : RegisterRoutesConfig.
Variable env : Env.

(** The argument object of [checkAndRecordEvent], read off the event: a
    [TypeError] when the event is [null]. *)
Definition admission_object (event : Value)
    : Result (option Value * option Value * option Value) :=
  event_id ← get "event_id" (Some event);
  event_type ← get "event_type" (Some event);
  occurred_at ← get "occurred_at" (Some event);
  mret (event_id, event_type, occurred_at).

(** The argument validator of [checkAndRecordEvent]: three strings. *)
Definition validate_admission (o : option Value * option Value * option Value)
    : Result CheckArgs :=
  i ← required_string o.1.1;
  t ← required_string o.1.2;
  c ← required_string o.2;
  mret (mkCheckArgs i t c).

(** The admission call: validation of the arguments, then the mutation. *)
Definition admission (o : option Value * option Value * option Value) (db : DB)
    : Result (CheckArgs * (bool * DB)) :=
  args ← validate_admission o;
  r ← checkAndRecordEvent (now_check env) args db;
  mret (args, r).

(** The [catch] of the processing block: release the lock, answer 500. *)
Definition release (paddleEventId : string) (db : DB) (calls : list Call) : Outcome :=
  let db' :=
    match runMutation (unreserve_fails env) (unreserveEvent paddleEventId) db with
    | Ok db' => db'
    | Throw _ => db
    end in
  (mkResponse 500 (Text "Error processing webhook"), db', calls ++ [CallUnreserveEvent]).

(** Promotion of the lock after a successful dispatch. *)
Definition finalize (paddleEventId : string) (db : DB) (calls : list Call) : Outcome :=
  match runMutation (mark_fails env)
          (markEventProcessed (now_mark env) paddleEventId None) db with
  | Ok db' =>
      (mkResponse 200 (Received false), db', calls ++ [CallMarkEventProcessed None])
  | Throw _ =>
      let calls' := calls ++ [CallMarkEventProcessed None;
                              CallMarkEventProcessed (Some final_processed_pending)] in
      match runMutation (fallback_fails env)
              (markEventProcessed (now_fallback env) paddleEventId
                 (Some final_processed_pending)) db with
      | Ok db' => (mkResponse 200 (Received false), db', calls')
      | Throw _ => (mkResponse 500 (Text "Failed to finalize event"), db, calls')
      end
  end.

(** The effects of the processing block, up to the promotion of the lock:
    the default processing, the generic handler, the handler of the event
    type. The result is the database as the block left it, whether
    something threw, and the calls made. *)
Definition effects (event : Value) (args : CheckArgs) (db : DB) (calls : list Call)
    : DB * bool * list Call :=
  let calls := calls ++ [CallProcessEvent] in
  match processEvent (process_fails env) (limit env) event (ca_eventType args) db with
  | Throw _ => (db, true, calls)
  | Ok db =>
      let '(db, threw, calls) :=
        match onEvent config with
        | Some h => let '(db', threw) := h event db in (db', threw, calls ++ [CallOnEvent])
        | None => (db, false, calls)
        end in
      if threw then (db, true, calls)
      else
        match events config !! ca_eventType args with
        | Some h =>
            let '(db', threw) := h event db in (db', threw, calls ++ [CallCustomHandler])
        | None => (db, false, calls)
        end
  end.

(** The processing block, entered with the lock held. *)
Definition dispatch (event : Value) (args : CheckArgs) (db : DB) (calls : list Call)
    : Outcome :=
  let '(db, threw, calls) := effects event args db calls in
  if threw then release (ca_paddleEventId args) db calls
  else finalize (ca_paddleEventId args) db calls.

Definition handler (req : Request) (db : DB) : Outcome :=
  let webhookSecret :=
    or_else (PADDLE_WEBHOOK_SECRET config) (env_PADDLE_WEBHOOK_SECRET env) in
  if negb (truthy_str webhookSecret)
  then (mkResponse 500 (Text "Webhook secret not configured"), db, [])
  else
    let signature := paddle_signature req in
    if negb (truthy_str signature)
    then (mkResponse 400 (Text "No signature provided"), db, [])
    else
      let body := req_text req in
      let isValid :=
        verifyPaddleWebhookSignature hmac_sha256 (now_verify env) body
          (default "" webhookSecret) (default "" signature) in
      if negb isValid
      then (mkResponse 400 (Text "Webhook signature verification failed"), db, [])
      else
        match JSON_parse body with
        | None => (mkResponse 400 (Text "Invalid JSON"), db, [])
        | Some event =>
            match admission_object event with
            | Throw _ => (mkResponse 500 (Text "Idempotency check failed"), db, [])
            | Ok o =>
                match runMutation (check_fails env) (admission o) db with
                | Throw _ =>
                    (mkResponse 500 (Text "Idempotency check failed"), db,
                     [CallCheckAndRecordEvent])
                | Ok (_, (true, db')) =>
                    (mkResponse 200 (Received true), db', [CallCheckAndRecordEvent])
                | Ok (args, (false, db')) =>
                    dispatch event args db' [CallCheckAndRecordEvent]
                end
            end
        end.

End Route.

(** ** Sequences of ledger operations *)

Inductive LedgerOp :=
| OpCheckAndRecordEvent (now : Z) (args : CheckArgs)
| OpMarkEventProcessed (now : Z) (paddleEventId : string) (status : option FinalStatus)
| OpUnreserveEvent (paddleEventId : string).

(** The database after one call; a call that throws writes nothing. *)
Definition run_op (db : DB) (op : LedgerOp) : DB :=
  match op with
  | OpCheckAndRecordEvent now args =>
      match checkAndRecordEvent now args db with
      | Ok (_, db') => db'
      | Throw _ => db
      end
  | OpMarkEventProcessed now k status =>
      match markEventProcessed now k status db with
      | Ok db' => db'
      | Throw _ => db
      end
  | OpUnreserveEvent k =>
      match unreserveEvent k db with
      | Ok db' => db'
      | Throw _ => db
      end
  end.

Definition run_ops (ops : list LedgerOp) (db : DB) : DB := foldl run_op db ops.

Definition is_permanent (s : option WebhookEvent.Status) : bool :=
  match s with
  | Some WebhookEvent.processed | Some WebhookEvent.processed_pending => true
  | _ => false
  end.

(** [op] is a call of [markEventProcessed] for the event [k]. *)
Definition marks (k : string) (op : LedgerOp) : bool :=
  match op with
  | OpMarkEventProcessed _ k' _ => bool_decide (k' = k)
  | _ => false
  end.

(** The invariants of the ledger table: document ids are distinct and were
    handed out earlier, and there is at most one record per event id. *)
Record ledger_wf (db : DB) : Prop := mk_ledger_wf {
  wf_ids : NoDup (_id <$> webhook_events db);
  wf_fresh : Forall (λ d, (_id d < next_id db)%nat) (webhook_events db);
  wf_event_ids : NoDup ((λ d, WebhookEvent.paddleEventId (fields d)) <$> webhook_events db) }.

(** ** The admission algorithm as the specification words it (section 4.2) *)

Module Spec.

Inductive Admission := ALREADY_DONE | ACQUIRED.

Record LedgerRecord := mkRecord {
  event_type : string;
  occurred_at : string;
  status : WebhookEvent.Status;
  lock_timestamp : Z }.

(** Ten minutes, in milliseconds. *)
Definition LOCK_TTL : Z := 600000.

Definition fresh (now : Z) (event_type occurred_at : string) : LedgerRecord :=
  mkRecord event_type occurred_at WebhookEvent.processing now.

(** Steps 1 to 4 over a store keyed by [event_id]. *)
Definition admission (now : Z) (event_id event_type occurred_at : string)
    (ledger : gmap string LedgerRecord) : Admission * gmap string LedgerRecord :=
  match ledger !! event_id with
  | None => (ACQUIRED, <[event_id := fresh now event_type occurred_at]> ledger)
  | Some r =>
      match status r with
      | WebhookEvent.processed | WebhookEvent.processed_pending => (ALREADY_DONE, ledger)
      | WebhookEvent.processing =>
          if now - lock_timestamp r <=? LOCK_TTL then (ALREADY_DONE, ledger)
          else (ACQUIRED,
                <[event_id := fresh now event_type occurred_at]> (delete event_id ledger))
      end
  end.

End Spec.

(** The ledger of the specification held by a database. A record stored
    without [status] reads as [processed], as the schema says. *)
Definition record_of (r : WebhookEvent.t) : Spec.LedgerRecord :=
  Spec.mkRecord (WebhookEvent.eventType r) (WebhookEvent.occurredAt r)
    (default WebhookEvent.processed (WebhookEvent.status r)) (WebhookEvent.processedAt r).

Definition ledger_entries (t : Table WebhookEvent.t) : list (string * Spec.LedgerRecord) :=
  (λ d, (WebhookEvent.paddleEventId (fields d), record_of (fields d))) <$> t.

Definition ledger_of (db : DB) : gmap string Spec.LedgerRecord :=
  list_to_map (ledger_entries (webhook_events db)).

Definition admission_of (alreadyProcessed : bool) : Spec.Admission :=
  if alreadyProcessed then Spec.ALREADY_DONE else Spec.ACQUIRED.

(** ** Notions used in the statements *)

Definition event_id_of (d : Doc WebhookEvent.t) : string :=
  WebhookEvent.paddleEventId (fields d).

Definition status_of (d : Doc WebhookEvent.t) : option WebhookEvent.Status :=
  WebhookEvent.status (fields d).

(** A caller-supplied handler that leaves the ledger table alone. *)
Definition keeps_ledger (h : Hook) : Prop :=
  ∀ event db, webhook_events (h event db).1 = webhook_events db.

Definition hooks_keep_ledger (config : RegisterRoutesConfig) : Prop :=
  (∀ h, onEvent config = Some h → keeps_ledger h)
  ∧ (∀ event_type h, events config !! event_type = Some h → keeps_ledger h).

(** The handler has come to the processing block of a request: a secret is
    configured, the signature is valid, the body parses to [event], and the
    admission call returned [false] for the arguments [args], leaving the
    database [db]. *)
Definition lock_acquired (hmac_sha256 : string → string → option (list Byte.byte))
    (JSON_parse : string → option Value) (config : RegisterRoutesConfig) (env : Env)
    (req : Request) (db0 : DB) (event : Value) (args : CheckArgs) (db : DB) : Prop :=
  let webhookSecret :=
    or_else (PADDLE_WEBHOOK_SECRET config) (env_PADDLE_WEBHOOK_SECRET env) in
  truthy_str webhookSecret = true
  ∧ truthy_str (paddle_signature req) = true
  ∧ verifyPaddleWebhookSignature hmac_sha256 (now_verify env) (req_text req)
      (default "" webhookSecret) (default "" (paddle_signature req)) = true
  ∧ JSON_parse (req_text req) = Some event
  ∧ ∃ o, admission_object event = Ok o
         ∧ runMutation (check_fails env) (admission env o) db0 = Ok (args, (false, db)).

(** The requests that fail authentication: no signature header, a timestamp
    more than 300 seconds from now, a digest that is not the one of this
    body, or any header the verifier turns down. *)
Inductive unauthenticated (hmac_sha256 : string → string → option (list Byte.byte))
    (now : Z) (secret body : string) : option string → Prop :=
| signature_missing :
    unauthenticated hmac_sha256 now secret body None
| signature_stale h ts tsSeconds :
    header_field "ts" h = Some ts →
    parseInt ts = Some tsSeconds →
    Z.abs (now / 1000 - tsSeconds) > 300 →
    unauthenticated hmac_sha256 now secret body (Some h)
| signature_of_other_payload h ts h1 signatureBytes :
    header_field "ts" h = Some ts →
    header_field "h1" h = Some h1 →
    hmac_sha256 secret (ts +:+ ":" +:+ body) = Some signatureBytes →
    h1 ≠ hex_encode signatureBytes →
    unauthenticated hmac_sha256 now secret body (Some h)
| signature_invalid h :
    verifyPaddleWebhookSignature hmac_sha256 now body secret h = false →
    unauthenticated hmac_sha256 now secret body (Some h).


(** A stored transaction after the patch computed from the fetched [txn],
    when the user id [su] and the organisation id [so] are both given. *)
Definition fill_linkage (su so : string) (txn d : Doc Transaction.t) : Doc Transaction.t :=
  if decide (_id d = _id txn)
  then mkDoc (_id d)
         (backfill_row (Some (VString su)) (Some (VString so)) txn (Some su) (Some so)
            (fields d))
  else d.

(** ... and after the patches of a whole turn. *)
Definition fill_all (su so : string) (toUpdate : list (Doc Transaction.t))
    (d : Doc Transaction.t) : Doc Transaction.t :=
  foldl (λ d txn, fill_linkage su so txn d) d toUpdate.

(** Both linkage identifiers are stored. *)
Definition linked (d : Doc Transaction.t) : Prop := needs_linkage d = false.

(** ** Sample data *)

Definition evt_1 (processedAt : Z) (status : option WebhookEvent.Status)
    : Doc WebhookEvent.t :=
  mkDoc 0%nat
    (WebhookEvent.mk "evt_1" "subscription.created" "2024-01-01T00:00:00Z" processedAt status).

Definition ledger_with (processedAt : Z) (status : option WebhookEvent.Status) : DB :=
  mkDB [] [] [] [] [evt_1 processedAt status] 1%nat.

Definition evt_1_args : CheckArgs :=
  mkCheckArgs "evt_1" "subscription.created" "2024-01-01T00:00:00Z".

(** Stand-ins for the platform in the examples: an HMAC that knows one key
    and signs everything with the same four bytes, a [JSON.parse] that knows
    one body. *)
Definition sample_hmac (secret message : string) : option (list Byte.byte) :=
  if decide (secret = "pdl_ntfset_secret")
  then Some [Byte.xde; Byte.xad; Byte.xbe; Byte.xef]
  else None.

Definition evt_3 : Value :=
  VObject (list_to_map
    [("event_id", VString "evt_3");
     ("event_type", VString "subscription.paused");
     ("occurred_at", VString "2024-01-01T00:00:00Z");
     ("data", VObject (list_to_map [("id", VString "sub_1")]))]).

Definition sample_parse (body : string) : option Value :=
  if decide (body = "evt_3") then Some evt_3 else None.

Definition evt_3_args : CheckArgs :=
  mkCheckArgs "evt_3" "subscription.paused" "2024-01-01T00:00:00Z".

Definition throwing_hook : Hook := λ _ db, (db, true).

Definition config_with_secret : RegisterRoutesConfig :=
  mkConfig (Some "pdl_ntfset_secret") None {[ "subscription.paused" := throwing_hook ]}.

Definition config_without_secret : RegisterRoutesConfig := mkConfig None None ∅.

Definition quiet_env (now : Z) : Env :=
  mkEnv None now now now now false false false false false 1000%nat.

Definition signed_request : Request :=
  mkRequest (Some "ts=1700000000;h1=deadbeef") "evt_3".

Definition unsigned_request : Request := mkRequest None "evt_3".

(** One hundred transactions of subscription [sub_1] that arrived before the
    subscription itself, none with linkage identifiers. *)
Definition early_transaction (n : nat) : Doc Transaction.t :=
  mkDoc n
    (Transaction.mk ("txn_" +:+ pretty n) (Some "ctm_1") (Some "sub_1") "completed"
       (Some "USD") (Some "1000") (Some "automatic") None None (Some (VObject ∅))
       None None).

Definition early_transactions_db : DB :=
  mkDB [] [] (early_transaction <$> seq 0 100) [] [] 100%nat.

(** [subscription.created] for [sub_1], whose custom data carries a user id
    and no organisation id. *)
Definition sub_1_created : SubscriptionCreatedArgs.t :=
  SubscriptionCreatedArgs.mk "sub_1" "ctm_1" "active" "pri_1" (Some 1) None
    None None None (Some (VObject {[ "userId" := VString "user_1" ]})).

Definition sub_1 : Doc Subscription.t :=
  mkDoc 0%nat
    (Subscription.mk "sub_1" "ctm_1" "active" "pri_1" (Some 5)
       (Some (VObject {[ "action" := VString "pause" ]}))
       (Some "2024-01-01") (Some "2024-02-01") (Some "2024-02-01") None None
       (Some (VObject {[ "userId" := VString "user_1" ]})) (Some "user_1") (Some "org_1")).

Definition sub_1_db : DB := mkDB [] [sub_1] [] [] [] 1%nat.

(** [subscription.updated] for [sub_1] carrying a status and nothing else. *)
Definition sub_1_updated : SubscriptionUpdatedArgs.t :=
  SubscriptionUpdatedArgs.mk "sub_1" "past_due" None None None None None None None None None.


(** The subscription row that [sub_1_created] inserts. *)
Definition sub_1_inserted : Doc Subscription.t :=
  mkDoc 100%nat
    (Subscription.mk "sub_1" "ctm_1" "active" "pri_1" (Some 1) None None None None None None
       (Some (VObject {[ "userId" := VString "user_1" ]})) (Some "user_1") None).

(** The early transactions after the first turn of the backfill: the user id
    is filled in, the organisation id is still missing. *)
Definition linked_transaction (n : nat) : Doc Transaction.t :=
  mkDoc n
    (Transaction.mk ("txn_" +:+ pretty n) (Some "ctm_1") (Some "sub_1") "completed"
       (Some "USD") (Some "1000") (Some "automatic") None None (Some (VObject ∅))
       (Some "user_1") None).

Definition early_transactions_db_1 : DB :=
  mkDB [] [sub_1_inserted] (early_transaction <$> seq 0 100) [] [] 101%nat.

Definition early_transactions_db_2 : DB :=
  mkDB [] [sub_1_inserted] (linked_transaction <$> seq 0 100) [] [] 101%nat.

Definition config_plain : RegisterRoutesConfig :=
  mkConfig (Some "pdl_ntfset_secret") None ∅.

(** An environment in which the first promotion of the lock fails. *)
Definition failing_mark_env (now : Z) : Env :=
  mkEnv None now now now now false false true false false 1000%nat.

(** What the examples look at after a request: the response, the statuses
    in the ledger, the subscription rows, the calls. *)
Definition observe (o : Outcome)
    : Response * list (option WebhookEvent.Status) * list (Doc Subscription.t) * list Call :=
  (o.1.1, status_of <$> webhook_events o.1.2, subscriptions o.1.2, o.2).

(** ** Utility mutations ([private.ts], lines 700-750) *)

Definition updateSubscriptionQuantityInternal (paddleSubscriptionId : string) (quantity : Z)
    (db : DB) : Result DB :=
  patch_subscription paddleSubscriptionId
    (λ r, Subscription.mk (Subscription.paddleSubscriptionId r) (Subscription.paddleCustomerId r)
            (Subscription.status r) (Subscription.priceId r)
            (Some quantity)
            (Subscription.scheduledChange r)
            (Subscription.currentBillingPeriodStart r) (Subscription.currentBillingPeriodEnd r)
            (Subscription.nextBilledAt r) (Subscription.pausedAt r) (Subscription.canceledAt r)
            (Subscription.customData r) (Subscription.userId r) (Subscription.orgId r)) db.

Definition updateTransactionCustomer (paddleTransactionId paddleCustomerId : string)
    (db : DB) : Result DB :=
  match unique (transactions_by_paddle_transaction_id paddleTransactionId db) with
  | Throw e => Throw e
  | Ok None => Ok db
  | Ok (Some transaction) =>
      if negb (truthy_str (Transaction.paddleCustomerId (fields transaction)))
      then
        Ok (set_transactions
              (tbl_patch (_id transaction)
                 (λ r, Transaction.mk (Transaction.paddleTransactionId r)
                         (Some paddleCustomerId)
                         (Transaction.paddleSubscriptionId r) (Transaction.status r)
                         (Transaction.currencyCode r) (Transaction.totalAmount r)
                         (Transaction.collectionMode r) (Transaction.billedAt r)
                         (Transaction.createdAt r) (Transaction.customData r)
                         (Transaction.userId r) (Transaction.orgId r))) db)
      else Ok db
  end.

(** ** Public queries and mutations ([public.ts]) *)

(** A query returns the document without [_id] and [_creationTime]: its
    [fields]. *)
Definition getCustomer (paddleCustomerId : string) (db : DB) : Result (option Customer.t) :=
  match unique (customers_by_paddle_customer_id paddleCustomerId db) with
  | Throw e => Throw e
  | Ok None => Ok None
  | Ok (Some customer) => Ok (Some (fields customer))
  end.

Definition getSubscription (paddleSubscriptionId : string) (db : DB)
    : Result (option Subscription.t) :=
  match unique (subscriptions_by_paddle_subscription_id paddleSubscriptionId db) with
  | Throw e => Throw e
  | Ok None => Ok None
  | Ok (Some subscription) => Ok (Some (fields subscription))
  end.

Definition subscriptions_by_org_id (orgId : string) (db : DB) :=
  filter (λ d, Subscription.orgId (fields d) = Some orgId) (subscriptions db).

(** [.collect()], then the first active subscription, or else the first. *)
Definition getSubscriptionByOrgId (orgId : string) (db : DB) : option Subscription.t :=
  let subscriptions := subscriptions_by_org_id orgId db in
  match subscriptions with
  | [] => None
  | first :: _ =>
      let active :=
        List.find (λ s, String.eqb (Subscription.status (fields s)) "active") subscriptions in
      Some (fields (default first active))
  end.

Definition getTransaction (paddleTransactionId : string) (db : DB)
    : Result (option Transaction.t) :=
  match unique (transactions_by_paddle_transaction_id paddleTransactionId db) with
  | Throw e => Throw e
  | Ok None => Ok None
  | Ok (Some transaction) => Ok (Some (fields transaction))
  end.

Definition listTransactionsBySubscription (paddleSubscriptionId : string) (db : DB)
    : list Transaction.t :=
  fields <$> transactions_by_paddle_subscription_id paddleSubscriptionId db.

(** The public upsert of a customer: unlike the webhook mutations it stores
    the custom data as given, and returns the customer id. *)
Definition createOrUpdateCustomer (args : CustomerArgs.t) (db : DB) : Result (string * DB) :=
  match unique (customers_by_paddle_customer_id (CustomerArgs.paddleCustomerId args) db) with
  | Throw e => Throw e
  | Ok (Some existing) =>
      Ok (CustomerArgs.paddleCustomerId args,
          set_customers
            (tbl_patch (_id existing)
               (λ r, Customer.mk (Customer.paddleCustomerId r) (CustomerArgs.email args)
                       (CustomerArgs.name args) (CustomerArgs.status args)
                       (CustomerArgs.customData args))) db)
  | Ok None =>
      Ok (CustomerArgs.paddleCustomerId args,
          bump_id (set_customers
            (tbl_insert (next_id db)
               (Customer.mk (CustomerArgs.paddleCustomerId args) (CustomerArgs.email args)
                  (CustomerArgs.name args) (CustomerArgs.status args)
                  (CustomerArgs.customData args))) db))
  end.

(** ** Further notions used in the statements *)

(** The request passes authentication and parsing: a secret is configured,
    the signature is valid, the body parses to [event], and the three
    admission fields of [event] are the strings of [args]. *)
Definition admissible (hmac_sha256 : string → string → option (list Byte.byte))
    (JSON_parse : string → option Value) (config : RegisterRoutesConfig) (env : Env)
    (req : Request) (event : Value) (args : CheckArgs) : Prop :=
  let webhookSecret :=
    or_else (PADDLE_WEBHOOK_SECRET config) (env_PADDLE_WEBHOOK_SECRET env) in
  truthy_str webhookSecret = true
  ∧ truthy_str (paddle_signature req) = true
  ∧ verifyPaddleWebhookSignature hmac_sha256 (now_verify env) (req_text req)
      (default "" webhookSecret) (default "" (paddle_signature req)) = true
  ∧ JSON_parse (req_text req) = Some event
  ∧ ∃ o, admission_object event = Ok o ∧ validate_admission o = Ok args.

(** The calls of the processing block to the caller's handlers. *)
Definition hook_calls : list (list Call) :=
  [[]; [CallOnEvent]; [CallCustomHandler]; [CallOnEvent; CallCustomHandler]].

(** The responses of the route, each with the calls that may precede it. *)
Inductive Exchange : Response → list Call → Prop :=
| exchange_no_secret :
    Exchange (mkResponse 500 (Text "Webhook secret not configured")) []
| exchange_no_signature :
    Exchange (mkResponse 400 (Text "No signature provided")) []
| exchange_bad_signature :
    Exchange (mkResponse 400 (Text "Webhook signature verification failed")) []
| exchange_bad_json :
    Exchange (mkResponse 400 (Text "Invalid JSON")) []
| exchange_no_event :
    Exchange (mkResponse 500 (Text "Idempotency check failed")) []
| exchange_check_failed :
    Exchange (mkResponse 500 (Text "Idempotency check failed")) [CallCheckAndRecordEvent]
| exchange_duplicate :
    Exchange (mkResponse 200 (Received true)) [CallCheckAndRecordEvent]
| exchange_released hooks :
    hooks ∈ hook_calls →
    Exchange (mkResponse 500 (Text "Error processing webhook"))
      (CallCheckAndRecordEvent :: CallProcessEvent :: hooks ++ [CallUnreserveEvent])
| exchange_processed hooks :
    hooks ∈ hook_calls →
    Exchange (mkResponse 200 (Received false))
      (CallCheckAndRecordEvent :: CallProcessEvent :: hooks ++ [CallMarkEventProcessed None])
| exchange_processed_pending hooks :
    hooks ∈ hook_calls →
    Exchange (mkResponse 200 (Received false))
      (CallCheckAndRecordEvent :: CallProcessEvent :: hooks
         ++ [CallMarkEventProcessed None;
             CallMarkEventProcessed (Some final_processed_pending)])
| exchange_not_finalized hooks :
    hooks ∈ hook_calls →
    Exchange (mkResponse 500 (Text "Failed to finalize event"))
      (CallCheckAndRecordEvent :: CallProcessEvent :: hooks
         ++ [CallMarkEventProcessed None;
             CallMarkEventProcessed (Some final_processed_pending)]).

(** At most one ledger record per event id. *)
Definition one_record_per_event (db : DB) : Prop :=
  NoDup (event_id_of <$> webhook_events db).

(** A character other than the separator [sep]. *)
Definition other_than (sep : ascii) (c : ascii) : bool := negb (Ascii.eqb c sep).

(** The Paddle identifiers are keys: each entity table holds at most one row
    per identifier. *)
Record entity_wf (db : DB) : Prop := mk_entity_wf {
  wf_customers :
    NoDup ((λ d, Customer.paddleCustomerId (fields d)) <$> customers db);
  wf_subscriptions :
    NoDup ((λ d, Subscription.paddleSubscriptionId (fields d)) <$> subscriptions db);
  wf_transactions :
    NoDup ((λ d, Transaction.paddleTransactionId (fields d)) <$> transactions db);
  wf_adjustments :
    NoDup ((λ d, Adjustment.paddleAdjustmentId (fields d)) <$> adjustments db) }.

(** The rows of every entity table are the same documents, possibly
    patched: no row was created or deleted. *)
Definition same_rows (db db' : DB) : Prop :=
  _id <$> customers db' = _id <$> customers db
  ∧ _id <$> subscriptions db' = _id <$> subscriptions db
  ∧ _id <$> transactions db' = _id <$> transactions db
  ∧ _id <$> adjustments db' = _id <$> adjustments db
  ∧ next_id db' = next_id db.

(** Only rows of [transactions] were patched. *)
Definition backfilled (db db' : DB) : Prop :=
  customers db' = customers db ∧ subscriptions db' = subscriptions db
  ∧ adjustments db' = adjustments db
  ∧ _id <$> transactions db' = _id <$> transactions db
  ∧ next_id db' = next_id db.

(** The transaction [r] with other linkage identifiers. *)
Definition with_linkage (r : Transaction.t) (userId orgId : option string) : Transaction.t :=
  Transaction.mk (Transaction.paddleTransactionId r)
    (Transaction.paddleCustomerId r) (Transaction.paddleSubscriptionId r)
    (Transaction.status r) (Transaction.currencyCode r)
    (Transaction.totalAmount r) (Transaction.collectionMode r)
    (Transaction.billedAt r) (Transaction.createdAt r)
    (Transaction.customData r) userId orgId.

(** A stored transaction [d] and the same document [d'] after the backfill
    for the subscription [k]: a transaction of another subscription is as it
    was; otherwise nothing but the linkage identifiers may differ, and an
    identifier that was stored is still the same. *)
Definition linkage_filled (k : string) (d d' : Doc Transaction.t) : Prop :=
  _id d' = _id d
  ∧ (Transaction.paddleSubscriptionId (fields d) ≠ Some k → d' = d)
  ∧ ∃ u o,
      fields d' = with_linkage (fields d) u o
      ∧ (truthy_str (Transaction.userId (fields d)) = true → u = Transaction.userId (fields d))
      ∧ (truthy_str (Transaction.orgId (fields d)) = true → o = Transaction.orgId (fields d)).

(** The call does not fail for a lookup that found more than one row. *)
Definition unambiguous {A} (r : Result A) : Prop := r ≠ Throw NotUnique.

(** ** Further sample data *)

(** The ledger after [evt_3] was processed. *)
Definition evt_3_processed : DB :=
  mkDB [] [] [] []
    [mkDoc 0%nat
       (WebhookEvent.mk "evt_3" "subscription.paused" "2024-01-01T00:00:00Z"
          1700000100000 (Some WebhookEvent.processed))] 1%nat.

(** A [customer.created] event for the customer [ctm_1], and the database
    after it. *)
Definition ctm_1_created : Value :=
  VObject (list_to_map
    [("event_id", VString "evt_4");
     ("event_type", VString "customer.created");
     ("occurred_at", VString "2024-01-01T00:00:00Z");
     ("data", VObject (list_to_map
        [("id", VString "ctm_1"); ("email", VString "ada@example.com")]))]).

Definition ctm_1_args : CustomerArgs.t :=
  CustomerArgs.mk "ctm_1" (Some "ada@example.com") None None None.

Definition ctm_1_db : DB :=
  mkDB [mkDoc 0%nat (Customer.mk "ctm_1" (Some "ada@example.com") None None (Some (VObject ∅)))]
    [] [] [] [] 1%nat.

(** Two transactions of [sub_1] that arrived before the subscription, and
    the database after [sub_1_created]. *)
Definition two_early_db : DB :=
  mkDB [] [] (early_transaction <$> seq 0 2) [] [] 2%nat.

Definition two_linked_db : DB :=
  mkDB [] [mkDoc 2%nat (fields sub_1_inserted)] (linked_transaction <$> seq 0 2) [] [] 3%nat.

(** [transaction.completed] for [txn_1]. *)
Definition txn_1_completed : TransactionCompletedArgs.t :=
  TransactionCompletedArgs.mk "txn_1" (Some "ctm_1") (Some "sub_1") (Some "1000")
    (Some "2024-01-02T00:00:00Z") None.

(** A transaction stored without a customer id. *)
Definition guest_transaction : Transaction.t :=
  Transaction.mk "txn_9" None None "ready" (Some "USD") (Some "1000") None None None
    (Some (VObject ∅)) None None.

Definition guest_transaction_db : DB :=
  mkDB [] [] [mkDoc 0%nat guest_transaction] [] [] 1%nat.

(** ** The signature scheme in words *)

(** What the verifier accepts, said without the operations of the code:
    the fields of the header, the integer a time stamp begins with, and the
    bytes a hexadecimal numeral denotes. *)
Module SignatureScheme.

(** No character of [s] is [c]. *)
Definition free_of (c : ascii) (s : string) : Prop :=
  Forall (λ x, x ≠ c) (list_ascii_of_string s).

(** The fields of a header: the texts separated by its semicolons. *)
Definition fields_of (header : string) (fs : list string) : Prop :=
  header = String.concat ";" fs ∧ fs ≠ [] ∧ Forall (free_of ";") fs.

(** A field is named [name] when it starts with the name and an equals
    sign. *)
Definition named (name field : string) : Prop :=
  ∃ rest, field = name +:+ "=" +:+ rest.

(** The value of a field named [name]: the text after its first equals
    sign, up to the next equals sign or to the end of the field. *)
Definition value_of (name field value : string) : Prop :=
  free_of "=" value
  ∧ (field = name +:+ "=" +:+ value
     ∨ ∃ more, field = name +:+ "=" +:+ value +:+ "=" +:+ more).

(** [value] is the value of the first field of [header] named [name]. *)
Definition first_field (name header value : string) : Prop :=
  ∃ before field after,
    fields_of header (before ++ field :: after)
    ∧ Forall (λ f, ¬ named name f) before
    ∧ value_of name field value.

(** Tab, line feed, vertical tab, form feed, carriage return, space and
    no-break space, by their codes. *)
Definition white_space (c : ascii) : Prop :=
  N_of_ascii c ∈ [9; 10; 11; 12; 13; 32; 160]%N.

(** The characters [0] to [9]. *)
Definition digit (c : ascii) : Prop := (48 ≤ N_of_ascii c ≤ 57)%N.

(** The number that a string of digits denotes in base ten. *)
Fixpoint number (digits : string) : Z :=
  match digits with
  | EmptyString => 0
  | String c rest =>
      (Z.of_N (N_of_ascii c) - 48) * 10 ^ Z.of_nat (String.length rest) + number rest
  end.

(** A text that does not start with a character of the kind [P]. *)
Definition starts_without (P : ascii → Prop) (s : string) : Prop :=
  match s with
  | EmptyString => True
  | String c _ => ¬ P c
  end.

(** [ts] begins with the integer [n]: after white space and a sign, both
    optional, come the digits of [n], all of them; what follows the digits
    is not looked at. *)
Definition leading_integer (ts : string) (n : Z) : Prop :=
  ∃ space sign digits rest,
    ts = space +:+ sign +:+ digits +:+ rest
    ∧ Forall white_space (list_ascii_of_string space)
    ∧ (sign = "" ∧ n = number digits
       ∨ sign = "+" ∧ n = number digits
       ∨ sign = "-" ∧ n = - number digits)
    ∧ digits ≠ ""
    ∧ Forall digit (list_ascii_of_string digits)
    ∧ starts_without digit rest.

(** The value of a lower-case hexadecimal digit: [0] to [9] count from
    zero, [a] to [f] from ten. *)
Definition nibble (c : ascii) : option N :=
  let n := N_of_ascii c in
  if ((48 <=? n) && (n <=? 57))%N then Some (n - 48)%N
  else if ((97 <=? n) && (n <=? 102))%N then Some (n - 87)%N
  else None.

(** The bytes that a lower-case hexadecimal numeral denotes, two digits to
    the byte, the high one first. *)
Fixpoint bytes_of_hex (s : string) : option (list Byte.byte) :=
  match s with
  | EmptyString => Some []
  | String _ EmptyString => None
  | String hi (String lo rest) =>
      match nibble hi, nibble lo, bytes_of_hex rest with
      | Some h, Some l, Some bytes =>
          match Byte.of_N (16 * h + l) with
          | Some b => Some (b :: bytes)
          | None => None
          end
      | _, _, _ => None
      end
  end.

(** The requests that the scheme accepts at the time [now] (in
    milliseconds): the first [ts] field and the first [h1] field of the
    header have a value; the value of [ts] begins with an integer that is at
    most 300 seconds from now; HMAC-SHA256 under the secret of the value of
    [ts], a colon and the body is computed, and the value of [h1] is its
    lower-case hexadecimal numeral. *)
Definition accepts (hmac_sha256 : string → string → option (list Byte.byte))
    (now : Z) (rawBody secret header : string) : Prop :=
  ∃ ts h1 seconds digest,
    first_field "ts" header ts
    ∧ first_field "h1" header h1
    ∧ ts ≠ "" ∧ h1 ≠ ""
    ∧ leading_integer ts seconds
    ∧ Z.abs (now / 1000 - seconds) ≤ 300
    ∧ hmac_sha256 secret (ts +:+ ":" +:+ rawBody) = Some digest
    ∧ bytes_of_hex h1 = Some digest.

End SignatureScheme.

(** A handler of the caller that promotes the event itself, through the
    exported [markEventProcessed], and then throws. *)
Definition marking_hook : Hook := λ _ db,
  (match markEventProcessed 1700000100000 "evt_3" None db with
   | Ok db' => db'
   | Throw _ => db
   end, true).

Definition config_with_marking_hook : RegisterRoutesConfig :=
  mkConfig (Some "pdl_ntfset_secret") None {[ "subscription.paused" := marking_hook ]}.

(** * Tables *)

Section Tables.
Context {A : Type}.
Implicit Types (t : Table A) (d : Doc A) (i : Id).

Lemma unique_Some (l : list A) x : unique l = Ok (Some x) → l = [x].
Proof. destruct l as [|a [|b l]]; simpl; congruence. Qed.

Lemma unique_None (l : list A) : unique l = Ok None → l = [].
Proof. destruct l as [|a [|b l]]; simpl; congruence. Qed.

Lemma unique_short (l : list A) :
  (length l ≤ 1)%nat → unique l = Ok (head l).
Proof. destruct l as [|a [|b l]]; simpl; intros; try done; lia. Qed.

Lemma tbl_delete_filter (P : Doc A → Prop) `{!∀ d, Decision (P d)} i t :
  filter P (tbl_delete i t) = tbl_delete i (filter P t).
Proof.
  unfold tbl_delete. rewrite !list_filter_filter.
  apply list_filter_iff. tauto.
Qed.

Lemma tbl_delete_absent i t : (∀ d, d ∈ t → _id d ≠ i) → tbl_delete i t = t.
Proof.
  unfold tbl_delete. induction t as [|a t IH]; intros H; [done|].
  rewrite filter_cons_True by (apply H; left).
  f_equal. apply IH. intros d Hd. apply H. by right.
Qed.

Lemma tbl_patch_absent i (f : A → A) t :
  (∀ d, d ∈ t → _id d ≠ i) → tbl_patch i f t = t.
Proof.
  unfold tbl_patch. induction t as [|a t IH]; intros H; [done|].
  csimpl. rewrite decide_False by (apply H; left).
  f_equal. apply IH. intros d Hd. apply H. by right.
Qed.

Lemma tbl_patch_filter (P : Doc A → Prop) `{!∀ d, Decision (P d)} i (f : A → A) t :
  (∀ d, P (mkDoc (_id d) (f (fields d))) ↔ P d) →
  filter P (tbl_patch i f t) = tbl_patch i f (filter P t).
Proof.
  intros HP. unfold tbl_patch. induction t as [|a t IH]; [done|].
  csimpl. destruct (decide (P a)) as [Ha|Ha].
  - rewrite (filter_cons_True P a) by done. csimpl.
    rewrite filter_cons_True; [by rewrite IH|].
    case_decide; [by apply HP|done].
  - rewrite (filter_cons_False P a) by done.
    rewrite filter_cons_False; [done|].
    case_decide; [by rewrite HP|done].
Qed.

Lemma tbl_patch_ids i (f : A → A) t : _id <$> tbl_patch i f t = _id <$> t.
Proof.
  unfold tbl_patch. rewrite <- list_fmap_compose. apply list_fmap_ext.
  intros ? d _. simpl. by case_decide.
Qed.

Lemma ids_inj t d1 d2 :
  NoDup (_id <$> t) → d1 ∈ t → d2 ∈ t → _id d1 = _id d2 → d1 = d2.
Proof.
  induction t as [|a t IH]; [by intros _ ?%elem_of_nil|].
  csimpl. intros [Ha Hnd]%NoDup_cons H1 H2 Heq.
  apply elem_of_cons in H1 as [->|H1], H2 as [->|H2]; auto.
  - exfalso. apply Ha. rewrite Heq. by apply list_elem_of_fmap_2.
  - exfalso. apply Ha. rewrite <- Heq. by apply list_elem_of_fmap_2.
Qed.

End Tables.

(** * Lists filtered by a key *)

Section Keyed.
Context {A K : Type} `{!EqDecision K} (key : A → K).

Lemma filter_key_absent (k : K) (l : list A) :
  k ∉ key <$> l → filter (λ d, key d = k) l = [].
Proof.
  induction l as [|a l IH]; [done|]. csimpl.
  intros [Hne Hl]%not_elem_of_cons.
  rewrite filter_cons_False by congruence. auto.
Qed.

Lemma filter_key_short (k : K) (l : list A) :
  NoDup (key <$> l) → (length (filter (λ d, key d = k) l) ≤ 1)%nat.
Proof.
  induction l as [|a l IH]; [simpl; lia|]. csimpl.
  intros [Ha Hnd]%NoDup_cons. destruct (decide (key a = k)) as [<-|Hne].
  - rewrite filter_cons_True by done. rewrite filter_key_absent by done. simpl. lia.
  - rewrite filter_cons_False by done. auto.
Qed.

Lemma NoDup_key_filter (P : A → Prop) `{!∀ x, Decision (P x)} (l : list A) :
  NoDup (key <$> l) → NoDup (key <$> filter P l).
Proof.
  induction l as [|a l IH]; [done|]. csimpl.
  intros [Ha Hnd]%NoDup_cons. rewrite filter_cons. case_decide; auto.
  csimpl. apply NoDup_cons. split; auto.
  intros (d & Hd & [_ Hin]%list_elem_of_filter)%list_elem_of_fmap.
  apply Ha. rewrite Hd. by apply list_elem_of_fmap_2.
Qed.

Lemma NoDup_key_snoc (l : list A) (x : A) :
  NoDup (key <$> l) → key x ∉ key <$> l → NoDup (key <$> (l ++ [x])).
Proof.
  intros Hnd Hx. rewrite fmap_app. apply NoDup_app. split_and!; [done| |apply NoDup_singleton].
  intros y Hy ->%list_elem_of_singleton. done.
Qed.
End Keyed.

(** * The event ledger *)

Section Ledger.
Implicit Types (db : DB) (k : string) (d r ex : Doc WebhookEvent.t).

Lemma by_event_elem k db d :
  d ∈ by_paddle_event_id k db ↔ event_id_of d = k ∧ d ∈ webhook_events db.
Proof. unfold by_paddle_event_id, event_id_of. by rewrite list_elem_of_filter. Qed.

Lemma by_event_short k db :
  ledger_wf db → (length (by_paddle_event_id k db) ≤ 1)%nat.
Proof. intros [_ _ H]. by apply (filter_key_short event_id_of). Qed.

Lemma by_event_unique k db :
  ledger_wf db → unique (by_paddle_event_id k db) = Ok (head (by_paddle_event_id k db)).
Proof. intros. by apply unique_short, by_event_short. Qed.

Lemma by_event_delete k i db :
  by_paddle_event_id k (set_webhook_events (tbl_delete i) db)
  = tbl_delete i (by_paddle_event_id k db).
Proof. apply tbl_delete_filter. Qed.

Lemma by_event_patch k i (f : WebhookEvent.t → WebhookEvent.t) db :
  (∀ x, WebhookEvent.paddleEventId (f x) = WebhookEvent.paddleEventId x) →
  by_paddle_event_id k (set_webhook_events (tbl_patch i f) db)
  = tbl_patch i f (by_paddle_event_id k db).
Proof.
  intros Hf. unfold by_paddle_event_id. simpl.
  apply (tbl_patch_filter (λ d, WebhookEvent.paddleEventId (fields d) = k)).
  intros d. simpl. by rewrite Hf.
Qed.

Lemma by_event_acquire k now args db :
  by_paddle_event_id k (acquire_lock now args db)
  = by_paddle_event_id k db
    ++ (if decide (ca_paddleEventId args = k)
        then [mkDoc (next_id db)
                (WebhookEvent.mk (ca_paddleEventId args) (ca_eventType args)
                   (ca_occurredAt args) now (Some WebhookEvent.processing))]
        else []).
Proof.
  unfold by_paddle_event_id, acquire_lock, tbl_insert. simpl.
  by rewrite filter_app.
Qed.

(** Deleting or patching the record of another event leaves the records of
    [k] alone. *)
Lemma other_ids k db ex :
  ledger_wf db → ex ∈ webhook_events db → event_id_of ex ≠ k →
  ∀ d, d ∈ by_paddle_event_id k db → _id d ≠ _id ex.
Proof.
  intros [Hids _ _] Hex Hne d [Hk Hd]%by_event_elem Heq.
  apply Hne. rewrite <- Hk. f_equal. symmetry. by eapply ids_inj.
Qed.

Lemma by_event_delete_other k db ex :
  ledger_wf db → ex ∈ webhook_events db → event_id_of ex ≠ k →
  by_paddle_event_id k (set_webhook_events (tbl_delete (_id ex)) db)
  = by_paddle_event_id k db.
Proof.
  intros. rewrite by_event_delete. apply tbl_delete_absent. by eapply other_ids.
Qed.

Lemma by_event_delete_self k db ex :
  by_paddle_event_id k db = [ex] →
  by_paddle_event_id k (set_webhook_events (tbl_delete (_id ex)) db) = [].
Proof.
  intros H. rewrite by_event_delete, H. unfold tbl_delete.
  by rewrite filter_cons_False by (intros Hne; by apply Hne).
Qed.

(** ** The invariants are kept *)

Lemma wf_delete db i : ledger_wf db → ledger_wf (set_webhook_events (tbl_delete i) db).
Proof.
  intros [Hids Hfresh Hev]. split; simpl; unfold tbl_delete.
  - by apply (NoDup_key_filter _id).
  - apply Forall_forall. intros d [_ Hd]%list_elem_of_filter.
    by eapply Forall_forall in Hfresh.
  - by apply (NoDup_key_filter event_id_of).
Qed.

Lemma wf_patch db i (f : WebhookEvent.t → WebhookEvent.t) :
  (∀ x, WebhookEvent.paddleEventId (f x) = WebhookEvent.paddleEventId x) →
  ledger_wf db → ledger_wf (set_webhook_events (tbl_patch i f) db).
Proof.
  intros Hf [Hids Hfresh Hev]. split; simpl.
  - by rewrite tbl_patch_ids.
  - unfold tbl_patch. apply Forall_fmap. eapply Forall_impl; [done|].
    intros d Hd. simpl. by case_decide.
  - replace (_ <$> tbl_patch i f (webhook_events db))
      with ((λ d, WebhookEvent.paddleEventId (fields d)) <$> webhook_events db); [done|].
    unfold tbl_patch. rewrite <- list_fmap_compose. apply list_fmap_ext.
    intros ? d _. simpl. case_decide; simpl; by rewrite ?Hf.
Qed.

Lemma wf_acquire now args db :
  ledger_wf db → by_paddle_event_id (ca_paddleEventId args) db = [] →
  ledger_wf (acquire_lock now args db).
Proof.
  intros [Hids Hfresh Hev] Hnone. split; simpl; unfold tbl_insert.
  - apply (NoDup_key_snoc _id); [done|]. simpl.
    intros (d & Hd & Hin)%list_elem_of_fmap.
    eapply Forall_forall in Hfresh; [|done]. simpl in Hfresh. lia.
  - apply Forall_app. split.
    + eapply Forall_impl; [done|]. intros d Hd. simpl in *. lia.
    + repeat constructor.
  - apply (NoDup_key_snoc event_id_of); [done|]. unfold event_id_of. simpl.
    intros (d & Hd & Hin)%list_elem_of_fmap.
    assert (d ∈ by_paddle_event_id (ca_paddleEventId args) db) as Hd'
      by (apply by_event_elem; done).
    rewrite Hnone in Hd'. by apply elem_of_nil in Hd'.
Qed.

Lemma check_wf now args db b db' :
  ledger_wf db → checkAndRecordEvent now args db = Ok (b, db') → ledger_wf db'.
Proof.
  intros Hwf. unfold checkAndRecordEvent.
  destruct (unique _) as [[ex|]|] eqn:Hu; [|intros [= <- <-]|done].
  - apply unique_Some in Hu.
    destruct (default _ _); [|by intros [= <- <-]..].
    case_match; intros [= <- <-]; [|done].
    apply wf_acquire; [by apply wf_delete|by apply by_event_delete_self].
  - apply unique_None in Hu. by apply wf_acquire.
Qed.

Lemma mark_wf now k st db db' :
  ledger_wf db → markEventProcessed now k st db = Ok db' → ledger_wf db'.
Proof.
  intros Hwf. unfold markEventProcessed.
  destruct (unique _) as [[ex|]|]; [|by intros [= <-]|done].
  intros [= <-]. by apply wf_patch.
Qed.

Lemma unreserve_wf k db db' :
  ledger_wf db → unreserveEvent k db = Ok db' → ledger_wf db'.
Proof.
  intros Hwf. unfold unreserveEvent.
  destruct (unique _) as [[ex|]|]; [|by intros [= <-]|done].
  case_decide; intros [= <-]; [by apply wf_delete|done].
Qed.

Lemma run_op_wf db op : ledger_wf db → ledger_wf (run_op db op).
Proof.
  intros Hwf. destruct op as [now args|now k st|k]; simpl.
  - destruct (checkAndRecordEvent _ _ _) as [[b db']|] eqn:H; [|done].
    by eapply check_wf.
  - destruct (markEventProcessed _ _ _ _) as [db'|] eqn:H; [|done].
    by eapply mark_wf.
  - destruct (unreserveEvent _ _) as [db'|] eqn:H; [|done].
    by eapply unreserve_wf.
Qed.

Lemma run_ops_wf ops db : ledger_wf db → ledger_wf (run_ops ops db).
Proof.
  unfold run_ops. revert db. induction ops as [|op ops IH]; intros db Hwf; [done|].
  simpl. by apply IH, run_op_wf.
Qed.

Lemma empty_wf : ledger_wf empty_db.
Proof. split; simpl; constructor. Qed.

(** Every ledger that the three operations build from the empty database
    satisfies the invariants. *)
Lemma reachable_wf ops : ledger_wf (run_ops ops empty_db).
Proof. apply run_ops_wf, empty_wf. Qed.

End Ledger.

Section Permanence.
Implicit Types (db : DB) (k : string) (d r ex : Doc WebhookEvent.t).

Lemma permanent_cases (s : option WebhookEvent.Status) :
  is_permanent s = true →
  s = Some WebhookEvent.processed ∨ s = Some WebhookEvent.processed_pending.
Proof. destruct s as [[]|]; simpl; auto; discriminate. Qed.

Lemma permanent_not_lock (s : option WebhookEvent.Status) :
  is_permanent s = true → s ≠ Some WebhookEvent.processing.
Proof. by intros [-> | ->]%permanent_cases. Qed.

(** A record that is not a lock answers "already done", whatever the time. *)
Lemma check_settled now args db r :
  by_paddle_event_id (ca_paddleEventId args) db = [r] →
  status_of r ≠ Some WebhookEvent.processing →
  checkAndRecordEvent now args db = Ok (true, db).
Proof.
  intros Hr Hp. unfold checkAndRecordEvent. rewrite Hr. simpl.
  unfold status_of in Hp. by destruct (WebhookEvent.status (fields r)) as [[]|].
Qed.

Lemma unreserve_settled k db r :
  by_paddle_event_id k db = [r] →
  status_of r ≠ Some WebhookEvent.processing →
  unreserveEvent k db = Ok db.
Proof.
  intros Hr Hp. unfold unreserveEvent. rewrite Hr. simpl. by rewrite decide_False.
Qed.

(** The record found by a lookup is in the table, under the key asked for. *)
Lemma unique_found k db ex :
  unique (by_paddle_event_id k db) = Ok (Some ex) →
  by_paddle_event_id k db = [ex] ∧ ex ∈ webhook_events db ∧ event_id_of ex = k.
Proof.
  intros Hu%unique_Some. split; [done|].
  assert (ex ∈ by_paddle_event_id k db) as [? ?]%by_event_elem; [|done].
  rewrite Hu. by left.
Qed.

(** Calls for another event leave the records of [k] as they are. *)
Lemma check_other k now args db b db' :
  ledger_wf db → ca_paddleEventId args ≠ k →
  checkAndRecordEvent now args db = Ok (b, db') →
  by_paddle_event_id k db' = by_paddle_event_id k db.
Proof.
  intros Hwf Hne. unfold checkAndRecordEvent.
  destruct (unique _) as [[ex|]|] eqn:Hu; [|intros [= <- <-]|done].
  - apply unique_found in Hu as (Hex & Hin & Hk).
    destruct (default _ _); [|by intros [= <- <-]..].
    case_match; intros [= <- <-]; [|done].
    rewrite by_event_acquire, decide_False, app_nil_r by done.
    apply by_event_delete_other; congruence.
  - by rewrite by_event_acquire, decide_False, app_nil_r.
Qed.

Lemma mark_other k now k' st db db' :
  ledger_wf db → k' ≠ k →
  markEventProcessed now k' st db = Ok db' →
  by_paddle_event_id k db' = by_paddle_event_id k db.
Proof.
  intros Hwf Hne. unfold markEventProcessed.
  destruct (unique _) as [[ex|]|] eqn:Hu; [|by intros [= <-]|done].
  apply unique_found in Hu as (Hex & Hin & Hk). intros [= <-].
  rewrite by_event_patch by done. apply tbl_patch_absent.
  eapply other_ids; [done..|congruence].
Qed.

Lemma unreserve_other k k' db db' :
  ledger_wf db → k' ≠ k →
  unreserveEvent k' db = Ok db' →
  by_paddle_event_id k db' = by_paddle_event_id k db.
Proof.
  intros Hwf Hne. unfold unreserveEvent.
  destruct (unique _) as [[ex|]|] eqn:Hu; [|by intros [= <-]|done].
  apply unique_found in Hu as (Hex & Hin & Hk).
  case_decide; intros [= <-]; [|done].
  apply by_event_delete_other; congruence.
Qed.

(** One call of any of the three operations, from a state where the record
    of [k] is not a lock. *)
Lemma settled_step k db r op :
  ledger_wf db →
  by_paddle_event_id k db = [r] →
  status_of r ≠ Some WebhookEvent.processing →
  ∃ r', by_paddle_event_id k (run_op db op) = [r']
        ∧ _id r' = _id r
        ∧ status_of r' ≠ Some WebhookEvent.processing
        ∧ (is_permanent (status_of r) = true → is_permanent (status_of r') = true)
        ∧ (marks k op = false → r' = r).
Proof.
  intros Hwf Hr Hp. destruct op as [now args|now k' st|k']; simpl.
  - destruct (decide (ca_paddleEventId args = k)) as [<-|Hne].
    + rewrite (check_settled _ _ _ r) by done. by exists r.
    + destruct (checkAndRecordEvent _ _ _) as [[b db']|] eqn:Hc; [|by exists r].
      exists r. by rewrite (check_other k _ _ _ _ _ Hwf Hne Hc).
  - destruct (decide (k' = k)) as [->|Hne].
    + unfold markEventProcessed. rewrite Hr. simpl.
      rewrite by_event_patch, Hr by done. simpl. rewrite decide_True by done.
      eexists. split; [done|]. unfold status_of. simpl.
      split_and!; [done|by destruct st as [[]|]|by destruct st as [[]|]|].
      by rewrite bool_decide_eq_false.
    + destruct (markEventProcessed _ _ _ _) as [db'|] eqn:Hc; [|by exists r].
      exists r. by rewrite (mark_other k _ _ _ _ _ Hwf Hne Hc).
  - destruct (decide (k' = k)) as [->|Hne].
    + rewrite (unreserve_settled _ _ r) by done. by exists r.
    + destruct (unreserveEvent _ _) as [db'|] eqn:Hc; [|by exists r].
      exists r. by rewrite (unreserve_other k _ _ _ Hwf Hne Hc).
Qed.

Lemma settled_run k ops : ∀ db r,
  ledger_wf db →
  by_paddle_event_id k db = [r] →
  status_of r ≠ Some WebhookEvent.processing →
  ∃ r', by_paddle_event_id k (run_ops ops db) = [r']
        ∧ _id r' = _id r
        ∧ status_of r' ≠ Some WebhookEvent.processing
        ∧ (is_permanent (status_of r) = true → is_permanent (status_of r') = true)
        ∧ (forallb (λ op, negb (marks k op)) ops = true → r' = r).
Proof.
  unfold run_ops. induction ops as [|op ops IH]; intros db r Hwf Hr Hp; simpl.
  - by exists r.
  - destruct (settled_step k db r op Hwf Hr Hp) as (r1 & Hr1 & Hid1 & Hp1 & Hperm1 & Hsame1).
    destruct (IH (run_op db op) r1 (run_op_wf _ _ Hwf) Hr1 Hp1)
      as (r2 & Hr2 & Hid2 & Hp2 & Hperm2 & Hsame2).
    exists r2. split_and!; [done|congruence|done|auto|].
    intros [Hm Hrest]%andb_true_iff. apply negb_true_iff in Hm.
    rewrite (Hsame2 Hrest). auto.
Qed.

End Permanence.

Section Refinement.
Implicit Types (db : DB) (k : string) (d r ex : Doc WebhookEvent.t)
  (t : list (Doc WebhookEvent.t)).

Lemma ledger_entries_keys t : (ledger_entries t).*1 = event_id_of <$> t.
Proof. unfold ledger_entries. by rewrite <- list_fmap_compose. Qed.

Lemma ledger_lookup k db :
  ledger_of db !! k = (record_of ∘ fields) <$> head (by_paddle_event_id k db).
Proof.
  unfold ledger_of, by_paddle_event_id.
  induction (webhook_events db) as [|a t IH]; [done|].
  csimpl. rewrite filter_cons. case_decide as Ha.
  - by rewrite Ha, lookup_insert_eq.
  - by rewrite lookup_insert_ne.
Qed.

Lemma ledger_acquire now args db :
  by_paddle_event_id (ca_paddleEventId args) db = [] →
  ledger_of (acquire_lock now args db)
  = <[ca_paddleEventId args := Spec.fresh now (ca_eventType args) (ca_occurredAt args)]>
      (ledger_of db).
Proof.
  intros Hnone. unfold ledger_of, acquire_lock, tbl_insert, ledger_entries. simpl.
  rewrite fmap_app. csimpl. apply list_to_map_snoc.
  rewrite <- list_fmap_compose. intros (d & Hd & Hin)%list_elem_of_fmap. simpl in Hd.
  assert (d ∈ by_paddle_event_id (ca_paddleEventId args) db) as Hd'
    by (by apply by_event_elem).
  rewrite Hnone in Hd'. by apply elem_of_nil in Hd'.
Qed.

Lemma ledger_entries_delete t ex :
  NoDup (_id <$> t) → NoDup (event_id_of <$> t) → ex ∈ t →
  list_to_map (ledger_entries (tbl_delete (_id ex) t))
  =@{gmap string Spec.LedgerRecord}
  delete (event_id_of ex) (list_to_map (ledger_entries t)).
Proof.
  induction t as [|a t IH]; [by intros _ _ ?%elem_of_nil|].
  csimpl. intros [Ha Hids]%NoDup_cons [Hka Hkeys]%NoDup_cons Hex.
  unfold tbl_delete. rewrite filter_cons. case_decide as Hid.
  - apply elem_of_cons in Hex as [->|Hex]; [done|].
    csimpl. fold (tbl_delete (_id ex) t). rewrite IH by done.
    rewrite delete_insert_ne; [done|].
    intros Heq. apply Hka. unfold event_id_of in *. rewrite <- Heq.
    by apply (list_elem_of_fmap_2 (λ d, WebhookEvent.paddleEventId (fields d))).
  - assert (a = ex) as ->.
    { apply elem_of_cons in Hex as [->|Hex]; [done|].
      exfalso. apply Ha. rewrite Hid. by apply list_elem_of_fmap_2. }
    fold (tbl_delete (_id ex) t). rewrite tbl_delete_absent.
    + fold (event_id_of ex). rewrite delete_insert_id; [done|].
      apply not_elem_of_list_to_map_1. by rewrite ledger_entries_keys.
    + intros d Hd Heq. apply Ha. rewrite <- Heq. by apply list_elem_of_fmap_2.
Qed.

Lemma ledger_delete db ex :
  ledger_wf db → ex ∈ webhook_events db →
  ledger_of (set_webhook_events (tbl_delete (_id ex)) db)
  = delete (event_id_of ex) (ledger_of db).
Proof. intros [Hids _ Hkeys] Hex. by apply ledger_entries_delete. Qed.

End Refinement.

(** * The entity mutations do not write to the ledger *)

Lemma bind_Ok {A B} (m : Result A) (k : A → Result B) b :
  m ≫= k = Ok b → ∃ a, m = Ok a ∧ k a = Ok b.
Proof. destruct m as [a|e]; simpl; [eauto|done]. Qed.

Lemma runMutation_Ok {A} fails (m : DB → Result A) db a :
  runMutation fails m db = Ok a → m db = Ok a.
Proof. unfold runMutation. by destruct fails. Qed.

Ltac ledger_frame :=
  intros; repeat case_match; simplify_eq; done.

Section Frame.
Implicit Types (db : DB).

Lemma handleCustomerCreated_ledger args db db' :
  handleCustomerCreated args db = Ok db' → webhook_events db' = webhook_events db.
Proof. unfold handleCustomerCreated. ledger_frame. Qed.

Lemma handleCustomerUpdated_ledger args db db' :
  handleCustomerUpdated args db = Ok db' → webhook_events db' = webhook_events db.
Proof. unfold handleCustomerUpdated. ledger_frame. Qed.

Lemma backfill_patch_ledger u o txn db db' :
  backfill_patch u o txn db = Ok db' → webhook_events db' = webhook_events db.
Proof. unfold backfill_patch. ledger_frame. Qed.

Lemma backfill_patches_ledger u o l : ∀ db db',
  backfill_patches u o l db = Ok db' → webhook_events db' = webhook_events db.
Proof.
  induction l as [|txn l IH]; simpl; intros db db' H; [by simplify_eq|].
  destruct (backfill_patch _ _ _ _) as [db1|] eqn:H1; [|done].
  rewrite (IH _ _ H). by eapply backfill_patch_ledger.
Qed.

Lemma backfill_step_ledger u o k db db' more :
  backfill_step u o k db = Ok (db', more) → webhook_events db' = webhook_events db.
Proof.
  unfold backfill_step. destruct (backfill_patches _ _ _ _) as [db1|] eqn:H1; [|done].
  intros [= <- _]. by eapply backfill_patches_ledger.
Qed.

Lemma backfill_loop_ledger u o k fuel : ∀ db db',
  backfill_loop fuel u o k db = Some (Ok db') → webhook_events db' = webhook_events db.
Proof.
  induction fuel as [|fuel IH]; simpl; intros db db' H; [done|].
  destruct (backfill_step _ _ _ _) as [[db1 more]|] eqn:H1; [|done].
  apply backfill_step_ledger in H1. destruct more.
  - rewrite (IH _ _ H). done.
  - by simplify_eq.
Qed.

Lemma handleSubscriptionCreated_ledger fuel args db db' :
  handleSubscriptionCreated fuel args db = Some (Ok db') →
  webhook_events db' = webhook_events db.
Proof.
  unfold handleSubscriptionCreated.
  destruct (unique _) as [existing|]; [|done].
  match goal with |- context [match ?i with Ok _ => _ | Throw _ => _ end] =>
    destruct i as [db1|] eqn:Hi end; [|done].
  assert (webhook_events db1 = webhook_events db) as <-.
  { revert Hi. ledger_frame. }
  clear Hi. destruct (_ || _); [apply backfill_loop_ledger|by intros [= <-]].
Qed.

Lemma handleSubscriptionUpdated_ledger args db db' :
  handleSubscriptionUpdated args db = Ok db' → webhook_events db' = webhook_events db.
Proof. unfold handleSubscriptionUpdated. ledger_frame. Qed.

Lemma patch_subscription_ledger k f db db' :
  patch_subscription k f db = Ok db' → webhook_events db' = webhook_events db.
Proof. unfold patch_subscription. ledger_frame. Qed.

Lemma handleTransactionCreated_ledger args db db' :
  handleTransactionCreated args db = Ok db' → webhook_events db' = webhook_events db.
Proof. unfold handleTransactionCreated, insert_transaction. ledger_frame. Qed.

Lemma handleTransactionUpdated_ledger args db db' :
  handleTransactionUpdated args db = Ok db' → webhook_events db' = webhook_events db.
Proof. unfold handleTransactionUpdated. ledger_frame. Qed.

Lemma handleTransactionCompleted_ledger args db db' :
  handleTransactionCompleted args db = Ok db' → webhook_events db' = webhook_events db.
Proof. unfold handleTransactionCompleted, insert_transaction. ledger_frame. Qed.

Lemma handleAdjustmentCreated_ledger args db db' :
  handleAdjustmentCreated args db = Ok db' → webhook_events db' = webhook_events db.
Proof. unfold handleAdjustmentCreated. ledger_frame. Qed.

Lemma handleAdjustmentUpdated_ledger k st total db db' :
  handleAdjustmentUpdated k st total db = Ok db' → webhook_events db' = webhook_events db.
Proof. unfold handleAdjustmentUpdated. ledger_frame. Qed.

Lemma processEvent_ledger fails limit event event_type db db' :
  processEvent fails limit event event_type db = Ok db' →
  webhook_events db' = webhook_events db.
Proof.
  unfold processEvent, string_or_undefined. intros H.
  destruct (event_case event_type) eqn:Hcase;
    repeat (apply bind_Ok in H as (? & _ & H));
    try (apply runMutation_Ok in H);
    eauto using handleCustomerCreated_ledger, handleCustomerUpdated_ledger,
      handleSubscriptionUpdated_ledger, patch_subscription_ledger,
      handleTransactionCreated_ledger, handleTransactionUpdated_ledger,
      handleTransactionCompleted_ledger, handleAdjustmentCreated_ledger,
      handleAdjustmentUpdated_ledger.
  - eapply handleSubscriptionCreated_ledger with (fuel := limit).
    unfold within_limit in H. by case_match; simplify_eq.
  - by simplify_eq.
Qed.

End Frame.

(** * Release of the lock *)

Section Release.
Implicit Types (db : DB) (k : string) (d r : Doc WebhookEvent.t).

(** What [unreserveEvent] does, by what the lookup finds. *)
Lemma unreserve_cases k db :
  match by_paddle_event_id k db with
  | [] => unreserveEvent k db = Ok db
  | [r] =>
      if decide (status_of r = Some WebhookEvent.processing)
      then unreserveEvent k db = Ok (set_webhook_events (tbl_delete (_id r)) db)
      else unreserveEvent k db = Ok db
  | _ :: _ :: _ => unreserveEvent k db = Throw NotUnique
  end.
Proof.
  unfold unreserveEvent, status_of.
  destruct (by_paddle_event_id k db) as [|r [|]]; simpl; try done.
  by case_decide.
Qed.

(** With distinct document ids, deleting by id removes that document only. *)
Lemma tbl_delete_elem db r d :
  ledger_wf db → r ∈ webhook_events db →
  d ∈ tbl_delete (_id r) (webhook_events db) ↔ d ∈ webhook_events db ∧ d ≠ r.
Proof.
  intros [Hids _ _] Hr. unfold tbl_delete. rewrite list_elem_of_filter.
  split; intros [H1 H2]; split; try done.
  - by intros ->.
  - intros Heq. apply H2. by eapply ids_inj.
Qed.

Lemma unreserve_lock k db r :
  ledger_wf db →
  by_paddle_event_id k db = [r] →
  status_of r = Some WebhookEvent.processing →
  ∃ db', unreserveEvent k db = Ok db'
         ∧ by_paddle_event_id k db' = []
         ∧ (∀ d, d ∈ webhook_events db' ↔ d ∈ webhook_events db ∧ d ≠ r)
         ∧ customers db' = customers db ∧ subscriptions db' = subscriptions db
         ∧ transactions db' = transactions db ∧ adjustments db' = adjustments db.
Proof.
  intros Hwf Hr Hst. pose proof (unreserve_cases k db) as H.
  rewrite Hr, decide_True in H by done.
  eexists. split; [done|]. split_and!; try done.
  - by apply by_event_delete_self.
  - intros d. simpl. apply tbl_delete_elem; [done|].
    assert (r ∈ by_paddle_event_id k db) as [_ ?]%by_event_elem; [|done].
    rewrite Hr. by left.
Qed.

(** The lock that an acquiring admission leaves behind. *)
Lemma check_acquired now args db db' :
  checkAndRecordEvent now args db = Ok (false, db') →
  by_paddle_event_id (ca_paddleEventId args) db'
  = [mkDoc (next_id db)
       (WebhookEvent.mk (ca_paddleEventId args) (ca_eventType args)
          (ca_occurredAt args) now (Some WebhookEvent.processing))].
Proof.
  unfold checkAndRecordEvent.
  destruct (unique _) as [[ex|]|] eqn:Hu; [|intros [= <-]|done].
  - apply unique_Some in Hu.
    destruct (default _ _); [|done..].
    case_match; intros [= <-].
    rewrite by_event_acquire, decide_True by done.
    by rewrite (by_event_delete_self _ _ _ Hu).
  - apply unique_None in Hu.
    by rewrite by_event_acquire, decide_True, Hu.
Qed.

End Release.

Section Dispatch.
Variable config : RegisterRoutesConfig.
Variable env : Env.
Implicit Types (db : DB) (k : string).

Lemma effects_ledger event args db calls db2 threw calls2 :
  hooks_keep_ledger config →
  effects config env event args db calls = (db2, threw, calls2) →
  webhook_events db2 = webhook_events db.
Proof.
  intros [HonEvent Hevents]. unfold effects.
  destruct (processEvent _ _ _ _ _) as [db1|] eqn:Hp; [|by intros [= <- _ _]].
  apply processEvent_ledger in Hp. rewrite <- Hp.
  destruct (onEvent config) as [h|] eqn:Hh.
  - specialize (HonEvent h eq_refl event db1).
    destruct (h event db1) as [db1' threw1]. simpl in HonEvent.
    destruct threw1; [by intros [= <- _ _]|].
    destruct (events config !! _) as [h'|] eqn:Hh'; [|by intros [= <- _ _]].
    specialize (Hevents _ h' Hh' event db1').
    destruct (h' event db1') as [db1'' threw2]. simpl in Hevents.
    intros [= <- _ _]. congruence.
  - destruct (events config !! _) as [h'|] eqn:Hh'; [|by intros [= <- _ _]].
    specialize (Hevents _ h' Hh' event db1).
    destruct (h' event db1) as [db1'' threw2]. simpl in Hevents.
    by intros [= <- _ _].
Qed.

Lemma by_event_same k db db' :
  webhook_events db' = webhook_events db →
  by_paddle_event_id k db' = by_paddle_event_id k db.
Proof. unfold by_paddle_event_id. by intros ->. Qed.

(** A dispatch that throws with the lock held. *)
Lemma failed_dispatch now args db0 db event calls db2 calls2 :
  hooks_keep_ledger config →
  checkAndRecordEvent now args db0 = Ok (false, db) →
  effects config env event args db calls = (db2, true, calls2) →
  ∃ db3,
    dispatch config env event args db calls
    = (mkResponse 500 (Text "Error processing webhook"), db3,
       calls2 ++ [CallUnreserveEvent])
    ∧ (if unreserve_fails env then db3 = db2
       else unreserveEvent (ca_paddleEventId args) db2 = Ok db3
            ∧ by_paddle_event_id (ca_paddleEventId args) db3 = [])
    ∧ (∀ r, r ∈ by_paddle_event_id (ca_paddleEventId args) db3 →
            status_of r = Some WebhookEvent.processing).
Proof.
  intros Hhooks Hcheck Heff.
  pose proof (effects_ledger _ _ _ _ _ _ _ Hhooks Heff) as Hsame.
  apply check_acquired in Hcheck.
  rewrite <- (by_event_same _ _ _ Hsame) in Hcheck.
  unfold dispatch. rewrite Heff. unfold release, runMutation.
  destruct (unreserve_fails env).
  - eexists. split_and!; [done..|].
    intros r. rewrite Hcheck. by intros ->%list_elem_of_singleton.
  - pose proof (unreserve_cases (ca_paddleEventId args) db2) as H.
    rewrite Hcheck in H. rewrite decide_True in H by done. rewrite H.
    eexists. split_and!; [done|done| |].
    + by apply by_event_delete_self.
    + intros r. rewrite (by_event_delete_self _ _ _ Hcheck). by intros ?%elem_of_nil.
Qed.

(** The calls of the processing block are the three of the block. *)
Lemma effects_calls event args db calls db2 threw calls2 :
  effects config env event args db calls = (db2, threw, calls2) →
  ∀ c, c ∈ calls2 →
       c ∈ calls ∨ c = CallProcessEvent ∨ c = CallOnEvent ∨ c = CallCustomHandler.
Proof.
  unfold effects. intros H c.
  repeat case_match; simplify_eq;
    rewrite ?elem_of_app, ?list_elem_of_singleton; tauto.
Qed.

End Dispatch.

Section Processing.
Variable hmac_sha256 : string → string → option (list Byte.byte).
Variable JSON_parse : string → option Value.
Variable config : RegisterRoutesConfig.
Variable env : Env.

Lemma lock_acquired_dispatch req db0 event args db :
  lock_acquired hmac_sha256 JSON_parse config env req db0 event args db →
  handler hmac_sha256 JSON_parse config env req db0
  = dispatch config env event args db [CallCheckAndRecordEvent].
Proof.
  intros (Hsecret & Hsig & Hvalid & Hparse & o & Ho & Hcheck).
  unfold handler. by rewrite Hsecret, Hsig, Hvalid, Hparse, Ho, Hcheck.
Qed.

Lemma lock_acquired_check req db0 event args db :
  lock_acquired hmac_sha256 JSON_parse config env req db0 event args db →
  checkAndRecordEvent (now_check env) args db0 = Ok (false, db).
Proof.
  intros (_ & _ & _ & _ & o & _ & Hcheck).
  apply runMutation_Ok in Hcheck. unfold admission in Hcheck.
  apply bind_Ok in Hcheck as (args' & _ & Hcheck).
  apply bind_Ok in Hcheck as ([b db'] & Hc & Hret).
  unfold mret, Result_ret in Hret. by simplify_eq.
Qed.

(** A request whose processing block throws with the lock held. *)
Lemma failed_processing req db0 event args db db2 calls2 :
  lock_acquired hmac_sha256 JSON_parse config env req db0 event args db →
  hooks_keep_ledger config →
  effects config env event args db [CallCheckAndRecordEvent] = (db2, true, calls2) →
  ∃ db3,
    handler hmac_sha256 JSON_parse config env req db0
    = (mkResponse 500 (Text "Error processing webhook"), db3,
       calls2 ++ [CallUnreserveEvent])
    ∧ (∀ status, CallMarkEventProcessed status ∉ calls2 ++ [CallUnreserveEvent])
    ∧ (if unreserve_fails env then db3 = db2
       else unreserveEvent (ca_paddleEventId args) db2 = Ok db3
            ∧ by_paddle_event_id (ca_paddleEventId args) db3 = [])
    ∧ (∀ r, r ∈ by_paddle_event_id (ca_paddleEventId args) db3 →
            status_of r = Some WebhookEvent.processing).
Proof.
  intros Hlock Hhooks Heff.
  destruct (failed_dispatch config env _ _ _ _ _ _ _ _ Hhooks
              (lock_acquired_check _ _ _ _ _ Hlock) Heff) as (db3 & Hd & Hrel & Hst).
  exists db3. rewrite (lock_acquired_dispatch _ _ _ _ _ Hlock).
  split_and!; [done| |done..].
  intros status [Hin|Hin%list_elem_of_singleton]%elem_of_app; [|done].
  apply (effects_calls _ _ _ _ _ _ _ _ _ Heff) in Hin
    as [Hin%list_elem_of_singleton|[?|[?|?]]]; done.
Qed.

(** What the route does when the processing block throws with the lock
    held, whatever the handlers of the caller did. *)
Lemma failed_response req db0 event args db db2 calls2 :
  lock_acquired hmac_sha256 JSON_parse config env req db0 event args db →
  effects config env event args db [CallCheckAndRecordEvent] = (db2, true, calls2) →
  handler hmac_sha256 JSON_parse config env req db0
  = release env (ca_paddleEventId args) db2 calls2
  ∧ (∀ status, CallMarkEventProcessed status ∉ calls2 ++ [CallUnreserveEvent]).
Proof.
  intros Hlock Heff. split.
  - rewrite (lock_acquired_dispatch _ _ _ _ _ Hlock). unfold dispatch. by rewrite Heff.
  - intros status [Hin|Hin%list_elem_of_singleton]%elem_of_app; [|done].
    apply (effects_calls _ _ _ _ _ _ _ _ _ Heff) in Hin
      as [Hin%list_elem_of_singleton|[?|[?|?]]]; done.
Qed.

End Processing.

(** * Signature verification *)

Section SignatureFacts.

Lemma charCode_inj x y : charCode x = charCode y → x = y.
Proof.
  unfold charCode. intros H%N2Z.inj.
  by rewrite <- (ascii_N_embedding x), <- (ascii_N_embedding y), H.
Qed.

Lemma compare_loop_zero a : ∀ b result,
  String.length a = String.length b →
  compare_loop a b result = 0 ↔ result = 0 ∧ a = b.
Proof.
  induction a as [|x a IH]; intros [|y b] result Hlen; simpl in *; try done.
  - tauto.
  - rewrite IH by congruence. rewrite Z.lor_eq_0_iff, Z.lxor_eq_0_iff.
    split.
    + intros [[-> ->%charCode_inj] ->]. done.
    + intros [-> [= -> ->]]. done.
Qed.

Lemma constant_time_equal_spec computedHash h1 :
  constant_time_equal computedHash h1 = true ↔ computedHash = h1.
Proof.
  unfold constant_time_equal.
  destruct (Nat.eqb _ _) eqn:Hlen; simpl.
  - apply Nat.eqb_eq in Hlen. rewrite Z.eqb_eq, compare_loop_zero by done. tauto.
  - apply Nat.eqb_neq in Hlen. split; [done|]. intros ->. done.
Qed.

Lemma is_empty_spec s : is_empty s = false ↔ s ≠ "".
Proof. unfold is_empty. by rewrite String.eqb_neq. Qed.

Lemma byte_hex_lower b :
  forallb is_lower_hex (list_ascii_of_string (byte_hex b)) = true.
Proof. by destruct b. Qed.

Lemma hex_encode_cons b bytes :
  hex_encode (b :: bytes)
  = String (hex_digit (Byte.to_N b / 16)) (String (hex_digit (Byte.to_N b mod 16))
      (hex_encode bytes)).
Proof. reflexivity. Qed.

Lemma hex_encode_lower bytes :
  forallb is_lower_hex (list_ascii_of_string (hex_encode bytes)) = true
  ∧ String.length (hex_encode bytes) = (2 * length bytes)%nat.
Proof.
  induction bytes as [|b bytes [IH1 IH2]]; [done|].
  rewrite hex_encode_cons. simpl. rewrite IH1, IH2. split; [|lia].
  pose proof (byte_hex_lower b) as Hb. simpl in Hb.
  by rewrite !andb_true_r in *.
Qed.

End SignatureFacts.

Section SignatureSpec.
Variable hmac_sha256 : string → string → option (list Byte.byte).

(** When the verifier answers [true], every check of the source has passed. *)
Lemma verify_true_inv now rawBody secret signatureHeader :
  verifyPaddleWebhookSignature hmac_sha256 now rawBody secret signatureHeader = true →
  ∃ ts h1 tsSeconds signatureBytes,
    header_field "ts" signatureHeader = Some ts
    ∧ header_field "h1" signatureHeader = Some h1
    ∧ ts ≠ "" ∧ h1 ≠ ""
    ∧ parseInt ts = Some tsSeconds
    ∧ Z.abs (now / 1000 - tsSeconds) ≤ 300
    ∧ hmac_sha256 secret (ts +:+ ":" +:+ rawBody) = Some signatureBytes
    ∧ h1 = hex_encode signatureBytes.
Proof.
  unfold verifyPaddleWebhookSignature, WEBHOOK_MAX_AGE_SECONDS.
  destruct (header_field "ts" _) as [ts|]; [|done].
  destruct (header_field "h1" _) as [h1|]; [|done].
  destruct (is_empty ts) eqn:Hts; [done|].
  destruct (is_empty h1) eqn:Hh1; [done|]. simpl.
  destruct (parseInt ts) as [tsSeconds|] eqn:Hparse; [|done].
  destruct (Z.gtb_spec (Z.abs (now / 1000 - tsSeconds)) 300) as [Hage|Hage]; [done|].
  destruct (hmac_sha256 _ _) as [signatureBytes|] eqn:Hmac; [|done].
  intros Heq%constant_time_equal_spec.
  exists ts, h1, tsSeconds, signatureBytes.
  apply is_empty_spec in Hts, Hh1. by split_and!.
Qed.

(** The verifier answers [true] exactly when every check of the source
    passes. *)
Lemma verify_true_iff now rawBody secret signatureHeader :
  verifyPaddleWebhookSignature hmac_sha256 now rawBody secret signatureHeader = true
  ↔ ∃ ts h1 tsSeconds signatureBytes,
      header_field "ts" signatureHeader = Some ts
      ∧ header_field "h1" signatureHeader = Some h1
      ∧ ts ≠ "" ∧ h1 ≠ ""
      ∧ parseInt ts = Some tsSeconds
      ∧ Z.abs (now / 1000 - tsSeconds) ≤ 300
      ∧ hmac_sha256 secret (ts +:+ ":" +:+ rawBody) = Some signatureBytes
      ∧ h1 = hex_encode signatureBytes.
Proof.
  split.
  - apply verify_true_inv.
  - intros (ts & h1 & tsSeconds & signatureBytes
            & Hts & Hh1 & Hts_given & Hh1_given & Hparse & Hage & Hmac & ->).
    unfold verifyPaddleWebhookSignature, WEBHOOK_MAX_AGE_SECONDS.
    rewrite Hts, Hh1, Hparse, Hmac.
    apply is_empty_spec in Hts_given, Hh1_given. rewrite Hts_given, Hh1_given. simpl.
    destruct (Z.gtb_spec (Z.abs (now / 1000 - tsSeconds)) 300) as [Hlate|_]; [lia|].
    by apply constant_time_equal_spec.
Qed.

End SignatureSpec.

Lemma ledger_with_wf processedAt status : ledger_wf (ledger_with processedAt status).
Proof. split; simpl; repeat constructor; set_solver. Qed.

(** C1 (permanence). When the ledger record of an event id is [processed] or
    [processed_pending]: [checkAndRecordEvent] for that id returns [true]
    (already done) at every time [now] and leaves the database as it is;
    [unreserveEvent] for that id leaves the database as it is; after any
    sequence of calls of the three ledger operations, for any event ids and
    at any times, [checkAndRecordEvent] still returns [true]; and as long as
    [markEventProcessed] is not called for that id the record stays the very
    same document. *)
Theorem permanence k db r :
  ledger_wf db →
  by_paddle_event_id k db = [r] →
  is_permanent (status_of r) = true →
  (∀ now args, ca_paddleEventId args = k →
     checkAndRecordEvent now args db = Ok (true, db))
  ∧ unreserveEvent k db = Ok db
  ∧ (∀ ops now args, ca_paddleEventId args = k →
       checkAndRecordEvent now args (run_ops ops db) = Ok (true, run_ops ops db))
  ∧ (∀ ops, forallb (λ op, negb (marks k op)) ops = true →
       by_paddle_event_id k (run_ops ops db) = [r]).
Proof.
  intros Hwf Hr Hp. pose proof (permanent_not_lock _ Hp) as Hs. split_and!.
  - intros now args <-. by eapply check_settled.
  - by eapply unreserve_settled.
  - intros ops now args <-.
    destruct (settled_run _ ops db r Hwf Hr Hs) as (r' & Hr' & _ & Hs' & _).
    by eapply check_settled.
  - intros ops Hops.
    destruct (settled_run _ ops db r Hwf Hr Hs) as (r' & Hr' & _ & _ & _ & Hsame).
    by rewrite Hr', (Hsame Hops).
Qed.

Lemma permanence_witness :
  checkAndRecordEvent 86400000 evt_1_args
    (run_ops [OpUnreserveEvent "evt_1"; OpCheckAndRecordEvent 700000 evt_1_args]
       (ledger_with 1000 (Some WebhookEvent.processed)))
  = Ok (true, ledger_with 1000 (Some WebhookEvent.processed)).
Proof.
  apply (permanence "evt_1" (ledger_with 1000 (Some WebhookEvent.processed))
           (evt_1 1000 (Some WebhookEvent.processed))
           (ledger_with_wf _ _) eq_refl eq_refl).
  reflexivity.
Defined.

(** C2 (admission). On a ledger with at most one record per event id,
    [checkAndRecordEvent] returns, and what it returns and what it writes is
    what the four steps of the specification give on the ledger read as a
    store keyed by event id: absent, insert a [processing] record stamped
    [now] and acquire; [processed] or [processed_pending], already done;
    [processing] and [now - lock_timestamp <= LOCK_TTL], already done;
    otherwise delete, insert afresh and acquire. [LOCK_TTL] is ten minutes.
    The invariants of the ledger hold again afterwards. *)
Theorem admission_refines_spec now args db :
  ledger_wf db →
  ∃ alreadyProcessed db',
    checkAndRecordEvent now args db = Ok (alreadyProcessed, db')
    ∧ Spec.admission now (ca_paddleEventId args) (ca_eventType args) (ca_occurredAt args)
        (ledger_of db)
      = (admission_of alreadyProcessed, ledger_of db')
    ∧ ledger_wf db'.
Proof.
  intros Hwf. unfold Spec.admission. rewrite ledger_lookup.
  pose proof (by_event_short (ca_paddleEventId args) db Hwf) as Hlen.
  destruct (by_paddle_event_id _ db) as [|ex [|]] eqn:Hl; simpl in Hlen; [| |lia].
  - eexists false, _. unfold checkAndRecordEvent. rewrite Hl. simpl.
    split_and!; [done| |by apply wf_acquire].
    by rewrite ledger_acquire.
  - assert (ex ∈ webhook_events db ∧ event_id_of ex = ca_paddleEventId args) as [Hin Hk].
    { assert (ex ∈ by_paddle_event_id (ca_paddleEventId args) db) as [? ?]%by_event_elem;
        [rewrite Hl; by left|done]. }
    unfold checkAndRecordEvent. rewrite Hl. simpl.
    destruct (default _ _) eqn:Hst; simpl.
    + unfold LOCK_TTL_MS, Spec.LOCK_TTL.
      destruct (_ >? _) eqn:Hage.
      * rewrite (proj2 (Z.leb_gt _ _)) by lia.
        eexists false, _. split_and!; [done| |].
        -- rewrite ledger_acquire by (by apply by_event_delete_self).
           by rewrite ledger_delete, Hk.
        -- apply wf_acquire; [by apply wf_delete|by apply by_event_delete_self].
      * rewrite (proj2 (Z.leb_le _ _)) by lia. by eexists true, _.
    + by eexists true, _.
    + by eexists true, _.
Qed.

Lemma admission_refines_spec_witness :
  ∃ alreadyProcessed db',
    checkAndRecordEvent 700000 evt_1_args (ledger_with 1000 (Some WebhookEvent.processing))
    = Ok (alreadyProcessed, db')
    ∧ Spec.admission 700000 "evt_1" "subscription.created" "2024-01-01T00:00:00Z"
        (ledger_of (ledger_with 1000 (Some WebhookEvent.processing)))
      = (admission_of alreadyProcessed, ledger_of db')
    ∧ ledger_wf db'.
Proof.
  exact (admission_refines_spec 700000 evt_1_args
           (ledger_with 1000 (Some WebhookEvent.processing)) (ledger_with_wf _ _)).
Defined.

(** C3, as stated, fails: [markEventProcessed] patches whatever record it
    finds. Called with no [status] on a [processed_pending] record it writes
    [processed] (and a new [processedAt]). *)
Lemma permanent_status_rewritten :
  status_of <$> by_paddle_event_id "evt_1"
                  (ledger_with 1000 (Some WebhookEvent.processed_pending))
  = [Some WebhookEvent.processed_pending]
  ∧ status_of <$> by_paddle_event_id "evt_1"
                    (run_ops [OpMarkEventProcessed 2000 "evt_1" None]
                       (ledger_with 1000 (Some WebhookEvent.processed_pending)))
    = [Some WebhookEvent.processed].
Proof. split; reflexivity. Qed.

(** C3 (amended). A record that is [processed] or [processed_pending] is
    never deleted and never re-locked by the three ledger operations: after
    any sequence of calls there is still exactly one record of that event id,
    it is the same document, and its status is [processed] or
    [processed_pending]. As long as [markEventProcessed] is not called for
    that event id the record is unchanged, status included. *)
Theorem permanent_stays_permanent k db r ops :
  ledger_wf db →
  by_paddle_event_id k db = [r] →
  is_permanent (status_of r) = true →
  ∃ r', by_paddle_event_id k (run_ops ops db) = [r']
        ∧ _id r' = _id r
        ∧ is_permanent (status_of r') = true
        ∧ (forallb (λ op, negb (marks k op)) ops = true → r' = r).
Proof.
  intros Hwf Hr Hp.
  destruct (settled_run k ops db r Hwf Hr (permanent_not_lock _ Hp))
    as (r' & Hr' & Hid & _ & Hperm & Hsame).
  exists r'. auto.
Qed.

Lemma permanent_stays_permanent_witness :
  ∃ r', by_paddle_event_id "evt_1"
          (run_ops [OpCheckAndRecordEvent 700000 evt_1_args;
                    OpMarkEventProcessed 800000 "evt_1" None;
                    OpUnreserveEvent "evt_1"]
             (ledger_with 1000 (Some WebhookEvent.processed_pending))) = [r']
        ∧ _id r' = 0%nat
        ∧ is_permanent (status_of r') = true
        ∧ (false = true → r' = evt_1 1000 (Some WebhookEvent.processed_pending)).
Proof.
  exact (permanent_stays_permanent "evt_1"
           (ledger_with 1000 (Some WebhookEvent.processed_pending))
           (evt_1 1000 (Some WebhookEvent.processed_pending))
           [OpCheckAndRecordEvent 700000 evt_1_args;
            OpMarkEventProcessed 800000 "evt_1" None;
            OpUnreserveEvent "evt_1"]
           (ledger_with_wf _ _) eq_refl eq_refl).
Defined.

(** C9 (records without status). A record stored without [status] is
    treated as processed for good: [checkAndRecordEvent] for its event id
    returns [true] at every time [now] and leaves the database as it is,
    [unreserveEvent] leaves the database as it is, and after any sequence of
    calls of the ledger operations that does not call [markEventProcessed]
    for that id the record is still the same document. *)
Theorem absent_status_is_permanent k db r :
  ledger_wf db →
  by_paddle_event_id k db = [r] →
  status_of r = None →
  (∀ now args, ca_paddleEventId args = k →
     checkAndRecordEvent now args db = Ok (true, db))
  ∧ unreserveEvent k db = Ok db
  ∧ (∀ ops, forallb (λ op, negb (marks k op)) ops = true →
       by_paddle_event_id k (run_ops ops db) = [r]
       ∧ ∀ now args, ca_paddleEventId args = k →
           checkAndRecordEvent now args (run_ops ops db) = Ok (true, run_ops ops db)).
Proof.
  intros Hwf Hr Hst.
  assert (status_of r ≠ Some WebhookEvent.processing) as Hs by (by rewrite Hst).
  split_and!.
  - intros now args <-. by eapply check_settled.
  - by eapply unreserve_settled.
  - intros ops Hops.
    destruct (settled_run _ ops db r Hwf Hr Hs) as (r' & Hr' & _ & Hs' & _ & Hsame).
    split; [by rewrite Hr', (Hsame Hops)|].
    intros now args <-. by eapply check_settled.
Qed.

Lemma absent_status_is_permanent_witness :
  checkAndRecordEvent 86400000 evt_1_args (ledger_with 1000 None)
  = Ok (true, ledger_with 1000 None).
Proof.
  apply (absent_status_is_permanent "evt_1" (ledger_with 1000 None) (evt_1 1000 None)
           (ledger_with_wf _ _) eq_refl eq_refl).
  reflexivity.
Defined.

Section RouteFacts.
Variable hmac_sha256 : string → string → option (list Byte.byte).
Variable JSON_parse : string → option Value.

(** Each way of failing authentication makes the verifier answer [false]. *)
Lemma unauthenticated_rejected now secret body h :
  unauthenticated hmac_sha256 now secret body (Some h) →
  verifyPaddleWebhookSignature hmac_sha256 now body secret h = false.
Proof.
  intros Hbad. apply not_true_is_false. intros Hok.
  destruct (verify_true_inv hmac_sha256 now body secret h Hok)
    as (ts & h1 & tsSeconds & signatureBytes
        & Hts & Hh1 & _ & _ & Hparse & Hage & Hmac & Hdigest).
  inversion Hbad; simplify_eq; [lia|congruence].
Qed.

(** C7 (amended). A request with no signature header, with a timestamp
    more than 300 seconds from now, with a digest computed over another
    payload, or with any header the verifier turns down, is answered
    without a single call to the component: the database is unchanged,
    [checkAndRecordEvent] is not invoked. The status is 400 when a webhook
    secret is configured, and 500 when none is. *)
Theorem authentication_precedes_admission config env req db :
  let webhookSecret :=
    or_else (PADDLE_WEBHOOK_SECRET config) (env_PADDLE_WEBHOOK_SECRET env) in
  unauthenticated hmac_sha256 (now_verify env) (default "" webhookSecret)
    (req_text req) (paddle_signature req) →
  ∃ message,
    handler hmac_sha256 JSON_parse config env req db
    = (mkResponse (if truthy_str webhookSecret then 400 else 500) (Text message), db, []).
Proof.
  intros webhookSecret Hbad. unfold handler. fold webhookSecret.
  destruct (truthy_str webhookSecret); simpl; [|by eexists].
  destruct (paddle_signature req) as [h|] eqn:Hsig; simpl; [|by eexists].
  destruct (negb (String.eqb h "")); simpl; [|by eexists].
  rewrite (unauthenticated_rejected _ _ _ _ Hbad). simpl. by eexists.
Qed.

End RouteFacts.

Lemma authentication_precedes_admission_witness :
  ∃ message,
    handler sample_hmac sample_parse config_with_secret (quiet_env 1700000400000)
      signed_request empty_db
    = (mkResponse 400 (Text message), empty_db, []).
Proof.
  apply (authentication_precedes_admission sample_hmac sample_parse config_with_secret
           (quiet_env 1700000400000) signed_request empty_db).
  apply (signature_stale _ _ _ _ _ "1700000000" 1700000000); [reflexivity..|].
  vm_compute. reflexivity.
Defined.

(** C7, as stated, fails: with no webhook secret configured the handler
    answers 500, not 400, to a request without a signature header. *)
Lemma unsigned_request_without_secret :
  paddle_signature unsigned_request = None
  ∧ handler sample_hmac sample_parse config_without_secret (quiet_env 1700000000000)
      unsigned_request empty_db
    = (mkResponse 500 (Text "Webhook secret not configured"), empty_db, []).
Proof. split; reflexivity. Qed.

(** C6 (failure rollback). [unreserveEvent] deletes the record of the event
    id when the lookup finds one record and its status is [processing]; it
    leaves the database as it is when the record has another status or none,
    and when there is no record. The deletion removes that document only.
    When the processing block of a request throws with the lock held, the
    handler calls [unreserveEvent] last, on the database that the block
    left, never calls [markEventProcessed] itself, and answers 500, whatever
    the handlers of the caller do. When these handlers do not write to the
    ledger, the record of the event is gone afterwards, or, when the release
    failed, still [processing]: it is not left [processed]. *)
Theorem failure_rollback :
  (∀ k db,
     match by_paddle_event_id k db with
     | [] => unreserveEvent k db = Ok db
     | [r] =>
         if decide (status_of r = Some WebhookEvent.processing)
         then unreserveEvent k db = Ok (set_webhook_events (tbl_delete (_id r)) db)
         else unreserveEvent k db = Ok db
     | _ :: _ :: _ => unreserveEvent k db = Throw NotUnique
     end)
  ∧ (∀ k db r,
       ledger_wf db →
       by_paddle_event_id k db = [r] →
       status_of r = Some WebhookEvent.processing →
       ∃ db', unreserveEvent k db = Ok db'
              ∧ by_paddle_event_id k db' = []
              ∧ (∀ d, d ∈ webhook_events db' ↔ d ∈ webhook_events db ∧ d ≠ r)
              ∧ customers db' = customers db ∧ subscriptions db' = subscriptions db
              ∧ transactions db' = transactions db ∧ adjustments db' = adjustments db)
  ∧ (∀ hmac_sha256 JSON_parse config env req db0 event args db db2 calls2,
       lock_acquired hmac_sha256 JSON_parse config env req db0 event args db →
       effects config env event args db [CallCheckAndRecordEvent] = (db2, true, calls2) →
       ∃ db3,
         handler hmac_sha256 JSON_parse config env req db0
         = (mkResponse 500 (Text "Error processing webhook"), db3,
            calls2 ++ [CallUnreserveEvent])
         ∧ (∀ status, CallMarkEventProcessed status ∉ calls2 ++ [CallUnreserveEvent])
         ∧ db3 = match runMutation (unreserve_fails env)
                         (unreserveEvent (ca_paddleEventId args)) db2 with
                 | Ok db' => db'
                 | Throw _ => db2
                 end
         ∧ (hooks_keep_ledger config →
            (if unreserve_fails env then db3 = db2
             else unreserveEvent (ca_paddleEventId args) db2 = Ok db3
                  ∧ by_paddle_event_id (ca_paddleEventId args) db3 = [])
            ∧ (∀ r, r ∈ by_paddle_event_id (ca_paddleEventId args) db3 →
                    status_of r = Some WebhookEvent.processing))).
Proof.
  split_and!.
  - apply unreserve_cases.
  - apply unreserve_lock.
  - intros hmac_sha256 JSON_parse config env req db0 event args db db2 calls2 Hlock Heff.
    destruct (failed_response _ _ _ _ _ _ _ _ _ _ _ Hlock Heff) as [Hhandler Hcalls].
    eexists. split_and!; [exact Hhandler|exact Hcalls|reflexivity|].
    intros Hhooks.
    destruct (failed_processing _ _ _ _ _ _ _ _ _ _ _ Hlock Hhooks Heff)
      as (db3 & Hd & _ & Hrel & Hst).
    rewrite Hhandler in Hd. injection Hd as Hd. by rewrite Hd.
Qed.

Lemma config_with_secret_hooks : hooks_keep_ledger config_with_secret.
Proof.
  split; [done|]. simpl. intros ty h [<- <-]%lookup_singleton_Some. done.
Qed.

Lemma signed_request_lock_acquired :
  lock_acquired sample_hmac sample_parse config_with_secret (quiet_env 1700000100000)
    signed_request empty_db evt_3 evt_3_args
    (acquire_lock 1700000100000 evt_3_args empty_db).
Proof. unfold lock_acquired. split_and!; [reflexivity..|]. by eexists. Qed.

Lemma failure_rollback_witness :
  ∃ db3,
    handler sample_hmac sample_parse config_with_secret (quiet_env 1700000100000)
      signed_request empty_db
    = (mkResponse 500 (Text "Error processing webhook"), db3,
       [CallCheckAndRecordEvent; CallProcessEvent; CallCustomHandler; CallUnreserveEvent])
    ∧ by_paddle_event_id "evt_3" db3 = [].
Proof.
  destruct (proj2 (proj2 failure_rollback) sample_hmac sample_parse config_with_secret
              (quiet_env 1700000100000) signed_request empty_db evt_3 evt_3_args
              (acquire_lock 1700000100000 evt_3_args empty_db)
              (acquire_lock 1700000100000 evt_3_args empty_db)
              [CallCheckAndRecordEvent; CallProcessEvent; CallCustomHandler]
              signed_request_lock_acquired eq_refl)
    as (db3 & Hd & _ & _ & Hledger).
  destruct (Hledger config_with_secret_hooks) as [[_ Hgone] _].
  exists db3. split; [exact Hd|exact Hgone].
Defined.

(** C6, as stated, fails: a handler of the caller receives the context and
    can run the exported [markEventProcessed]. When it does so and then
    throws, the route calls [unreserveEvent] and answers 500, and the record
    of the event is left [processed]. *)
Lemma marking_hook_leaves_processed :
  observe (handler sample_hmac sample_parse config_with_marking_hook
             (quiet_env 1700000100000) signed_request empty_db)
  = (mkResponse 500 (Text "Error processing webhook"),
     [Some WebhookEvent.processed], [],
     [CallCheckAndRecordEvent; CallProcessEvent; CallCustomHandler; CallUnreserveEvent]).
Proof. reflexivity. Qed.

(** * The backfill loop *)

Section Backfill.

(** A turn that changes nothing and asks for another one repeats for ever. *)
Lemma backfill_loop_stuck userId orgId k db fuel :
  backfill_step userId orgId k db = Ok (db, true) →
  backfill_loop fuel userId orgId k db = None.
Proof.
  intros Hstep. induction fuel as [|fuel IH]; [done|].
  cbn [backfill_loop]. by rewrite Hstep.
Qed.

Lemma sub_1_created_enters_loop fuel :
  handleSubscriptionCreated fuel sub_1_created early_transactions_db
  = backfill_loop fuel (Some (VString "user_1")) None "sub_1" early_transactions_db_1.
Proof. vm_compute. reflexivity. Qed.

Lemma sub_1_first_turn :
  backfill_step (Some (VString "user_1")) None "sub_1" early_transactions_db_1
  = Ok (early_transactions_db_2, true).
Proof. vm_compute. reflexivity. Qed.

Lemma sub_1_next_turn :
  backfill_step (Some (VString "user_1")) None "sub_1" early_transactions_db_2
  = Ok (early_transactions_db_2, true).
Proof. vm_compute. reflexivity. Qed.

(** C5 fails on the code: [subscription.created] with a user id and no
    organisation id, for a subscription that already has one hundred
    transactions without linkage identifiers. The first turn fills in the
    user id of the hundred rows; every later turn fetches the same hundred
    rows, finds them all in need of an organisation id, patches nothing,
    and goes on. Whatever the number of turns allowed, the loop is still
    running. *)
Theorem backfill_never_stops fuel :
  handleSubscriptionCreated fuel sub_1_created early_transactions_db = None.
Proof.
  rewrite sub_1_created_enters_loop. destruct fuel as [|fuel]; [done|].
  cbn [backfill_loop]. rewrite sub_1_first_turn.
  apply backfill_loop_stuck, sub_1_next_turn.
Qed.

End Backfill.

(** * When the backfill loop stops *)

Section BackfillStops.
Variables su so : string.
Hypothesis su_given : su ≠ "".
Hypothesis so_given : so ≠ "".
Implicit Types (db : DB) (d txn : Doc Transaction.t) (l : list (Doc Transaction.t)).

Lemma truthy_given :
  truthy (Some (VString su)) = true ∧ truthy (Some (VString so)) = true.
Proof. simpl. by rewrite !(proj2 (String.eqb_neq _ _)). Qed.

Lemma truthy_str_given : truthy_str (Some su) = true ∧ truthy_str (Some so) = true.
Proof. simpl. by rewrite !(proj2 (String.eqb_neq _ _)). Qed.

Lemma linked_iff d :
  linked d ↔ truthy_str (Transaction.userId (fields d)) = true
             ∧ truthy_str (Transaction.orgId (fields d)) = true.
Proof.
  unfold linked, needs_linkage.
  destruct (truthy_str (Transaction.userId _)), (truthy_str (Transaction.orgId _));
    simpl; split; try done; by intros [? ?].
Qed.

(** With both identifiers given, a patch does not throw. *)
Lemma backfill_patch_both txn db :
  ∃ db', backfill_patch (Some (VString su)) (Some (VString so)) txn db = Ok db'
         ∧ transactions db' = fill_linkage su so txn <$> transactions db.
Proof.
  destruct truthy_given as [Hu Ho].
  unfold backfill_patch, backfill_field. rewrite Hu, Ho. simpl.
  destruct (truthy_str (Transaction.userId (fields txn))) eqn:Eu,
           (truthy_str (Transaction.orgId (fields txn))) eqn:Eo; simpl;
    (eexists; split; [done|]); simpl;
    unfold tbl_patch, fill_linkage, backfill_row; by rewrite Hu, Ho, Eu, Eo.
Qed.

Lemma backfill_patches_both l : ∀ db,
  ∃ db', backfill_patches (Some (VString su)) (Some (VString so)) l db = Ok db'
         ∧ transactions db' = fill_all su so l <$> transactions db.
Proof.
  induction l as [|txn l IH]; intros db; simpl.
  - exists db. split; [done|]. by rewrite list_fmap_id.
  - destruct (backfill_patch_both txn db) as (db1 & -> & H1).
    destruct (IH db1) as (db2 & -> & H2).
    exists db2. split; [done|]. rewrite H2, H1. by rewrite <- list_fmap_compose.
Qed.

(** A patch keeps the document id and the subscription id, and never
    empties a linkage identifier. *)
Lemma fill_linkage_id txn d : _id (fill_linkage su so txn d) = _id d.
Proof. unfold fill_linkage. by case_decide. Qed.

Lemma fill_linkage_subscription txn d :
  Transaction.paddleSubscriptionId (fields (fill_linkage su so txn d))
  = Transaction.paddleSubscriptionId (fields d).
Proof. unfold fill_linkage. by case_decide. Qed.

Lemma fill_linkage_user txn d :
  truthy_str (Transaction.userId (fields d)) = true →
  truthy_str (Transaction.userId (fields (fill_linkage su so txn d))) = true.
Proof.
  destruct truthy_given as [Hu _], truthy_str_given as [Hsu _].
  unfold fill_linkage, backfill_row. rewrite Hu. case_decide; [|done]. simpl.
  by destruct (truthy_str (Transaction.userId (fields txn))).
Qed.

Lemma fill_linkage_org txn d :
  truthy_str (Transaction.orgId (fields d)) = true →
  truthy_str (Transaction.orgId (fields (fill_linkage su so txn d))) = true.
Proof.
  destruct truthy_given as [_ Ho], truthy_str_given as [_ Hso].
  unfold fill_linkage, backfill_row. rewrite Ho. case_decide; [|done]. simpl.
  by destruct (truthy_str (Transaction.orgId (fields txn))).
Qed.

(** The patch computed from [txn] links every document with the id of [txn]
    that has at least the identifiers [txn] has. *)
Lemma fill_linkage_links txn d :
  _id d = _id txn →
  (truthy_str (Transaction.userId (fields txn)) = true →
   truthy_str (Transaction.userId (fields d)) = true) →
  (truthy_str (Transaction.orgId (fields txn)) = true →
   truthy_str (Transaction.orgId (fields d)) = true) →
  linked (fill_linkage su so txn d).
Proof.
  destruct truthy_given as [Hu Ho], truthy_str_given as [Hsu Hso].
  intros Hid Huser Horg. apply linked_iff.
  unfold fill_linkage, backfill_row. rewrite Hu, Ho, decide_True by done. simpl.
  destruct (truthy_str (Transaction.userId (fields txn))),
           (truthy_str (Transaction.orgId (fields txn))); simpl; auto.
Qed.

Lemma fill_all_id l : ∀ d, _id (fill_all su so l d) = _id d.
Proof.
  unfold fill_all. induction l as [|txn l IH]; intros d; [done|].
  simpl. by rewrite IH, fill_linkage_id.
Qed.

Lemma fill_all_subscription l : ∀ d,
  Transaction.paddleSubscriptionId (fields (fill_all su so l d))
  = Transaction.paddleSubscriptionId (fields d).
Proof.
  unfold fill_all. induction l as [|txn l IH]; intros d; [done|].
  simpl. by rewrite IH, fill_linkage_subscription.
Qed.

Lemma fill_all_user l : ∀ d,
  truthy_str (Transaction.userId (fields d)) = true →
  truthy_str (Transaction.userId (fields (fill_all su so l d))) = true.
Proof.
  unfold fill_all. induction l as [|txn l IH]; intros d H; [done|].
  simpl. by apply IH, fill_linkage_user.
Qed.

Lemma fill_all_org l : ∀ d,
  truthy_str (Transaction.orgId (fields d)) = true →
  truthy_str (Transaction.orgId (fields (fill_all su so l d))) = true.
Proof.
  unfold fill_all. induction l as [|txn l IH]; intros d H; [done|].
  simpl. by apply IH, fill_linkage_org.
Qed.

Lemma fill_all_linked l d : linked d → linked (fill_all su so l d).
Proof.
  rewrite !linked_iff. intros [? ?]. split; [by apply fill_all_user|by apply fill_all_org].
Qed.

(** Every fetched document among those to update is linked after the turn. *)
Lemma fill_all_links l : ∀ d0 d,
  d0 ∈ l →
  _id d = _id d0 →
  (truthy_str (Transaction.userId (fields d0)) = true →
   truthy_str (Transaction.userId (fields d)) = true) →
  (truthy_str (Transaction.orgId (fields d0)) = true →
   truthy_str (Transaction.orgId (fields d)) = true) →
  linked (fill_all su so l d).
Proof.
  induction l as [|txn l IH]; intros d0 d Hin Hid Huser Horg;
    [by apply elem_of_nil in Hin|].
  change (fill_all su so (txn :: l) d) with (fill_all su so l (fill_linkage su so txn d)).
  apply elem_of_cons in Hin as [->|Hin].
  - by apply fill_all_linked, fill_linkage_links.
  - apply (IH d0); [done|by rewrite fill_linkage_id|..].
    + intros H. by apply fill_linkage_user, Huser.
    + intros H. by apply fill_linkage_org, Horg.
Qed.

End BackfillStops.

Section StopRule.
Implicit Types (db : DB) (d txn : Doc Transaction.t) (l : list (Doc Transaction.t)).

Lemma filter_fmap_comm {A} (P : A → Prop) `{!∀ x, Decision (P x)} (f : A → A) (l : list A) :
  (∀ x, P (f x) ↔ P x) → filter P (f <$> l) = f <$> filter P l.
Proof.
  intros Hf. induction l as [|a l IH]; [done|]. csimpl.
  rewrite !filter_cons. destruct (decide (P a)) as [Ha|Ha].
  - rewrite decide_True by (by apply Hf). csimpl. by rewrite IH.
  - rewrite decide_False by (by rewrite Hf). done.
Qed.

Lemma filter_none {A} (P : A → Prop) `{!∀ x, Decision (P x)} (l : list A) :
  Forall (λ x, ¬ P x) l → filter P l = [].
Proof.
  induction 1 as [|a l Ha _ IH]; [done|]. by rewrite filter_cons_False.
Qed.

(** The rule by which a turn of the loop asks for another one: the page is
    full and some row of it lacks a linkage identifier. *)
Lemma backfill_step_more userId orgId k db db' more :
  backfill_step userId orgId k db = Ok (db', more) →
  more = true
  ↔ (BATCH_SIZE ≤ length (transactions_by_paddle_subscription_id k db))%nat
    ∧ ∃ txn, txn ∈ take BATCH_SIZE (transactions_by_paddle_subscription_id k db)
             ∧ needs_linkage txn = true.
Proof.
  unfold backfill_step. destruct (backfill_patches _ _ _ _) as [db1|]; [|done].
  intros [= _ <-]. rewrite andb_true_iff, Nat.eqb_eq, Nat.ltb_lt, length_take.
  split; intros [Hlen Hneed]; (split; [lia|]).
  - destruct (filter _ _) as [|txn rest] eqn:Hf; [simpl in Hneed; lia|].
    exists txn.
    assert (txn ∈ filter (λ txn, needs_linkage txn = true)
                    (take BATCH_SIZE (transactions_by_paddle_subscription_id k db)))
      as [? ?]%list_elem_of_filter by (rewrite Hf; by left).
    done.
  - destruct Hneed as (txn & Hin & Hn).
    assert (txn ∈ filter (λ txn, needs_linkage txn = true)
                    (take BATCH_SIZE (transactions_by_paddle_subscription_id k db))) as H
      by (by apply list_elem_of_filter).
    destruct (filter _ _); [by apply elem_of_nil in H|simpl; lia].
Qed.

(** A turn that does not ask for another one ends the loop. *)
Lemma backfill_loop_last userId orgId k db db' fuel :
  backfill_step userId orgId k db = Ok (db', false) →
  backfill_loop (S fuel) userId orgId k db = Some (Ok db').
Proof. intros H. simpl. by rewrite H. Qed.

(** X20 (a short page ends the loop). When the subscription has fewer than
    100 transactions, the backfill loop returns after one turn, whatever
    the identifiers given. *)
Lemma backfill_short_page userId orgId k db fuel :
  (length (transactions_by_paddle_subscription_id k db) < BATCH_SIZE)%nat →
  ∃ r, backfill_loop (S fuel) userId orgId k db = Some r.
Proof.
  intros Hshort. simpl.
  destruct (backfill_step _ _ _ _) as [[db' more]|e] eqn:Hstep; [|by eexists].
  destruct more; [|by eexists].
  destruct (proj1 (backfill_step_more _ _ _ _ _ _ Hstep) eq_refl) as [? _]. lia.
Qed.

End StopRule.

Section BothGiven.
Variables su so : string.
Hypothesis su_given : su ≠ "".
Hypothesis so_given : so ≠ "".
Implicit Types (db : DB) (d txn : Doc Transaction.t) (l : list (Doc Transaction.t)).

(** One turn with both identifiers given: every row of the page is linked
    afterwards, and the page is the same rows. *)
Lemma backfill_step_both k db :
  ∃ db' more,
    backfill_step (Some (VString su)) (Some (VString so)) k db = Ok (db', more)
    ∧ Forall linked (take BATCH_SIZE (transactions_by_paddle_subscription_id k db')).
Proof.
  unfold backfill_step.
  set (batch := take BATCH_SIZE (transactions_by_paddle_subscription_id k db)).
  set (toUpdate := filter (λ txn, needs_linkage txn = true) batch).
  destruct (backfill_patches_both su so su_given so_given toUpdate db) as (db' & -> & Hrows).
  eexists _, _. split; [done|].
  unfold transactions_by_paddle_subscription_id. rewrite Hrows.
  rewrite (filter_fmap_comm (λ d, Transaction.paddleSubscriptionId (fields d) = Some k))
    by (intros d; by rewrite fill_all_subscription).
  rewrite <- fmap_take. fold (transactions_by_paddle_subscription_id k db). fold batch.
  apply Forall_fmap, Forall_forall. intros d Hd. simpl.
  destruct (needs_linkage d) eqn:Hneed.
  - apply (fill_all_links su so su_given so_given toUpdate d d); [|done..].
    by apply (list_elem_of_filter (λ txn, needs_linkage txn = true)).
  - by apply fill_all_linked.
Qed.

(** A turn over a page of linked rows writes nothing and is the last. *)
Lemma backfill_step_linked userId orgId k db :
  Forall linked (take BATCH_SIZE (transactions_by_paddle_subscription_id k db)) →
  backfill_step userId orgId k db = Ok (db, false).
Proof.
  intros Hlinked. unfold backfill_step.
  rewrite (filter_none (λ txn, needs_linkage txn = true)); [simpl; by rewrite andb_false_r|].
  eapply Forall_impl; [done|]. intros d Hd. unfold linked in Hd. by rewrite Hd.
Qed.

(** X19 (with both identifiers the loop ends). With a user id and an
    organisation id both given as non-empty strings, the backfill loop
    returns within two turns, on every database. *)
Theorem backfill_stops_with_both k db :
  ∃ db', backfill_loop 2 (Some (VString su)) (Some (VString so)) k db = Some (Ok db').
Proof.
  destruct (backfill_step_both k db) as (db' & more & Hstep & Hlinked).
  cbn [backfill_loop]. rewrite Hstep. destruct more; [|by eexists].
  rewrite (backfill_step_linked _ _ _ _ Hlinked). by eexists.
Qed.

End BothGiven.

(** * Linkage identifiers of an inserted transaction *)

Section Linkage.
Implicit Types (db : DB) (customData : Value).






End Linkage.


(** * Subscription updates *)

Section SubscriptionUpdate.
Implicit Types (db : DB).

Lemma subscriptions_patch k i (f : Subscription.t → Subscription.t) db :
  (∀ x, Subscription.paddleSubscriptionId (f x) = Subscription.paddleSubscriptionId x) →
  subscriptions_by_paddle_subscription_id k (set_subscriptions (tbl_patch i f) db)
  = tbl_patch i f (subscriptions_by_paddle_subscription_id k db).
Proof.
  intros Hf. unfold subscriptions_by_paddle_subscription_id. simpl.
  apply (tbl_patch_filter (λ d, Subscription.paddleSubscriptionId (fields d) = k)).
  intros d. simpl. by rewrite Hf.
Qed.

(** C10 (fields written by a subscription update). When
    [handleSubscriptionUpdated] finds the subscription row, the call fails
    as a whole if [userId] or [orgId] of the custom data is present and not
    a string; otherwise the row is patched in place: [priceId],
    [customData], [userId] and [orgId] keep their stored value when the
    argument (for the last two, the property of the custom data) is absent,
    while [quantity], [scheduledChange], [currentBillingPeriodStart],
    [currentBillingPeriodEnd], [nextBilledAt], [pausedAt] and [canceledAt]
    always take the value of the argument, so an absent argument clears the
    stored field. *)
Theorem subscription_update_frame args db r :
  subscriptions_by_paddle_subscription_id
    (SubscriptionUpdatedArgs.paddleSubscriptionId args) db = [r] →
  let customData := or_empty (SubscriptionUpdatedArgs.customData args) in
  let userId := prop "userId" customData in
  let orgId := prop "orgId" customData in
  match optional_string userId, optional_string orgId with
  | Ok u, Ok o =>
      ∃ db' row,
        handleSubscriptionUpdated args db = Ok db'
        ∧ subscriptions_by_paddle_subscription_id
            (SubscriptionUpdatedArgs.paddleSubscriptionId args) db' = [mkDoc (_id r) row]
        ∧ (SubscriptionUpdatedArgs.priceId args = None →
             Subscription.priceId row = Subscription.priceId (fields r))
        ∧ (SubscriptionUpdatedArgs.customData args = None →
             Subscription.customData row = Subscription.customData (fields r)
             ∧ Subscription.userId row = Subscription.userId (fields r)
             ∧ Subscription.orgId row = Subscription.orgId (fields r))
        ∧ (userId = None → Subscription.userId row = Subscription.userId (fields r))
        ∧ (orgId = None → Subscription.orgId row = Subscription.orgId (fields r))
        ∧ Subscription.quantity row = SubscriptionUpdatedArgs.quantity args
        ∧ Subscription.scheduledChange row = SubscriptionUpdatedArgs.scheduledChange args
        ∧ Subscription.currentBillingPeriodStart row
          = SubscriptionUpdatedArgs.currentBillingPeriodStart args
        ∧ Subscription.currentBillingPeriodEnd row
          = SubscriptionUpdatedArgs.currentBillingPeriodEnd args
        ∧ Subscription.nextBilledAt row = SubscriptionUpdatedArgs.nextBilledAt args
        ∧ Subscription.pausedAt row = SubscriptionUpdatedArgs.pausedAt args
        ∧ Subscription.canceledAt row = SubscriptionUpdatedArgs.canceledAt args
  | _, _ => handleSubscriptionUpdated args db = Throw ValidationError
  end.
Proof.
  intros Hr customData userId orgId. unfold handleSubscriptionUpdated.
  rewrite Hr. simpl. fold customData. fold userId. fold orgId.
  destruct (optional_string userId) as [u|e] eqn:Hu.
  2:{ destruct userId as [[]|]; simplify_eq/=; by destruct (optional_string orgId). }
  destruct (optional_string orgId) as [o|e] eqn:Ho.
  2:{ by destruct orgId as [[]|]; simplify_eq/=. }
  eexists _, _. split; [done|]. split.
  { rewrite subscriptions_patch, Hr by done. simpl. by rewrite decide_True. }
  simpl. split_and!; try done.
  - by intros ->.
  - intros Hcd. subst userId orgId customData. rewrite Hcd. by simpl.
  - by intros ->.
  - by intros ->.
Qed.

End SubscriptionUpdate.

Lemma subscription_update_frame_witness :
  ∃ db' row,
    handleSubscriptionUpdated sub_1_updated sub_1_db = Ok db'
    ∧ subscriptions_by_paddle_subscription_id "sub_1" db' = [mkDoc 0%nat row]
    ∧ Subscription.priceId row = "pri_1"
    ∧ Subscription.userId row = Some "user_1"
    ∧ Subscription.quantity row = None
    ∧ Subscription.scheduledChange row = None
    ∧ Subscription.nextBilledAt row = None.
Proof.
  destruct (subscription_update_frame sub_1_updated sub_1_db sub_1 eq_refl)
    as (db' & row & Hok & Hrow & Hprice & Hcustom & _ & _ & Hq & Hs & _ & _ & Hn & _).
  exists db', row.
  split_and!; [exact Hok|exact Hrow|exact (Hprice eq_refl)
              |exact (proj1 (proj2 (Hcustom eq_refl)))|exact Hq|exact Hs|exact Hn].
Defined.

(** * The scenarios of the specification (section 8) *)

(** [subscription.paused] for a subscription that is not stored: 200, the
    ledger row is [processed], no subscription row is created. *)
Example scenario_unknown_subscription :
  observe (handler sample_hmac sample_parse config_plain (quiet_env 1700000100000)
             signed_request empty_db)
  = (mkResponse 200 (Received false), [Some WebhookEvent.processed], [],
     [CallCheckAndRecordEvent; CallProcessEvent; CallMarkEventProcessed None]).
Proof. reflexivity. Qed.

(** The same event delivered again: 200 with [duplicate], ledger unchanged. *)
Example scenario_redelivery :
  observe (handler sample_hmac sample_parse config_plain (quiet_env 1700000200000)
             signed_request
             (handler sample_hmac sample_parse config_plain (quiet_env 1700000100000)
                signed_request empty_db).1.2)
  = (mkResponse 200 (Received true), [Some WebhookEvent.processed], [],
     [CallCheckAndRecordEvent]).
Proof. reflexivity. Qed.

(** A custom handler that throws: 500, and no ledger row afterwards. *)
Example scenario_handler_throws :
  observe (handler sample_hmac sample_parse config_with_secret (quiet_env 1700000100000)
             signed_request empty_db)
  = (mkResponse 500 (Text "Error processing webhook"), [], [],
     [CallCheckAndRecordEvent; CallProcessEvent; CallCustomHandler; CallUnreserveEvent]).
Proof. reflexivity. Qed.

(** A signature timestamp 400 seconds in the past: 400, no ledger row. *)
Example scenario_stale_signature :
  observe (handler sample_hmac sample_parse config_plain (quiet_env 1700000400000)
             signed_request empty_db)
  = (mkResponse 400 (Text "Webhook signature verification failed"), [], [], []).
Proof. reflexivity. Qed.

(** The first promotion fails: the fallback writes [processed_pending], 200. *)
Example scenario_finalize_fallback :
  observe (handler sample_hmac sample_parse config_plain (failing_mark_env 1700000100000)
             signed_request empty_db)
  = (mkResponse 200 (Received false), [Some WebhookEvent.processed_pending], [],
     [CallCheckAndRecordEvent; CallProcessEvent; CallMarkEventProcessed None;
      CallMarkEventProcessed (Some final_processed_pending)]).
Proof. reflexivity. Qed.

(** A lock older than ten minutes is taken over, a younger one is not. *)
Example stale_lock_recovery :
  checkAndRecordEvent 601001 evt_1_args (ledger_with 1000 (Some WebhookEvent.processing))
  = Ok (false, mkDB [] [] [] []
                 [mkDoc 1%nat
                    (WebhookEvent.mk "evt_1" "subscription.created" "2024-01-01T00:00:00Z"
                       601001 (Some WebhookEvent.processing))] 2%nat)
  ∧ checkAndRecordEvent 601000 evt_1_args (ledger_with 1000 (Some WebhookEvent.processing))
    = Ok (true, ledger_with 1000 (Some WebhookEvent.processing)).
Proof. split; reflexivity. Qed.

(** * Further properties of the ledger operations *)

Section LedgerMore.
Implicit Types (db : DB) (k : string) (d r ex : Doc WebhookEvent.t).

Lemma filter_ext_in {A} (P Q : A → Prop) `{!∀ x, Decision (P x)} `{!∀ x, Decision (Q x)}
    (l : list A) :
  (∀ x, x ∈ l → P x ↔ Q x) → filter P l = filter Q l.
Proof.
  induction l as [|a l IH]; intros Hall; [done|].
  rewrite !filter_cons.
  assert (P a ↔ Q a) as Ha by (apply Hall; left).
  rewrite IH by (intros x Hx; apply Hall; by right).
  destruct (decide (P a)), (decide (Q a)); tauto.
Qed.

(** An admission that answers "already done" writes nothing. *)
Lemma check_true_same now args db db' :
  checkAndRecordEvent now args db = Ok (true, db') → db' = db.
Proof.
  unfold checkAndRecordEvent. repeat case_match; intros; simplify_eq; done.
Qed.

(** What [markEventProcessed] does to the record it finds. *)
Lemma mark_found now k st db r :
  by_paddle_event_id k db = [r] →
  ∃ db', markEventProcessed now k st db = Ok db'
         ∧ by_paddle_event_id k db'
           = [mkDoc (_id r)
                (WebhookEvent.mk (WebhookEvent.paddleEventId (fields r))
                   (WebhookEvent.eventType (fields r)) (WebhookEvent.occurredAt (fields r))
                   now (Some (final_status (default final_processed st))))]
         ∧ customers db' = customers db ∧ subscriptions db' = subscriptions db
         ∧ transactions db' = transactions db ∧ adjustments db' = adjustments db
         ∧ next_id db' = next_id db.
Proof.
  intros Hr. unfold markEventProcessed. rewrite Hr. simpl.
  eexists. split; [done|]. split_and!; try done.
  rewrite by_event_patch, Hr by done. simpl. by rewrite decide_True.
Qed.

(** X1 (a promoted lock is final). When [checkAndRecordEvent] has acquired
    the lock of an event, [markEventProcessed] for that event returns and
    leaves exactly one record of the event: the document just inserted, with
    the event type and time of occurrence of the admission, the time of the
    promotion and the requested status ([processed] by default). From then
    on [checkAndRecordEvent] answers [true] for the event at every time, and
    writes nothing. *)
Theorem promoted_lock_is_final now args db db1 now' st :
  checkAndRecordEvent now args db = Ok (false, db1) →
  ∃ db2 r,
    markEventProcessed now' (ca_paddleEventId args) st db1 = Ok db2
    ∧ by_paddle_event_id (ca_paddleEventId args) db2 = [r]
    ∧ _id r = next_id db
    ∧ fields r = WebhookEvent.mk (ca_paddleEventId args) (ca_eventType args)
                   (ca_occurredAt args) now'
                   (Some (final_status (default final_processed st)))
    ∧ ∀ now'' args', ca_paddleEventId args' = ca_paddleEventId args →
        checkAndRecordEvent now'' args' db2 = Ok (true, db2).
Proof.
  intros Hlock%check_acquired.
  destruct (mark_found now' _ st _ _ Hlock) as (db2 & Hmark & Hr & _).
  eexists db2, _. split_and!; [done|done|done|done|].
  intros now'' args' Hk. eapply check_settled; [by rewrite Hk|].
  unfold status_of. simpl. by destruct st as [[]|].
Qed.

Lemma promoted_lock_is_final_witness :
  ∃ db2 r,
    markEventProcessed 2000 "evt_1" None (acquire_lock 1000 evt_1_args empty_db) = Ok db2
    ∧ by_paddle_event_id "evt_1" db2 = [r]
    ∧ _id r = 0%nat
    ∧ fields r = WebhookEvent.mk "evt_1" "subscription.created" "2024-01-01T00:00:00Z" 2000
                   (Some WebhookEvent.processed)
    ∧ ∀ now'' args', ca_paddleEventId args' = "evt_1" →
        checkAndRecordEvent now'' args' db2 = Ok (true, db2).
Proof.
  apply (promoted_lock_is_final 1000 evt_1_args empty_db
           (acquire_lock 1000 evt_1_args empty_db) 2000 None).
  reflexivity.
Defined.

Lemma filter_other_absent k (t : list (Doc WebhookEvent.t)) :
  filter (λ d, WebhookEvent.paddleEventId (fields d) = k) t = [] →
  filter (λ d, event_id_of d ≠ k) t = t.
Proof.
  induction t as [|a t IH]; [done|]. rewrite !filter_cons.
  unfold event_id_of at 1. case_decide as Ha; [done|].
  intros H. rewrite decide_True by done. f_equal. auto.
Qed.

(** X2 (a released lock leaves no trace). On a well-formed ledger, when
    [checkAndRecordEvent] has acquired the lock of an event (a new lock, or
    one taken over from a stale lock), [unreserveEvent] for that event
    returns and leaves no record of the event: the ledger is the one before
    the admission without the records of this event, the entity tables are
    untouched, and the next admission of the event acquires the lock
    again. *)
Theorem released_lock_leaves_no_trace now args db db1 :
  ledger_wf db →
  checkAndRecordEvent now args db = Ok (false, db1) →
  ∃ db2,
    unreserveEvent (ca_paddleEventId args) db1 = Ok db2
    ∧ webhook_events db2
      = filter (λ d, event_id_of d ≠ ca_paddleEventId args) (webhook_events db)
    ∧ customers db2 = customers db ∧ subscriptions db2 = subscriptions db
    ∧ transactions db2 = transactions db ∧ adjustments db2 = adjustments db
    ∧ ∀ now' args', ca_paddleEventId args' = ca_paddleEventId args →
        ∃ db3, checkAndRecordEvent now' args' db2 = Ok (false, db3).
Proof.
  intros Hwf Hcheck.
  pose proof (check_acquired _ _ _ _ Hcheck) as Hlock.
  pose proof (unreserve_cases (ca_paddleEventId args) db1) as Hun.
  rewrite Hlock, decide_True in Hun by done. simpl in Hun.
  eexists. split; [done|].
  assert (∀ t : list (Doc WebhookEvent.t),
            Forall (λ d, (_id d < next_id db)%nat) t →
            tbl_delete (next_id db) t = t) as Hfresh.
  { intros t Ht. apply tbl_delete_absent. intros d Hd.
    eapply Forall_forall in Ht; [|done]. lia. }
  assert (∀ x : WebhookEvent.t,
            tbl_delete (next_id db) [mkDoc (next_id db) x] = []) as Hself.
  { intros x. unfold tbl_delete. by rewrite filter_cons_False by (simpl; tauto). }
  revert Hcheck. unfold checkAndRecordEvent.
  destruct (unique _) as [[ex|]|] eqn:Hu; [|intros [= <-]|done].
  - apply unique_found in Hu as (Hex & Hin & Hk).
    destruct (default _ _); [|done..].
    case_match; intros [= <-]. simpl.
    assert (tbl_delete (next_id db)
              (tbl_insert (next_id db)
                 (WebhookEvent.mk (ca_paddleEventId args) (ca_eventType args)
                    (ca_occurredAt args) now (Some WebhookEvent.processing))
                 (tbl_delete (_id ex) (webhook_events db)))
            = filter (λ d, event_id_of d ≠ ca_paddleEventId args) (webhook_events db))
      as Hev.
    { unfold tbl_insert. unfold tbl_delete at 1. rewrite filter_app.
      fold (tbl_delete (next_id db) (tbl_delete (_id ex) (webhook_events db))).
      fold (tbl_delete (next_id db)
              [mkDoc (next_id db)
                 (WebhookEvent.mk (ca_paddleEventId args) (ca_eventType args)
                    (ca_occurredAt args) now (Some WebhookEvent.processing))]).
      rewrite Hself, app_nil_r.
      rewrite Hfresh.
      - unfold tbl_delete. apply filter_ext_in. intros d Hd. split.
        + intros Hid Hkd. apply Hid. f_equal.
          assert (d ∈ by_paddle_event_id (ca_paddleEventId args) db) as Hd'
            by (by apply by_event_elem).
          rewrite Hex in Hd'. by apply list_elem_of_singleton in Hd'.
        + intros Hkd Hid. apply Hkd.
          destruct Hwf as [Hids _ _].
          by rewrite (ids_inj _ _ _ Hids Hd Hin Hid).
      - destruct Hwf as [_ Hf _]. unfold tbl_delete.
        apply Forall_forall. intros d [_ Hd]%list_elem_of_filter.
        by eapply Forall_forall in Hf. }
    split_and!; try done.
    intros now' args' Hk'. unfold checkAndRecordEvent. rewrite Hk'.
    unfold by_paddle_event_id at 1. simpl. rewrite Hev.
    rewrite list_filter_filter, filter_none; [by eexists|].
    apply Forall_forall. intros d _. unfold event_id_of. tauto.
  - apply unique_None in Hu. simpl.
    assert (tbl_delete (next_id db)
              (tbl_insert (next_id db)
                 (WebhookEvent.mk (ca_paddleEventId args) (ca_eventType args)
                    (ca_occurredAt args) now (Some WebhookEvent.processing))
                 (webhook_events db))
            = filter (λ d, event_id_of d ≠ ca_paddleEventId args) (webhook_events db))
      as Hev.
    { unfold tbl_insert. unfold tbl_delete at 1. rewrite filter_app.
      fold (tbl_delete (next_id db) (webhook_events db)).
      fold (tbl_delete (next_id db)
              [mkDoc (next_id db)
                 (WebhookEvent.mk (ca_paddleEventId args) (ca_eventType args)
                    (ca_occurredAt args) now (Some WebhookEvent.processing))]).
      rewrite Hself, app_nil_r, Hfresh by (by destruct Hwf).
      symmetry. by apply filter_other_absent. }
    split_and!; try done.
    intros now' args' Hk'. unfold checkAndRecordEvent. rewrite Hk'.
    unfold by_paddle_event_id at 1. simpl. rewrite Hev.
    rewrite list_filter_filter, filter_none; [by eexists|].
    apply Forall_forall. intros d _. unfold event_id_of. tauto.
Qed.

(** X3 (the ledger operations return). On every ledger built from the empty
    database by calls of the three ledger operations, the invariants hold
    (distinct document ids, at most one record per event id) and each of the
    three operations returns: its lookup by event id never finds more than
    one record. *)
Theorem ledger_operations_return ops :
  ledger_wf (run_ops ops empty_db)
  ∧ (∀ now args, ∃ b db', checkAndRecordEvent now args (run_ops ops empty_db) = Ok (b, db'))
  ∧ (∀ now k st, ∃ db', markEventProcessed now k st (run_ops ops empty_db) = Ok db')
  ∧ (∀ k, ∃ db', unreserveEvent k (run_ops ops empty_db) = Ok db').
Proof.
  pose proof (run_ops_wf ops _ empty_wf) as Hwf.
  split_and!; [done|..].
  - intros now args. unfold checkAndRecordEvent. rewrite by_event_unique by done.
    repeat case_match; eauto.
  - intros now k st. unfold markEventProcessed. rewrite by_event_unique by done.
    repeat case_match; eauto.
  - intros k. unfold unreserveEvent. rewrite by_event_unique by done.
    repeat case_match; eauto.
Qed.

Lemma by_event_cases k db :
  ledger_wf db →
  by_paddle_event_id k db = [] ∨ ∃ r, by_paddle_event_id k db = [r].
Proof.
  intros Hwf%(by_event_short k).
  destruct (by_paddle_event_id k db) as [|r [|]]; simpl in *; eauto; lia.
Qed.

(** X4 ([markEventProcessed] over the store keyed by event id). On a
    well-formed ledger [markEventProcessed] returns; in the store keyed by
    event id it alters the record of the event, when there is one, to the
    requested status ([processed] by default) and the current time, keeping
    its event type and time of occurrence; it creates no record and touches
    no record of another event. The invariants hold afterwards. *)
Theorem mark_refines now k st db :
  ledger_wf db →
  ∃ db',
    markEventProcessed now k st db = Ok db'
    ∧ ledger_of db'
      = alter (λ x, Spec.mkRecord (Spec.event_type x) (Spec.occurred_at x)
                      (final_status (default final_processed st)) now)
          k (ledger_of db)
    ∧ ledger_wf db'.
Proof.
  intros Hwf.
  assert (∃ db', markEventProcessed now k st db = Ok db') as [db' Hm].
  { unfold markEventProcessed. rewrite by_event_unique by done. repeat case_match; eauto. }
  exists db'. split; [done|]. split; [|by eapply mark_wf].
  apply map_eq. intros k'. rewrite ledger_lookup.
  destruct (decide (k' = k)) as [->|Hne].
  - rewrite lookup_alter_eq, ledger_lookup.
    destruct (by_event_cases k db Hwf) as [Hnone|[r Hr]].
    + revert Hm. unfold markEventProcessed. rewrite Hnone. simpl. intros [= <-].
      by rewrite Hnone.
    + destruct (mark_found now k st db r Hr) as (db1 & Hm1 & Hr1 & _).
      rewrite Hm in Hm1. injection Hm1 as <-. by rewrite Hr1, Hr.
  - rewrite lookup_alter_ne, ledger_lookup by done.
    by rewrite (mark_other k' _ _ _ _ _ Hwf (not_eq_sym Hne) Hm).
Qed.

(** X5 ([unreserveEvent] over the store keyed by event id). On a
    well-formed ledger [unreserveEvent] returns; in the store keyed by event
    id it deletes the record of the event when that record is a lock
    ([processing]), and otherwise leaves the store as it is. The invariants
    hold afterwards. *)
Theorem unreserve_refines k db :
  ledger_wf db →
  ∃ db',
    unreserveEvent k db = Ok db'
    ∧ ledger_of db'
      = match ledger_of db !! k with
        | Some x =>
            if decide (Spec.status x = WebhookEvent.processing)
            then delete k (ledger_of db)
            else ledger_of db
        | None => ledger_of db
        end
    ∧ ledger_wf db'.
Proof.
  intros Hwf.
  assert (∃ db', unreserveEvent k db = Ok db') as [db' Hun].
  { unfold unreserveEvent. rewrite by_event_unique by done. repeat case_match; eauto. }
  exists db'. split; [done|]. split; [|by eapply unreserve_wf].
  pose proof (unreserve_cases k db) as Hcases. rewrite ledger_lookup.
  destruct (by_event_cases k db Hwf) as [Hnone|[r Hr]].
  - rewrite Hnone in *. simpl. congruence.
  - rewrite Hr in *. simpl.
    assert (Spec.status (record_of (fields r)) = WebhookEvent.processing
            ↔ status_of r = Some WebhookEvent.processing) as Hiff.
    { unfold record_of, status_of. simpl.
      destruct (WebhookEvent.status (fields r)) as [[]|]; simpl; split; congruence. }
    destruct (decide (status_of r = Some WebhookEvent.processing)) as [Hp|Hp].
    + rewrite decide_True by (by apply Hiff).
      rewrite Hun in Hcases. injection Hcases as ->.
      assert (r ∈ by_paddle_event_id k db) as [Hk Hin]%by_event_elem by (rewrite Hr; by left).
      rewrite ledger_delete by done. by rewrite Hk.
    + rewrite decide_False by (by rewrite Hiff). congruence.
Qed.

End LedgerMore.

Lemma released_lock_leaves_no_trace_witness :
  ∃ db2,
    unreserveEvent "evt_1"
      (acquire_lock 700000 evt_1_args
         (set_webhook_events (tbl_delete 0%nat) (ledger_with 1000 (Some WebhookEvent.processing))))
    = Ok db2
    ∧ webhook_events db2
      = filter (λ d, event_id_of d ≠ "evt_1")
          (webhook_events (ledger_with 1000 (Some WebhookEvent.processing)))
    ∧ customers db2 = [] ∧ subscriptions db2 = []
    ∧ transactions db2 = [] ∧ adjustments db2 = []
    ∧ ∀ now' args', ca_paddleEventId args' = "evt_1" →
        ∃ db3, checkAndRecordEvent now' args' db2 = Ok (false, db3).
Proof.
  apply (released_lock_leaves_no_trace 700000 evt_1_args
           (ledger_with 1000 (Some WebhookEvent.processing))).
  - apply ledger_with_wf.
  - reflexivity.
Defined.

Lemma mark_refines_witness :
  ∃ db',
    markEventProcessed 2000 "evt_1" None (ledger_with 1000 (Some WebhookEvent.processing))
    = Ok db'
    ∧ ledger_of db'
      = alter (λ x, Spec.mkRecord (Spec.event_type x) (Spec.occurred_at x)
                      WebhookEvent.processed 2000)
          "evt_1" (ledger_of (ledger_with 1000 (Some WebhookEvent.processing)))
    ∧ ledger_wf db'.
Proof.
  apply (mark_refines 2000 "evt_1" None (ledger_with 1000 (Some WebhookEvent.processing))).
  apply ledger_with_wf.
Defined.

Lemma unreserve_refines_witness :
  ∃ db',
    unreserveEvent "evt_1" (ledger_with 1000 (Some WebhookEvent.processing)) = Ok db'
    ∧ ledger_of db'
      = match ledger_of (ledger_with 1000 (Some WebhookEvent.processing)) !! "evt_1" with
        | Some x =>
            if decide (Spec.status x = WebhookEvent.processing)
            then delete "evt_1" (ledger_of (ledger_with 1000 (Some WebhookEvent.processing)))
            else ledger_of (ledger_with 1000 (Some WebhookEvent.processing))
        | None => ledger_of (ledger_with 1000 (Some WebhookEvent.processing))
        end
    ∧ ledger_wf db'.
Proof.
  apply (unreserve_refines "evt_1" (ledger_with 1000 (Some WebhookEvent.processing))).
  apply ledger_with_wf.
Defined.

(** * Further properties of the webhook route *)

Section RouteMore.
Variable hmac_sha256 : string → string → option (list Byte.byte).
Variable JSON_parse : string → option Value.
Variable config : RegisterRoutesConfig.
Variable env : Env.
Implicit Types (db : DB) (req : Request).

Lemma effects_hook_calls event args db calls db2 threw calls2 :
  effects config env event args db calls = (db2, threw, calls2) →
  ∃ hooks, hooks ∈ hook_calls
           ∧ calls2 = calls ++ CallProcessEvent :: hooks.
Proof.
  unfold effects, hook_calls. intros H.
  repeat case_match; simplify_eq; rewrite <- ?app_assoc; simpl;
    eexists; (split; [|reflexivity]); set_solver.
Qed.

(** X6 (responses and calls of the route). For every request and every
    database, the response of the route and the calls it made are one of the
    pairs of [Exchange]: no call before a 400 or before the 500 of a missing
    secret; the admission call alone before a duplicate; otherwise the
    admission call, the default processing, the caller's handlers, and then
    either the release of the lock (500) or the promotion, with its fallback
    (200, or 500 when both fail). *)
Theorem handler_exchange req db :
  Exchange (handler hmac_sha256 JSON_parse config env req db).1.1
           (handler hmac_sha256 JSON_parse config env req db).2.
Proof.
  unfold handler.
  repeat (case_match; simpl; try by constructor).
  unfold dispatch.
  destruct (effects _ _ _ _ _ _) as [[db2 threw] calls2] eqn:Heff.
  apply effects_hook_calls in Heff as (hooks & Hhooks & ->).
  destruct threw.
  - unfold release. simpl. by constructor.
  - unfold finalize. repeat case_match; simpl; rewrite <- ?app_assoc; simpl; by constructor.
Qed.

Lemma admission_check o db args b db' :
  runMutation (check_fails env) (admission env o) db = Ok (args, (b, db')) →
  check_fails env = false
  ∧ validate_admission o = Ok args
  ∧ checkAndRecordEvent (now_check env) args db = Ok (b, db').
Proof.
  unfold runMutation. destruct (check_fails env); [done|].
  unfold admission. intros H.
  apply bind_Ok in H as (args' & Hv & H).
  apply bind_Ok in H as ([b' db''] & Hc & Hret).
  unfold mret, Result_ret in Hret. by simplify_eq.
Qed.

(** X7 (no write without the lock). A request during which the default
    processing was not called leaves the whole database as it was: requests
    that are rejected, that fail the admission call, or that are duplicates
    write nothing. *)
Theorem handler_writes_only_with_lock req db resp db' calls :
  handler hmac_sha256 JSON_parse config env req db = (resp, db', calls) →
  CallProcessEvent ∉ calls →
  db' = db.
Proof.
  unfold handler.
  repeat (case_match; try by intros [= _ <- _]).
  - intros [= _ <- _] _.
    match goal with Hrun : runMutation _ _ _ = _ |- _ =>
      apply admission_check in Hrun as (_ & _ & Hrun);
      by apply check_true_same in Hrun end.
  - unfold dispatch.
    destruct (effects _ _ _ _ _ _) as [[db2 threw] calls2] eqn:Heff.
    apply effects_hook_calls in Heff as (hooks & _ & ->).
    destruct threw.
    + unfold release. intros [= _ _ <-] Hno. exfalso. apply Hno.
      simpl. right. left.
    + unfold finalize. repeat case_match; intros [= _ _ <-] Hno; exfalso; apply Hno;
        simpl; right; left.
Qed.

(** A settled record, or a lock that is not stale: the admission answers
    "already done". *)
Lemma settled_check now args db r :
  by_paddle_event_id (ca_paddleEventId args) db = [r] →
  (status_of r = Some WebhookEvent.processing →
   now - WebhookEvent.processedAt (fields r) ≤ LOCK_TTL_MS) →
  checkAndRecordEvent now args db = Ok (true, db).
Proof.
  intros Hr Hage. unfold checkAndRecordEvent. rewrite Hr. simpl. unfold status_of in Hage.
  destruct (WebhookEvent.status (fields r)) as [[]|]; simpl; try done.
  destruct (Z.gtb_spec (now - WebhookEvent.processedAt (fields r)) LOCK_TTL_MS); [|done].
  specialize (Hage eq_refl). lia.
Qed.

(** The route, for a request that passes authentication and parsing. *)
Lemma admissible_handler req db event args :
  admissible hmac_sha256 JSON_parse config env req event args →
  check_fails env = false →
  handler hmac_sha256 JSON_parse config env req db
  = match checkAndRecordEvent (now_check env) args db with
    | Throw _ =>
        (mkResponse 500 (Text "Idempotency check failed"), db, [CallCheckAndRecordEvent])
    | Ok (true, db') =>
        (mkResponse 200 (Received true), db', [CallCheckAndRecordEvent])
    | Ok (false, db') => dispatch config env event args db' [CallCheckAndRecordEvent]
    end.
Proof.
  intros (Hsecret & Hsig & Hvalid & Hparse & o & Ho & Hv) Hf.
  unfold handler. rewrite Hsecret, Hsig, Hvalid, Hparse, Ho. simpl.
  unfold runMutation, admission. rewrite Hf, Hv. simpl.
  by destruct (checkAndRecordEvent _ _ _) as [[[] ?]|].
Qed.

(** X8 (a duplicate is skipped). When a request passes authentication and
    parsing, the admission call does not fail, and the ledger holds one
    record of the event that is settled or is a lock not older than ten
    minutes, the route answers 200 with [duplicate], makes the admission call
    and no other, and leaves the database as it was. *)
Theorem duplicate_delivery_is_skipped req db event args r :
  admissible hmac_sha256 JSON_parse config env req event args →
  check_fails env = false →
  by_paddle_event_id (ca_paddleEventId args) db = [r] →
  (status_of r = Some WebhookEvent.processing →
   now_check env - WebhookEvent.processedAt (fields r) ≤ LOCK_TTL_MS) →
  handler hmac_sha256 JSON_parse config env req db
  = (mkResponse 200 (Received true), db, [CallCheckAndRecordEvent]).
Proof.
  intros Hadm Hf Hr Hage.
  rewrite (admissible_handler _ _ _ _ Hadm Hf).
  by rewrite (settled_check _ _ _ _ Hr Hage).
Qed.

Lemma finalize_outcomes k db calls r :
  by_paddle_event_id k db = [r] →
  ∃ resp db' calls',
    finalize env k db calls = (resp, db', calls')
    ∧ ((resp_status resp = 200
        ∧ ∃ r', by_paddle_event_id k db' = [r'] ∧ is_permanent (status_of r') = true)
       ∨ (resp_status resp = 500 ∧ db' = db)).
Proof.
  intros Hr. unfold finalize, runMutation.
  destruct (mark_found (now_mark env) k None db r Hr) as (db1 & Hm1 & Hr1 & _).
  destruct (mark_found (now_fallback env) k (Some final_processed_pending) db r Hr)
    as (db2 & Hm2 & Hr2 & _).
  rewrite Hm1, Hm2.
  destruct (mark_fails env); [destruct (fallback_fails env)|];
    do 3 eexists; (split; [done|]); eauto.
Qed.

(** The processing block, entered with the lock of the event held. *)
Lemma dispatch_outcomes event args db calls r resp db' calls' :
  hooks_keep_ledger config →
  by_paddle_event_id (ca_paddleEventId args) db = [r] →
  status_of r = Some WebhookEvent.processing →
  dispatch config env event args db calls = (resp, db', calls') →
  (resp_status resp = 200
   ∧ ∃ r', by_paddle_event_id (ca_paddleEventId args) db' = [r']
           ∧ is_permanent (status_of r') = true)
  ∨ (resp_status resp = 500
     ∧ ∀ r', r' ∈ by_paddle_event_id (ca_paddleEventId args) db' →
             status_of r' = Some WebhookEvent.processing).
Proof.
  intros Hhooks Hr Hst. unfold dispatch.
  destruct (effects config env event args db calls) as [[db2 threw] calls2] eqn:Heff.
  pose proof (effects_ledger _ _ _ _ _ _ _ _ _ Hhooks Heff) as Hsame.
  rewrite <- (by_event_same _ _ _ Hsame) in Hr.
  destruct threw.
  - unfold release, runMutation. intros [= <- <- _]. right. split; [done|].
    destruct (unreserve_fails env).
    + intros r'. rewrite Hr. by intros ->%list_elem_of_singleton.
    + pose proof (unreserve_cases (ca_paddleEventId args) db2) as Hun.
      rewrite Hr, decide_True in Hun by done. rewrite Hun.
      intros r'. rewrite (by_event_delete_self _ _ _ Hr). by intros ?%elem_of_nil.
  - destruct (finalize_outcomes _ _ calls2 _ Hr) as (resp1 & db1 & calls1 & -> & Hout).
    intros [= <- <- _]. destruct Hout as [?|[? ->]]; [by left|right].
    split; [done|]. intros r'. rewrite Hr. by intros ->%list_elem_of_singleton.
Qed.

(** X9 (acknowledged exactly when recorded). When the route has acquired
    the lock of an event and the caller's handlers do not write to the
    ledger, either the response is 200 and the ledger holds exactly one
    record of the event, with a permanent status, or the response is 500 and
    every record of the event left in the ledger is still a lock. *)
Theorem acknowledged_iff_recorded req db0 event args db resp db' calls :
  lock_acquired hmac_sha256 JSON_parse config env req db0 event args db →
  hooks_keep_ledger config →
  handler hmac_sha256 JSON_parse config env req db0 = (resp, db', calls) →
  (resp_status resp = 200
   ∧ ∃ r, by_paddle_event_id (ca_paddleEventId args) db' = [r]
          ∧ is_permanent (status_of r) = true)
  ∨ (resp_status resp = 500
     ∧ ∀ r, r ∈ by_paddle_event_id (ca_paddleEventId args) db' →
            status_of r = Some WebhookEvent.processing).
Proof.
  intros Hlock Hhooks.
  rewrite (lock_acquired_dispatch _ _ _ _ _ _ _ _ _ Hlock).
  eapply dispatch_outcomes;
    [done
    |apply (check_acquired _ _ _ _ (lock_acquired_check _ _ _ _ _ _ _ _ _ Hlock))
    |done].
Qed.

Lemma by_event_none k db :
  by_paddle_event_id k db = [] → k ∉ event_id_of <$> webhook_events db.
Proof.
  intros Hnone (d & Hd & Hin)%list_elem_of_fmap.
  assert (d ∈ by_paddle_event_id k db) as Hd' by (by apply by_event_elem).
  rewrite Hnone in Hd'. by apply elem_of_nil in Hd'.
Qed.

Lemma one_record_same db db' :
  webhook_events db' = webhook_events db →
  one_record_per_event db → one_record_per_event db'.
Proof. unfold one_record_per_event. by intros ->. Qed.

Lemma one_record_acquire now args db :
  one_record_per_event db → by_paddle_event_id (ca_paddleEventId args) db = [] →
  one_record_per_event (acquire_lock now args db).
Proof.
  intros Hone Hnone. unfold one_record_per_event, acquire_lock, tbl_insert. simpl.
  apply (NoDup_key_snoc event_id_of); [done|]. by apply by_event_none.
Qed.

Lemma one_record_delete i db :
  one_record_per_event db → one_record_per_event (set_webhook_events (tbl_delete i) db).
Proof. intros Hone. by apply (NoDup_key_filter event_id_of). Qed.

Lemma one_record_check now args db b db' :
  one_record_per_event db →
  checkAndRecordEvent now args db = Ok (b, db') → one_record_per_event db'.
Proof.
  intros Hone. unfold checkAndRecordEvent.
  destruct (unique _) as [[ex|]|] eqn:Hu; [|intros [= <- <-]|done].
  - apply unique_Some in Hu.
    destruct (default _ _); [|by intros [= <- <-]..].
    case_match; intros [= <- <-]; [|done].
    apply one_record_acquire; [by apply one_record_delete|by apply by_event_delete_self].
  - apply unique_None in Hu. by apply one_record_acquire.
Qed.

Lemma one_record_mark now k st db db' :
  one_record_per_event db →
  markEventProcessed now k st db = Ok db' → one_record_per_event db'.
Proof.
  intros Hone. unfold markEventProcessed.
  destruct (unique _) as [[ex|]|]; [|by intros [= <-]|done].
  intros [= <-]. unfold one_record_per_event, tbl_patch in *. simpl.
  rewrite <- list_fmap_compose.
  erewrite list_fmap_ext; [done|]. intros ? d _. simpl. by case_decide.
Qed.

Lemma one_record_unreserve k db db' :
  one_record_per_event db →
  unreserveEvent k db = Ok db' → one_record_per_event db'.
Proof.
  intros Hone. unfold unreserveEvent.
  destruct (unique _) as [[ex|]|]; [|by intros [= <-]|done].
  case_decide; intros [= <-]; [by apply one_record_delete|done].
Qed.

(** X10 (one record per event id). When the caller's handlers do not write
    to the ledger, a ledger with at most one record per event id has at most
    one record per event id after every request, whatever the request and
    the failures of the backend. *)
Theorem handler_keeps_one_record_per_event req db resp db' calls :
  hooks_keep_ledger config →
  one_record_per_event db →
  handler hmac_sha256 JSON_parse config env req db = (resp, db', calls) →
  one_record_per_event db'.
Proof.
  intros Hhooks Hone. unfold handler.
  repeat (case_match; try by intros [= _ <- _]).
  - intros [= _ <- _].
    match goal with Hrun : runMutation _ _ _ = _ |- _ =>
      apply admission_check in Hrun as (_ & _ & Hrun);
      by eapply one_record_check end.
  - match goal with Hrun : runMutation _ _ _ = _ |- _ =>
      apply admission_check in Hrun as (_ & _ & Hrun);
      eapply one_record_check in Hrun; [|done] end.
    unfold dispatch.
    destruct (effects _ _ _ _ _ _) as [[db2 threw] calls2] eqn:Heff.
    apply (effects_ledger _ _ _ _ _ _ _ _ _ Hhooks) in Heff.
    eapply one_record_same in Heff; [|done].
    destruct threw.
    + unfold release, runMutation. intros [= _ <- _].
      destruct (unreserve_fails env); [done|].
      destruct (unreserveEvent _ _) eqn:Hun; [|done]. by eapply one_record_unreserve.
    + unfold finalize, runMutation.
      repeat case_match; intros [= _ <- _]; try done; by eapply one_record_mark.
Qed.

End RouteMore.

Section Redelivery.
Variable hmac_sha256 : string → string → option (list Byte.byte).
Variable JSON_parse : string → option Value.
Variable config : RegisterRoutesConfig.

(** A request that passes authentication and parsing, when the admission
    call fails. *)
Lemma admission_call_fails env req db event args :
  admissible hmac_sha256 JSON_parse config env req event args →
  check_fails env = true →
  handler hmac_sha256 JSON_parse config env req db
  = (mkResponse 500 (Text "Idempotency check failed"), db, [CallCheckAndRecordEvent]).
Proof.
  intros (Hsecret & Hsig & Hvalid & Hparse & o & Ho & Hv) Hf.
  unfold handler. rewrite Hsecret, Hsig, Hvalid, Hparse, Ho. simpl.
  unfold runMutation. by rewrite Hf.
Qed.

(** X11 (an acknowledged event is not processed again). Provided the
    handlers of the caller do not write to the ledger: when a first delivery
    acquired the lock and was answered 200, a later delivery of the same
    request that passes authentication and parsing (whatever the time of its
    admission call) makes the admission call and no other and leaves the
    database as the first delivery left it; it is answered 200 with
    [duplicate], or 500 when the admission call itself fails. *)
Theorem redelivery_is_idempotent env env' req db0 event args db resp db' calls :
  lock_acquired hmac_sha256 JSON_parse config env req db0 event args db →
  hooks_keep_ledger config →
  handler hmac_sha256 JSON_parse config env req db0 = (resp, db', calls) →
  resp_status resp = 200 →
  admissible hmac_sha256 JSON_parse config env' req event args →
  handler hmac_sha256 JSON_parse config env' req db'
  = (if check_fails env' then mkResponse 500 (Text "Idempotency check failed")
     else mkResponse 200 (Received true),
     db', [CallCheckAndRecordEvent]).
Proof.
  intros Hlock Hhooks Hfirst Hok Hadm.
  destruct (check_fails env') eqn:Hcheck; [by apply (admission_call_fails _ _ _ event args)|].
  rewrite (lock_acquired_dispatch _ _ _ _ _ _ _ _ _ Hlock) in Hfirst.
  pose proof (check_acquired _ _ _ _ (lock_acquired_check _ _ _ _ _ _ _ _ _ Hlock)) as Hr.
  destruct (dispatch_outcomes _ _ _ _ _ _ _ _ _ _ Hhooks Hr eq_refl Hfirst)
    as [(_ & r & Hr' & Hperm)|[Hfail _]]; [|congruence].
  rewrite (admissible_handler _ _ _ _ _ _ _ _ Hadm Hcheck).
  rewrite (settled_check _ _ _ r Hr'); [done|].
  intros Hst. by apply permanent_not_lock in Hperm.
Qed.

End Redelivery.

Lemma handler_writes_only_with_lock_witness :
  (handler sample_hmac sample_parse config_plain (quiet_env 1700000200000)
     signed_request evt_3_processed).1.2 = evt_3_processed.
Proof.
  eapply (handler_writes_only_with_lock sample_hmac sample_parse config_plain
            (quiet_env 1700000200000) signed_request evt_3_processed).
  - reflexivity.
  - vm_compute. intros H. inversion H as [|? ? ? H']. inversion H'.
Defined.

Lemma signed_request_admissible :
  admissible sample_hmac sample_parse config_plain (quiet_env 1700000200000)
    signed_request evt_3 evt_3_args.
Proof. unfold admissible. split_and!; [reflexivity..|]. by eexists. Qed.

Lemma duplicate_delivery_is_skipped_witness :
  handler sample_hmac sample_parse config_plain (quiet_env 1700000200000)
    signed_request evt_3_processed
  = (mkResponse 200 (Received true), evt_3_processed, [CallCheckAndRecordEvent]).
Proof.
  eapply (duplicate_delivery_is_skipped sample_hmac sample_parse config_plain
            (quiet_env 1700000200000) signed_request evt_3_processed evt_3 evt_3_args).
  - apply signed_request_admissible.
  - reflexivity.
  - reflexivity.
  - intros H. vm_compute in H. discriminate.
Defined.

Lemma config_plain_hooks : hooks_keep_ledger config_plain.
Proof. split; [done|]. intros event_type h. simpl. by rewrite lookup_empty. Qed.

Lemma signed_request_lock_plain :
  lock_acquired sample_hmac sample_parse config_plain (quiet_env 1700000100000)
    signed_request empty_db evt_3 evt_3_args
    (acquire_lock 1700000100000 evt_3_args empty_db).
Proof. unfold lock_acquired. split_and!; [reflexivity..|]. by eexists. Qed.

Lemma acknowledged_iff_recorded_witness :
  let out := handler sample_hmac sample_parse config_plain (quiet_env 1700000100000)
               signed_request empty_db in
  (resp_status out.1.1 = 200
   ∧ ∃ r, by_paddle_event_id "evt_3" out.1.2 = [r] ∧ is_permanent (status_of r) = true)
  ∨ (resp_status out.1.1 = 500
     ∧ ∀ r, r ∈ by_paddle_event_id "evt_3" out.1.2 →
            status_of r = Some WebhookEvent.processing).
Proof.
  eapply (acknowledged_iff_recorded sample_hmac sample_parse config_plain
            (quiet_env 1700000100000) signed_request empty_db evt_3 evt_3_args).
  - apply signed_request_lock_plain.
  - apply config_plain_hooks.
  - reflexivity.
Defined.

Lemma handler_keeps_one_record_per_event_witness :
  one_record_per_event
    (handler sample_hmac sample_parse config_plain (quiet_env 1700000100000)
       signed_request empty_db).1.2.
Proof.
  eapply (handler_keeps_one_record_per_event sample_hmac sample_parse config_plain
            (quiet_env 1700000100000) signed_request empty_db).
  - apply config_plain_hooks.
  - apply NoDup_nil_2.
  - reflexivity.
Defined.

Lemma redelivery_is_idempotent_witness :
  handler sample_hmac sample_parse config_plain (quiet_env 1700000200000) signed_request
    (handler sample_hmac sample_parse config_plain (quiet_env 1700000100000)
       signed_request empty_db).1.2
  = (mkResponse 200 (Received true),
     (handler sample_hmac sample_parse config_plain (quiet_env 1700000100000)
        signed_request empty_db).1.2,
     [CallCheckAndRecordEvent]).
Proof.
  eapply (redelivery_is_idempotent sample_hmac sample_parse config_plain
            (quiet_env 1700000100000) (quiet_env 1700000200000) signed_request empty_db
            evt_3 evt_3_args).
  - apply signed_request_lock_plain.
  - apply config_plain_hooks.
  - reflexivity.
  - reflexivity.
  - apply signed_request_admissible.
Defined.

(** * Further properties of the signature check *)

Section SignatureMore.

Lemma append_cons c (a b : string) : String c a +:+ b = String c (a +:+ b).
Proof. reflexivity. Qed.

Lemma append_nil (b : string) : "" +:+ b = b.
Proof. reflexivity. Qed.

Lemma chars_append (P : ascii → bool) (a b : string) :
  forallb P (list_ascii_of_string (a +:+ b))
  = forallb P (list_ascii_of_string a) && forallb P (list_ascii_of_string b).
Proof.
  induction a as [|c a IH]; [done|].
  rewrite append_cons. simpl. by rewrite IH, andb_assoc.
Qed.

Lemma chars_impl (P Q : ascii → bool) (s : string) :
  (∀ c, P c = true → Q c = true) →
  forallb P (list_ascii_of_string s) = true → forallb Q (list_ascii_of_string s) = true.
Proof.
  intros HPQ. induction s as [|c s IH]; [done|]. simpl.
  intros [Hc Hs]%andb_true_iff. rewrite (HPQ _ Hc). auto.
Qed.

(** ** [split] *)

Lemma split_free sep s :
  forallb (other_than sep) (list_ascii_of_string s) = true → split sep s = [s].
Proof.
  induction s as [|c s IH]; [done|]. simpl.
  intros [Hc Hs]%andb_true_iff. apply negb_true_iff in Hc.
  by rewrite Hc, IH.
Qed.

Lemma split_field sep a b :
  forallb (other_than sep) (list_ascii_of_string a) = true →
  split sep (a +:+ String sep b) = a :: split sep b.
Proof.
  induction a as [|c a IH].
  - intros _. rewrite append_nil. simpl. by rewrite Ascii.eqb_refl.
  - simpl. intros [Hc Ha]%andb_true_iff. apply negb_true_iff in Hc.
    rewrite ?append_cons. simpl. by rewrite Hc, IH.
Qed.

(** ** Decimal numerals *)

Lemma digit_value_pretty d :
  (d < 10)%N → digit_value (pretty_N_char d) = Some (Z.of_N d).
Proof.
  intros Hd.
  assert (d = 0 ∨ d = 1 ∨ d = 2 ∨ d = 3 ∨ d = 4 ∨ d = 5 ∨ d = 6 ∨ d = 7 ∨ d = 8 ∨ d = 9)%N
    as Hcases by lia.
  repeat destruct Hcases as [->|Hcases]; try subst d; reflexivity.
Qed.

Lemma parse_digits_pretty x : ∀ s,
  (0 < x)%N →
  parse_digits (pretty_N_go x s) None = parse_digits s (Some (Z.of_N x)).
Proof.
  induction (N.lt_wf_0 x) as [x _ IH]. intros s Hx.
  rewrite pretty_N_go_step by done.
  assert (x `mod` 10 < 10)%N as Hmod by (by apply N.mod_lt).
  pose proof (N.div_mod x 10 ltac:(done)) as Hdiv.
  destruct (decide (x `div` 10 = 0)%N) as [Hz|Hnz].
  - rewrite Hz, pretty_N_go_0. simpl. rewrite digit_value_pretty by done.
    simpl. do 2 f_equal. lia.
  - rewrite IH; [|by apply N.div_lt|lia].
    simpl. rewrite digit_value_pretty by done. do 2 f_equal. lia.
Qed.

Lemma pretty_N_char_chars (P : ascii → bool) :
  forallb P (list_ascii_of_string "0123456789") = true →
  ∀ d, P (pretty_N_char d) = true.
Proof.
  simpl. intros H d. repeat (apply andb_true_iff in H as [? H]).
  unfold pretty_N_char. by repeat case_match.
Qed.

Lemma pretty_N_go_chars (P : ascii → bool) x : ∀ s,
  forallb P (list_ascii_of_string "0123456789") = true →
  forallb P (list_ascii_of_string s) = true →
  forallb P (list_ascii_of_string (pretty_N_go x s)) = true.
Proof.
  induction (N.lt_wf_0 x) as [x _ IH]. intros s HP Hs.
  destruct (decide (x = 0)%N) as [->|Hx]; [by rewrite pretty_N_go_0|].
  rewrite pretty_N_go_step by lia.
  apply IH; [apply N.div_lt; lia|done|].
  simpl. by rewrite pretty_N_char_chars.
Qed.

Lemma pretty_N_go_head x : ∀ s,
  (0 < x)%N → ∃ d rest, pretty_N_go x s = String (pretty_N_char d) rest.
Proof.
  induction (N.lt_wf_0 x) as [x _ IH]. intros s Hx.
  rewrite pretty_N_go_step by done.
  destruct (decide (x `div` 10 = 0)%N) as [Hz|Hnz].
  - rewrite Hz, pretty_N_go_0. eauto.
  - apply IH; [by apply N.div_lt|by apply N.neq_0_lt_0].
Qed.

(** A numeral that starts with a digit is read from its first character. *)
Lemma parseInt_digits d rest :
  parseInt (String (pretty_N_char d) rest)
  = parse_digits (String (pretty_N_char d) rest) None.
Proof. unfold pretty_N_char. repeat case_match; reflexivity. Qed.

Lemma parseInt_pretty_N (x : N) : parseInt (pretty x) = Some (Z.of_N x).
Proof.
  unfold pretty, pretty_N. case_decide as Hx; [by subst|].
  destruct (pretty_N_go_head x "") as (d & rest & Hhead); [lia|].
  rewrite Hhead, parseInt_digits, <- Hhead.
  rewrite parse_digits_pretty by lia. done.
Qed.

(** Round trip: [parseInt] reads back the decimal numeral of an integer. *)
Lemma parseInt_pretty (z : Z) : parseInt (pretty z) = Some z.
Proof.
  destruct z as [|p|p]; [done|..].
  - change (pretty (Z.pos p)) with (pretty (N.pos p)).
    by rewrite parseInt_pretty_N.
  - change (pretty (Z.neg p)) with ("-" +:+ pretty (N.pos p)).
    unfold pretty, pretty_N. rewrite decide_False by done.
    rewrite append_cons, append_nil. unfold parseInt. simpl.
    rewrite parse_digits_pretty by lia. done.
Qed.

Lemma pretty_Z_chars (P : ascii → bool) (z : Z) :
  forallb P (list_ascii_of_string "-0123456789") = true →
  forallb P (list_ascii_of_string (pretty z)) = true.
Proof.
  intros HP. assert (P "-"%char = true
    ∧ forallb P (list_ascii_of_string "0123456789") = true) as [Hdash Hdigits].
  { revert HP. simpl. intros [? ?]%andb_true_iff. done. }
  assert (∀ x : N, forallb P (list_ascii_of_string (pretty x)) = true) as HN.
  { intros x. unfold pretty, pretty_N. case_decide.
    - revert Hdigits. simpl. by intros [-> _]%andb_true_iff.
    - by apply pretty_N_go_chars. }
  destruct z as [|p|p].
  - apply (HN 0%N).
  - apply (HN (N.pos p)).
  - change (pretty (Z.neg p)) with ("-" +:+ pretty (N.pos p)).
    rewrite append_cons, append_nil. simpl. by rewrite Hdash, HN.
Qed.

Lemma pretty_Z_nonempty (z : Z) : pretty z ≠ "".
Proof.
  destruct z as [|p|p]; [done|..].
  - change (pretty (Z.pos p)) with (pretty (N.pos p)).
    unfold pretty, pretty_N. rewrite decide_False by done.
    destruct (pretty_N_go_head (N.pos p) "") as (d & rest & ->); [lia|done].
  - change (pretty (Z.neg p)) with ("-" +:+ pretty (N.pos p)). by rewrite append_cons.
Qed.

(** ** The header *)

Lemma prefix_append p s : String.prefix p (p +:+ s) = true.
Proof.
  induction p as [|c p IH]; [by destruct s|].
  rewrite append_cons. simpl. by destruct (ascii_dec c c).
Qed.

Lemma find_cons {A} (f : A → bool) x l :
  List.find f (x :: l) = if f x then Some x else List.find f l.
Proof. reflexivity. Qed.

(** The fields of a header [name=value;...]: the value of a field is the
    text between its first and second [=]. *)
Lemma field_value name value :
  forallb (other_than "=") (list_ascii_of_string name) = true →
  forallb (other_than "=") (list_ascii_of_string value) = true →
  split "=" (name +:+ "=" +:+ value) !! 1%nat = Some value.
Proof.
  intros Hname Hvalue.
  change (name +:+ "=" +:+ value) with (name +:+ String "=" value).
  by rewrite split_field, split_free.
Qed.

Lemma header_fields ts h1 :
  forallb (other_than ";") (list_ascii_of_string ts) = true →
  forallb (other_than ";") (list_ascii_of_string h1) = true →
  split ";" ("ts=" +:+ ts +:+ ";h1=" +:+ h1) = ["ts=" +:+ ts; "h1=" +:+ h1].
Proof.
  intros Hts Hh1.
  change ("ts=" +:+ ts +:+ ";h1=" +:+ h1)
    with (("ts=" +:+ ts) +:+ String ";" ("h1=" +:+ h1)).
  rewrite split_field by (by rewrite chars_append, Hts).
  by rewrite split_free by (by rewrite chars_append, Hh1).
Qed.

Lemma header_ts ts h1 :
  forallb (other_than ";") (list_ascii_of_string ts) = true →
  forallb (other_than "=") (list_ascii_of_string ts) = true →
  forallb (other_than ";") (list_ascii_of_string h1) = true →
  header_field "ts" ("ts=" +:+ ts +:+ ";h1=" +:+ h1) = Some ts.
Proof.
  intros Hsemi Heq Hh1. unfold header_field. rewrite header_fields by done.
  change ("ts" +:+ "=") with "ts=".
  rewrite find_cons. unfold startsWith at 1. rewrite prefix_append.
  by apply (field_value "ts").
Qed.

Lemma header_h1 ts h1 :
  forallb (other_than ";") (list_ascii_of_string ts) = true →
  forallb (other_than ";") (list_ascii_of_string h1) = true →
  forallb (other_than "=") (list_ascii_of_string h1) = true →
  header_field "h1" ("ts=" +:+ ts +:+ ";h1=" +:+ h1) = Some h1.
Proof.
  intros Hsemi Hh1 Heq. unfold header_field. rewrite header_fields by done.
  change ("h1" +:+ "=") with "h1=".
  rewrite find_cons.
  change (startsWith "h1=" ("ts=" +:+ ts)) with false.
  rewrite find_cons. unfold startsWith at 1. rewrite prefix_append.
  by apply (field_value "h1").
Qed.

Lemma lower_hex_other sep :
  is_lower_hex sep = false → ∀ c, is_lower_hex c = true → other_than sep c = true.
Proof.
  intros Hsep c Hc. unfold other_than. apply negb_true_iff, Ascii.eqb_neq.
  intros ->. congruence.
Qed.

Lemma hex_encode_nonempty bytes : bytes ≠ [] → hex_encode bytes ≠ "".
Proof. destruct bytes as [|b bytes]; [done|]. by rewrite hex_encode_cons. Qed.

Variable hmac_sha256 : string → string → option (list Byte.byte).

(** X12 (a signed request is accepted). For every integer time stamp within
    300 seconds of the current time, the verifier accepts the header
    [ts=<time stamp>;h1=<digest>] whose digest is the lower-case hexadecimal
    encoding of the HMAC-SHA256 of [<time stamp>:<body>] under the secret,
    the time stamp written as a decimal numeral. *)
Theorem honest_signature_accepted now rawBody secret (tsSeconds : Z) signatureBytes :
  Z.abs (now / 1000 - tsSeconds) ≤ 300 →
  hmac_sha256 secret (pretty tsSeconds +:+ ":" +:+ rawBody) = Some signatureBytes →
  signatureBytes ≠ [] →
  verifyPaddleWebhookSignature hmac_sha256 now rawBody secret
    ("ts=" +:+ pretty tsSeconds +:+ ";h1=" +:+ hex_encode signatureBytes) = true.
Proof.
  intros Hage Hmac Hbytes. unfold verifyPaddleWebhookSignature.
  destruct (hex_encode_lower signatureBytes) as [Hhex _].
  rewrite header_ts, header_h1;
    try (by apply pretty_Z_chars);
    try (by eapply chars_impl; [apply lower_hex_other|apply Hhex]).
  rewrite (proj2 (is_empty_spec _) (pretty_Z_nonempty tsSeconds)).
  rewrite (proj2 (is_empty_spec _) (hex_encode_nonempty _ Hbytes)). simpl.
  rewrite parseInt_pretty. unfold WEBHOOK_MAX_AGE_SECONDS.
  destruct (Z.gtb_spec (Z.abs (now / 1000 - tsSeconds)) 300); [lia|].
  rewrite Hmac. by apply constant_time_equal_spec.
Qed.

(** ** The encoding of the digest *)

Lemma hex_digit_inj n m :
  (n < 16)%N → (m < 16)%N → hex_digit n = hex_digit m → n = m.
Proof.
  intros Hn Hm.
  assert (∀ x, (x < 16)%N →
            x = 0 ∨ x = 1 ∨ x = 2 ∨ x = 3 ∨ x = 4 ∨ x = 5 ∨ x = 6 ∨ x = 7 ∨ x = 8
            ∨ x = 9 ∨ x = 10 ∨ x = 11 ∨ x = 12 ∨ x = 13 ∨ x = 14 ∨ x = 15)%N
    as Hcases by (intros; lia).
  destruct (Hcases n Hn) as [->|[->|[->|[->|[->|[->|[->|[->|[->|[->|[->|[->|[->|[->|[->| ->]]]]]]]]]]]]]]];
    destruct (Hcases m Hm) as [->|[->|[->|[->|[->|[->|[->|[->|[->|[->|[->|[->|[->|[->|[->| ->]]]]]]]]]]]]]]];
    first [reflexivity | discriminate].
Qed.

Lemma byte_hex_inj b1 b2 : byte_hex b1 = byte_hex b2 → b1 = b2.
Proof.
  unfold byte_hex. intros [= Hhi Hlo].
  pose proof (Byte.to_N_bounded b1) as H1. pose proof (Byte.to_N_bounded b2) as H2.
  apply hex_digit_inj in Hhi;
    [|apply N.Div0.div_lt_upper_bound; lia|apply N.Div0.div_lt_upper_bound; lia].
  apply hex_digit_inj in Hlo; [|by apply N.mod_lt..].
  assert (Byte.to_N b1 = Byte.to_N b2) as Heq.
  { rewrite (N.div_mod (Byte.to_N b1) 16), (N.div_mod (Byte.to_N b2) 16) by done.
    by rewrite Hhi, Hlo. }
  apply (inj Some). by rewrite <- !Byte.of_to_N, Heq.
Qed.

(** X13 (the encoding of the digest is injective). Two byte sequences with
    the same encoding are equal: thanks to the padding of each byte to two
    digits, comparing encodings is comparing digests. *)
Theorem hex_encode_inj bytes1 : ∀ bytes2,
  hex_encode bytes1 = hex_encode bytes2 → bytes1 = bytes2.
Proof.
  induction bytes1 as [|b1 bytes1 IH]; intros [|b2 bytes2]; rewrite ?hex_encode_cons;
    try done.
  intros H.
  assert (byte_hex b1 = byte_hex b2 ∧ hex_encode bytes1 = hex_encode bytes2) as [Hb Hrest].
  { unfold byte_hex. by injection H as -> -> ->. }
  by rewrite (byte_hex_inj _ _ Hb), (IH _ Hrest).
Qed.

End SignatureMore.

(** * Tables looked up by a key of the row *)

Section KeyedTables.
Context {A K : Type} `{!EqDecision K} (key : A → K).
Implicit Types (t : list (Doc A)) (d : Doc A) (k : K).

Lemma lookup_none_key k t :
  filter (λ d, key (fields d) = k) t = [] → k ∉ (λ d, key (fields d)) <$> t.
Proof.
  intros Hnone (d & Hd & Hin)%list_elem_of_fmap.
  assert (d ∈ filter (λ d, key (fields d) = k) t) as Hd'
    by (by apply list_elem_of_filter).
  rewrite Hnone in Hd'. by apply elem_of_nil in Hd'.
Qed.

Lemma keys_insert t i x :
  NoDup ((λ d, key (fields d)) <$> t) →
  filter (λ d, key (fields d) = key x) t = [] →
  NoDup ((λ d, key (fields d)) <$> tbl_insert i x t).
Proof.
  intros Hnd Hnone. unfold tbl_insert.
  apply (NoDup_key_snoc (λ d, key (fields d))); [done|]. by apply lookup_none_key.
Qed.

Lemma keys_patch i (f : A → A) t :
  (∀ r, key (f r) = key r) →
  (λ d, key (fields d)) <$> tbl_patch i f t = (λ d, key (fields d)) <$> t.
Proof.
  intros Hf. unfold tbl_patch. rewrite <- list_fmap_compose.
  apply list_fmap_ext. intros ? d _. simpl. case_decide; simpl; by rewrite ?Hf.
Qed.

Lemma keyed_insert k t i x :
  filter (λ d, key (fields d) = k) (tbl_insert i x t)
  = filter (λ d, key (fields d) = k) t ++ (if decide (key x = k) then [mkDoc i x] else []).
Proof. unfold tbl_insert. by rewrite filter_app. Qed.

Lemma keyed_patch k t d (f : A → A) :
  (∀ r, key (f r) = key r) →
  filter (λ d, key (fields d) = k) t = [d] →
  filter (λ d, key (fields d) = k) (tbl_patch (_id d) f t) = [mkDoc (_id d) (f (fields d))].
Proof.
  intros Hf Hd.
  rewrite (tbl_patch_filter (λ d, key (fields d) = k)), Hd.
  - simpl. by rewrite decide_True.
  - intros d'. simpl. by rewrite Hf.
Qed.

End KeyedTables.

(** * The Paddle identifiers stay keys *)

Section Keys.
Implicit Types (db : DB).

Ltac keys_frame :=
  intros;
  repeat case_match; simplify_eq;
  match goal with Hwf : entity_wf _ |- _ => destruct Hwf as [Hc Hs Ht Ha] end;
  split; simpl; try done;
  first
    [ by rewrite keys_patch
    | apply keys_insert; [done|]; by apply unique_None ].

Lemma handleCustomerCreated_keys args db db' :
  handleCustomerCreated args db = Ok db' → entity_wf db → entity_wf db'.
Proof. unfold handleCustomerCreated. keys_frame. Qed.

Lemma handleCustomerUpdated_keys args db db' :
  handleCustomerUpdated args db = Ok db' → entity_wf db → entity_wf db'.
Proof. unfold handleCustomerUpdated. keys_frame. Qed.

Lemma handleSubscriptionUpdated_keys args db db' :
  handleSubscriptionUpdated args db = Ok db' → entity_wf db → entity_wf db'.
Proof. unfold handleSubscriptionUpdated. keys_frame. Qed.

Lemma patch_subscription_keys k f db db' :
  (∀ r, Subscription.paddleSubscriptionId (f r) = Subscription.paddleSubscriptionId r) →
  patch_subscription k f db = Ok db' → entity_wf db → entity_wf db'.
Proof. unfold patch_subscription. keys_frame. Qed.

Lemma handleTransactionCreated_keys args db db' :
  handleTransactionCreated args db = Ok db' → entity_wf db → entity_wf db'.
Proof. unfold handleTransactionCreated, insert_transaction. keys_frame. Qed.

Lemma handleTransactionUpdated_keys args db db' :
  handleTransactionUpdated args db = Ok db' → entity_wf db → entity_wf db'.
Proof. unfold handleTransactionUpdated. keys_frame. Qed.

Lemma handleTransactionCompleted_keys args db db' :
  handleTransactionCompleted args db = Ok db' → entity_wf db → entity_wf db'.
Proof. unfold handleTransactionCompleted, insert_transaction. keys_frame. Qed.

Lemma handleAdjustmentCreated_keys args db db' :
  handleAdjustmentCreated args db = Ok db' → entity_wf db → entity_wf db'.
Proof. unfold handleAdjustmentCreated. keys_frame. Qed.

Lemma handleAdjustmentUpdated_keys k st total db db' :
  handleAdjustmentUpdated k st total db = Ok db' → entity_wf db → entity_wf db'.
Proof. unfold handleAdjustmentUpdated. keys_frame. Qed.

Lemma backfill_patch_keys u o txn db db' :
  backfill_patch u o txn db = Ok db' → entity_wf db → entity_wf db'.
Proof. unfold backfill_patch. keys_frame. Qed.

Lemma backfill_patches_keys u o l : ∀ db db',
  backfill_patches u o l db = Ok db' → entity_wf db → entity_wf db'.
Proof.
  induction l as [|txn l IH]; simpl; intros db db' H Hwf; [by simplify_eq|].
  destruct (backfill_patch _ _ _ _) as [db1|] eqn:H1; [|done].
  eapply IH; [done|]. by eapply backfill_patch_keys.
Qed.

Lemma backfill_loop_keys u o k fuel : ∀ db db',
  backfill_loop fuel u o k db = Some (Ok db') → entity_wf db → entity_wf db'.
Proof.
  induction fuel as [|fuel IH]; simpl; intros db db' H Hwf; [done|].
  destruct (backfill_step _ _ _ _) as [[db1 more]|] eqn:H1; [|done].
  assert (entity_wf db1) as Hwf1.
  { revert H1. unfold backfill_step.
    destruct (backfill_patches _ _ _ _) as [db2|] eqn:H2; [|done].
    intros [= <- _]. by eapply backfill_patches_keys. }
  destruct more; [by eapply IH|by simplify_eq].
Qed.

Lemma handleSubscriptionCreated_keys fuel args db db' :
  handleSubscriptionCreated fuel args db = Some (Ok db') → entity_wf db → entity_wf db'.
Proof.
  unfold handleSubscriptionCreated. intros H Hwf.
  destruct (unique _) as [existing|] eqn:Hu; [|done].
  match type of H with context [match ?i with Ok _ => _ | Throw _ => _ end] =>
    destruct i as [db1|] eqn:Hi end; [|done].
  assert (entity_wf db1) as Hwf1.
  { clear H. revert Hi Hwf. destruct existing; [by intros [= <-]|]. keys_frame. }
  clear Hi. destruct (_ || _); [by eapply backfill_loop_keys|by simplify_eq].
Qed.

(** X14 (the Paddle identifiers stay keys). When each entity table holds at
    most one row per Paddle identifier, it still does after the default
    processing of any event, of any type. *)
Theorem processEvent_keeps_keys fails limit event event_type db db' :
  entity_wf db →
  processEvent fails limit event event_type db = Ok db' →
  entity_wf db'.
Proof.
  unfold processEvent, string_or_undefined. intros Hwf H.
  destruct (event_case event_type) eqn:Hcase;
    repeat (apply bind_Ok in H as (? & _ & H));
    try (apply runMutation_Ok in H);
    eauto using handleCustomerCreated_keys, handleCustomerUpdated_keys,
      handleSubscriptionUpdated_keys, handleTransactionCreated_keys,
      handleTransactionUpdated_keys, handleTransactionCompleted_keys,
      handleAdjustmentCreated_keys, handleAdjustmentUpdated_keys.
  - eapply handleSubscriptionCreated_keys with (fuel := limit); [|done].
    unfold within_limit in H. by case_match; simplify_eq.
  - eapply patch_subscription_keys; [|done..]. done.
  - eapply patch_subscription_keys; [|done..]. done.
  - eapply patch_subscription_keys; [|done..]. done.
  - eapply patch_subscription_keys; [|done..]. done.
  - by simplify_eq.
Qed.

End Keys.

(** * The tables an event may write *)

Section TableFrame.
Implicit Types (db : DB).

Ltac table_frame :=
  intros; unfold same_rows;
  repeat case_match; simplify_eq; simpl; rewrite ?tbl_patch_ids; done.

Lemma handleCustomer_tables args db db' :
  handleCustomerCreated args db = Ok db' ∨ handleCustomerUpdated args db = Ok db' →
  subscriptions db' = subscriptions db ∧ transactions db' = transactions db
  ∧ adjustments db' = adjustments db.
Proof. unfold handleCustomerCreated, handleCustomerUpdated. intros [H|H]; revert H; table_frame. Qed.

Lemma patch_subscription_tables k f db db' :
  patch_subscription k f db = Ok db' →
  customers db' = customers db ∧ transactions db' = transactions db
  ∧ adjustments db' = adjustments db ∧ same_rows db db'.
Proof. unfold patch_subscription. table_frame. Qed.

Lemma handleSubscriptionUpdated_tables args db db' :
  handleSubscriptionUpdated args db = Ok db' →
  customers db' = customers db ∧ transactions db' = transactions db
  ∧ adjustments db' = adjustments db ∧ same_rows db db'.
Proof. unfold handleSubscriptionUpdated. table_frame. Qed.

Lemma handleTransaction_tables db db' :
  (∃ args, handleTransactionCreated args db = Ok db')
  ∨ (∃ args, handleTransactionCompleted args db = Ok db') →
  customers db' = customers db ∧ subscriptions db' = subscriptions db
  ∧ adjustments db' = adjustments db.
Proof.
  unfold handleTransactionCreated, handleTransactionCompleted, insert_transaction.
  intros [[args H]|[args H]]; revert H; table_frame.
Qed.

Lemma handleTransactionUpdated_tables args db db' :
  handleTransactionUpdated args db = Ok db' →
  customers db' = customers db ∧ subscriptions db' = subscriptions db
  ∧ adjustments db' = adjustments db ∧ same_rows db db'.
Proof. unfold handleTransactionUpdated. table_frame. Qed.

Lemma handleAdjustmentCreated_tables args db db' :
  handleAdjustmentCreated args db = Ok db' →
  customers db' = customers db ∧ subscriptions db' = subscriptions db
  ∧ transactions db' = transactions db.
Proof. unfold handleAdjustmentCreated. table_frame. Qed.

Lemma handleAdjustmentUpdated_tables k st total db db' :
  handleAdjustmentUpdated k st total db = Ok db' →
  customers db' = customers db ∧ subscriptions db' = subscriptions db
  ∧ transactions db' = transactions db ∧ same_rows db db'.
Proof. unfold handleAdjustmentUpdated. table_frame. Qed.

Lemma backfilled_trans db1 db2 db3 :
  backfilled db1 db2 → backfilled db2 db3 → backfilled db1 db3.
Proof. unfold backfilled. intros (?&?&?&?&?) (?&?&?&?&?). split_and!; congruence. Qed.

Lemma backfill_patches_tables u o l : ∀ db db',
  backfill_patches u o l db = Ok db' → backfilled db db'.
Proof.
  induction l as [|txn l IH]; simpl; intros db db' H; [by simplify_eq|].
  destruct (backfill_patch _ _ _ _) as [db1|] eqn:H1; [|done].
  eapply backfilled_trans; [|by eapply IH].
  revert H1. unfold backfill_patch, backfilled.
  repeat case_match; intros; simplify_eq; simpl; rewrite ?tbl_patch_ids; done.
Qed.

Lemma backfill_loop_tables u o k fuel : ∀ db db',
  backfill_loop fuel u o k db = Some (Ok db') → backfilled db db'.
Proof.
  induction fuel as [|fuel IH]; simpl; intros db db' H; [done|].
  destruct (backfill_step _ _ _ _) as [[db1 more]|] eqn:H1; [|done].
  assert (backfilled db db1) as Hb1.
  { revert H1. unfold backfill_step.
    destruct (backfill_patches _ _ _ _) as [db2|] eqn:H2; [|done].
    intros [= <- _]. by eapply backfill_patches_tables. }
  destruct more; [|by simplify_eq].
  eapply backfilled_trans; [done|by eapply IH].
Qed.

Lemma handleSubscriptionCreated_tables fuel args db db' :
  handleSubscriptionCreated fuel args db = Some (Ok db') →
  customers db' = customers db ∧ adjustments db' = adjustments db
  ∧ _id <$> transactions db' = _id <$> transactions db.
Proof.
  unfold handleSubscriptionCreated. intros H.
  destruct (unique _) as [existing|] eqn:Hu; [|done].
  match type of H with context [match ?i with Ok _ => _ | Throw _ => _ end] =>
    destruct i as [db1|] eqn:Hi end; [|done].
  assert (customers db1 = customers db ∧ adjustments db1 = adjustments db
          ∧ transactions db1 = transactions db) as (Hc & Ha & Ht).
  { clear H. revert Hi. table_frame. }
  clear Hi. destruct (_ || _).
  - apply backfill_loop_tables in H as (?&?&?&?&?). split_and!; congruence.
  - simplify_eq. split_and!; congruence.
Qed.

(** X15 (the tables an event may write). The default processing of an event
    writes to the table of its entity only: customer events to [customers],
    transaction events to [transactions], adjustment events to
    [adjustments], subscription events to [subscriptions], and
    [subscription.created] also patches rows of [transactions]. The events
    that only patch ([subscription.updated], [.activated], [.canceled],
    [.paused], [.resumed], [transaction.updated], [adjustment.updated])
    create and delete no row; an event of another type changes nothing. *)
Theorem processEvent_tables fails limit event event_type db db' :
  processEvent fails limit event event_type db = Ok db' →
  match event_case event_type with
  | CustomerCreated | CustomerUpdated =>
      subscriptions db' = subscriptions db ∧ transactions db' = transactions db
      ∧ adjustments db' = adjustments db
  | SubscriptionCreated =>
      customers db' = customers db ∧ adjustments db' = adjustments db
      ∧ _id <$> transactions db' = _id <$> transactions db
  | SubscriptionActivated | SubscriptionUpdated | SubscriptionCanceled
  | SubscriptionPaused | SubscriptionResumed =>
      customers db' = customers db ∧ transactions db' = transactions db
      ∧ adjustments db' = adjustments db ∧ same_rows db db'
  | TransactionCreated | TransactionCompleted =>
      customers db' = customers db ∧ subscriptions db' = subscriptions db
      ∧ adjustments db' = adjustments db
  | TransactionUpdated =>
      customers db' = customers db ∧ subscriptions db' = subscriptions db
      ∧ adjustments db' = adjustments db ∧ same_rows db db'
  | AdjustmentCreated =>
      customers db' = customers db ∧ subscriptions db' = subscriptions db
      ∧ transactions db' = transactions db
  | AdjustmentUpdated =>
      customers db' = customers db ∧ subscriptions db' = subscriptions db
      ∧ transactions db' = transactions db ∧ same_rows db db'
  | Unhandled => db' = db
  end.
Proof.
  unfold processEvent, string_or_undefined. intros H.
  destruct (event_case event_type) eqn:Hcase;
    repeat (apply bind_Ok in H as (? & _ & H));
    try (apply runMutation_Ok in H);
    eauto using patch_subscription_tables, handleSubscriptionUpdated_tables,
      handleTransactionUpdated_tables, handleAdjustmentCreated_tables,
      handleAdjustmentUpdated_tables.
  - eapply handleCustomer_tables; eauto.
  - eapply handleCustomer_tables; eauto.
  - eapply handleSubscriptionCreated_tables with (fuel := limit).
    unfold within_limit in H. by case_match; simplify_eq.
  - eapply handleTransaction_tables; eauto.
  - eapply handleTransaction_tables; eauto.
  - by simplify_eq.
Qed.

End TableFrame.

(** * Lookups by a Paddle identifier find at most one row *)

Section Unambiguous.
Implicit Types (db : DB).

Lemma unique_keyed {A K} `{!EqDecision K} (key : A → K) (k : K) (t : list (Doc A)) :
  NoDup ((λ d, key (fields d)) <$> t) →
  unique (filter (λ d, key (fields d) = k) t)
  = Ok (head (filter (λ d, key (fields d) = k) t)).
Proof. intros Hnd. by apply unique_short, (filter_key_short (λ d, key (fields d))). Qed.

Lemma unambiguous_bind {A B} (m : Result A) (f : A → Result B) :
  unambiguous m → (∀ a, unambiguous (f a)) → unambiguous (m ≫= f).
Proof. unfold unambiguous. intros Hm Hf. destruct m as [a|e]; [apply Hf|].
  intros [= ->]. by apply Hm.
Qed.

Lemma unambiguous_throw {A B} e : unambiguous (@Throw A e) → unambiguous (@Throw B e).
Proof. unfold unambiguous. intros H [= ->]. by apply H. Qed.

Lemma unambiguous_get k o : unambiguous (get k o).
Proof. unfold unambiguous. by destruct o as [[]|]. Qed.

Lemma unambiguous_required_string v : unambiguous (required_string v).
Proof. unfold unambiguous. by destruct v as [[]|]. Qed.

Lemma unambiguous_optional_string v : unambiguous (optional_string v).
Proof. unfold unambiguous. by destruct v as [[]|]. Qed.

Lemma unambiguous_optional_number v : unambiguous (optional_number v).
Proof. unfold unambiguous. by destruct v as [[]|]. Qed.

Lemma unambiguous_runMutation {A} fails (m : DB → Result A) db :
  unambiguous (m db) → unambiguous (runMutation fails m db).
Proof. unfold runMutation, unambiguous. by destruct fails. Qed.

Lemma optional_string_error v e : optional_string v = Throw e → e = ValidationError.
Proof. destruct v as [[]|]; simpl; congruence. Qed.

Ltac lookups Hwf :=
  unfold customers_by_paddle_customer_id, subscriptions_by_paddle_subscription_id,
    transactions_by_paddle_transaction_id, adjustments_by_paddle_adjustment_id;
  rewrite ?(unique_keyed Customer.paddleCustomerId) by apply Hwf;
  rewrite ?(unique_keyed Subscription.paddleSubscriptionId) by apply Hwf;
  rewrite ?(unique_keyed Transaction.paddleTransactionId) by apply Hwf;
  rewrite ?(unique_keyed Adjustment.paddleAdjustmentId) by apply Hwf.

Ltac no_throw :=
  unfold unambiguous; intros;
  repeat case_match; simplify_eq;
  repeat match goal with
         | H : optional_string _ = Throw _ |- _ => apply optional_string_error in H
         end;
  simplify_eq; done.

Lemma handleCustomerCreated_unambiguous args db :
  entity_wf db → unambiguous (handleCustomerCreated args db).
Proof. intros Hwf. unfold handleCustomerCreated. lookups Hwf. no_throw. Qed.

Lemma handleCustomerUpdated_unambiguous args db :
  entity_wf db → unambiguous (handleCustomerUpdated args db).
Proof. intros Hwf. unfold handleCustomerUpdated. lookups Hwf. no_throw. Qed.

Lemma handleSubscriptionUpdated_unambiguous args db :
  entity_wf db → unambiguous (handleSubscriptionUpdated args db).
Proof. intros Hwf. unfold handleSubscriptionUpdated. lookups Hwf. no_throw. Qed.

Lemma patch_subscription_unambiguous k f db :
  entity_wf db → unambiguous (patch_subscription k f db).
Proof. intros Hwf. unfold patch_subscription. lookups Hwf. no_throw. Qed.

Lemma resolve_linkage_unambiguous customData sid db :
  entity_wf db → unambiguous (resolve_linkage customData sid db).
Proof. intros Hwf. unfold resolve_linkage. lookups Hwf. no_throw. Qed.

Lemma insert_transaction_unambiguous row userId orgId db :
  unambiguous (insert_transaction row userId orgId db).
Proof. unfold insert_transaction. no_throw. Qed.

Lemma handleTransactionCreated_unambiguous args db :
  entity_wf db → unambiguous (handleTransactionCreated args db).
Proof.
  intros Hwf. unfold handleTransactionCreated. lookups Hwf.
  destruct (head _); [done|].
  pose proof (resolve_linkage_unambiguous
                (or_empty (TransactionCreatedArgs.customData args))
                (TransactionCreatedArgs.paddleSubscriptionId args) db Hwf) as Hr.
  destruct (resolve_linkage _ _ _) as [[u o]|e]; [|by eapply unambiguous_throw].
  apply insert_transaction_unambiguous.
Qed.

Lemma handleTransactionUpdated_unambiguous args db :
  entity_wf db → unambiguous (handleTransactionUpdated args db).
Proof. intros Hwf. unfold handleTransactionUpdated. lookups Hwf. no_throw. Qed.

Lemma handleTransactionCompleted_unambiguous args db :
  entity_wf db → unambiguous (handleTransactionCompleted args db).
Proof.
  intros Hwf. unfold handleTransactionCompleted. lookups Hwf.
  destruct (head _); [done|].
  pose proof (resolve_linkage_unambiguous
                (or_empty (TransactionCompletedArgs.customData args))
                (TransactionCompletedArgs.paddleSubscriptionId args) db Hwf) as Hr.
  destruct (resolve_linkage _ _ _) as [[u o]|e]; [|by eapply unambiguous_throw].
  apply insert_transaction_unambiguous.
Qed.

Lemma handleAdjustmentCreated_unambiguous args db :
  entity_wf db → unambiguous (handleAdjustmentCreated args db).
Proof. intros Hwf. unfold handleAdjustmentCreated. lookups Hwf. no_throw. Qed.

Lemma handleAdjustmentUpdated_unambiguous k st total db :
  entity_wf db → unambiguous (handleAdjustmentUpdated k st total db).
Proof. intros Hwf. unfold handleAdjustmentUpdated. lookups Hwf. no_throw. Qed.

Lemma backfill_patches_unambiguous u o l : ∀ db,
  unambiguous (backfill_patches u o l db).
Proof.
  induction l as [|txn l IH]; simpl; intros db; [done|].
  destruct (backfill_patch _ _ _ _) as [db1|e] eqn:H1; [apply IH|].
  revert H1. unfold backfill_patch, backfill_field. no_throw.
Qed.

Lemma backfill_loop_unambiguous u o k fuel : ∀ db,
  unambiguous (within_limit (backfill_loop fuel u o k db)).
Proof.
  induction fuel as [|fuel IH]; simpl; intros db; [done|].
  unfold backfill_step.
  pose proof (backfill_patches_unambiguous u o
    (filter (λ txn, needs_linkage txn = true)
       (take BATCH_SIZE (transactions_by_paddle_subscription_id k db))) db) as Hp.
  destruct (backfill_patches _ _ _ _) as [db1|e]; [|by eapply unambiguous_throw].
  destruct (_ && _); [apply IH|done].
Qed.

Lemma handleSubscriptionCreated_unambiguous fuel args db :
  entity_wf db → unambiguous (within_limit (handleSubscriptionCreated fuel args db)).
Proof.
  intros Hwf. unfold handleSubscriptionCreated. lookups Hwf.
  match goal with |- context [match ?i with Ok _ => _ | Throw _ => _ end] =>
    destruct i as [db1|e] eqn:Hi end.
  - destruct (_ || _); [apply backfill_loop_unambiguous|done].
  - simpl. revert Hi. no_throw.
Qed.

(** X16 (lookups find at most one row). When each entity table holds at most
    one row per Paddle identifier, the default processing of an event never
    fails because a lookup found more than one row. *)
Theorem processEvent_unambiguous fails limit event event_type db :
  entity_wf db →
  processEvent fails limit event event_type db ≠ Throw NotUnique.
Proof.
  intros Hwf. change (unambiguous (processEvent fails limit event event_type db)).
  unfold processEvent, string_or_undefined.
  destruct (event_case event_type) eqn:Hcase;
    repeat (apply unambiguous_bind;
            [auto using unambiguous_bind, unambiguous_get, unambiguous_required_string,
               unambiguous_optional_string, unambiguous_optional_number
            |intros ?]);
    try apply unambiguous_runMutation;
    auto using handleCustomerCreated_unambiguous, handleCustomerUpdated_unambiguous,
      handleSubscriptionCreated_unambiguous, handleSubscriptionUpdated_unambiguous,
      patch_subscription_unambiguous, handleTransactionCreated_unambiguous,
      handleTransactionUpdated_unambiguous, handleTransactionCompleted_unambiguous,
      handleAdjustmentCreated_unambiguous, handleAdjustmentUpdated_unambiguous.
  all: try by apply patch_subscription_unambiguous.
  done.
Qed.

End Unambiguous.

(** * What the backfill writes *)

Section BackfillWrites.
Implicit Types (db : DB) (d txn : Doc Transaction.t) (l t : list (Doc Transaction.t)).

Lemma Forall2_compose {A} (P Q R : A → A → Prop) (l1 l2 l3 : list A) :
  (∀ x y z, P x y → Q y z → R x z) →
  Forall2 P l1 l2 → Forall2 Q l2 l3 → Forall2 R l1 l3.
Proof.
  intros HPQ H12. revert l3. induction H12; intros l3 H23; inv H23; constructor; eauto.
Qed.

Lemma Forall2_fmap_diag {A} (Q : A → A → Prop) (h : A → A) (l : list A) :
  (∀ x, x ∈ l → Q x (h x)) → Forall2 Q l (h <$> l).
Proof.
  induction l as [|a l IH]; intros Hall; csimpl; constructor.
  - apply Hall. by left.
  - apply IH. intros x Hx. apply Hall. by right.
Qed.

Lemma with_linkage_same (r : Transaction.t) :
  with_linkage r (Transaction.userId r) (Transaction.orgId r) = r.
Proof. by destruct r. Qed.

Lemma linkage_filled_refl k d : linkage_filled k d d.
Proof.
  split_and!; [done..|]. eexists _, _. split; [by rewrite with_linkage_same|done].
Qed.

Lemma linkage_filled_trans k d1 d2 d3 :
  linkage_filled k d1 d2 → linkage_filled k d2 d3 → linkage_filled k d1 d3.
Proof.
  intros (Hid1 & Hsame1 & u1 & o1 & Hf1 & Hu1 & Ho1)
         (Hid2 & Hsame2 & u2 & o2 & Hf2 & Hu2 & Ho2).
  split_and!; [congruence| |].
  - intros Hk. rewrite Hsame2; [by apply Hsame1|]. by rewrite (Hsame1 Hk).
  - exists u2, o2. rewrite Hf2, Hf1. split; [done|].
    rewrite Hf1 in Hu2, Ho2. simpl in *.
    split; intros Ht.
    + rewrite <- (Hu1 Ht) in Ht |- *. auto.
    + rewrite <- (Ho1 Ht) in Ht |- *. auto.
Qed.

(** One patch of the backfill, applied to a row of the table. *)
Lemma backfill_patch_filled userId orgId k txn db db' :
  NoDup (_id <$> transactions db) →
  txn ∈ transactions db →
  Transaction.paddleSubscriptionId (fields txn) = Some k →
  backfill_patch userId orgId txn db = Ok db' →
  backfilled db db'
  ∧ Forall2 (λ d d',
       linkage_filled k d d'
       ∧ (_id d ≠ _id txn → d' = d)
       ∧ (d = txn →
          (truthy userId = true → truthy_str (Transaction.userId (fields d')) = true)
          ∧ (truthy orgId = true → truthy_str (Transaction.orgId (fields d')) = true)))
      (transactions db) (transactions db').
Proof.
  intros Hids Hin Hk. unfold backfill_patch, backfill_field.
  destruct (if truthy userId && _ then _ else _) as [u|] eqn:Hu; [|done].
  destruct (if truthy orgId && _ then _ else _) as [o|] eqn:Ho; [|done].
  intros [= <-]. split.
  { unfold backfilled. simpl. by rewrite tbl_patch_ids. }
  simpl. unfold tbl_patch. apply Forall2_fmap_diag. intros d Hd.
  case_decide as Hid;
    [|split_and!; [apply linkage_filled_refl|done|by intros ->]].
  assert (d = txn) as -> by (by eapply ids_inj).
  split_and!; [|done|].
  - split_and!; [done|by rewrite Hk|]. simpl. unfold backfill_row.
    eexists _, _. split; [reflexivity|].
    split; intros ->; by rewrite andb_false_r.
  - intros _. simpl. split; intros Ht; rewrite Ht in *; simpl in *.
    + destruct (truthy_str (Transaction.userId (fields txn))) eqn:Hold; simpl in *; [done|].
      destruct userId as [[]|]; simpl in *; simplify_eq; done.
    + destruct (truthy_str (Transaction.orgId (fields txn))) eqn:Hold; simpl in *; [done|].
      destruct orgId as [[]|]; simpl in *; simplify_eq; done.
Qed.

Lemma backfilled_ids db db' :
  backfilled db db' → NoDup (_id <$> transactions db) → NoDup (_id <$> transactions db').
Proof. intros (_ & _ & _ & -> & _). done. Qed.

(** The patches of one turn. *)
Lemma backfill_patches_filled userId orgId k l : ∀ db db',
  NoDup (_id <$> transactions db) →
  NoDup (_id <$> l) →
  (∀ txn, txn ∈ l →
     txn ∈ transactions db ∧ Transaction.paddleSubscriptionId (fields txn) = Some k) →
  backfill_patches userId orgId l db = Ok db' →
  Forall2 (λ d d',
     linkage_filled k d d'
     ∧ (d ∈ l →
        (truthy userId = true → truthy_str (Transaction.userId (fields d')) = true)
        ∧ (truthy orgId = true → truthy_str (Transaction.orgId (fields d')) = true)))
    (transactions db) (transactions db').
Proof.
  induction l as [|txn l IH]; simpl; intros db db' Hids Hl Hin H.
  { simplify_eq. apply Forall_Forall2_diag, Forall_forall. intros d _.
    split; [apply linkage_filled_refl|]. by intros ?%elem_of_nil. }
  destruct (backfill_patch _ _ _ _) as [db1|] eqn:H1; [|done].
  apply NoDup_cons in Hl as [Htxn Hl].
  destruct (Hin txn ltac:(left)) as [Hin_txn Hk].
  destruct (backfill_patch_filled _ _ _ _ _ _ Hids Hin_txn Hk H1) as [Hb1 Hstep].
  assert (∀ x, x ∈ l → _id x ≠ _id txn) as Hother.
  { intros x Hx Heq. apply Htxn. rewrite <- Heq. by apply list_elem_of_fmap_2. }
  assert (∀ x, x ∈ l → x ∈ transactions db1) as Hkept.
  { intros x Hx. destruct (Hin x ltac:(by right)) as [Hxin _].
    apply list_elem_of_lookup in Hxin as [i Hi].
    destruct (Forall2_lookup_l _ _ _ _ _ Hstep Hi) as (x' & Hi' & _ & Hsame & _).
    rewrite (Hsame (Hother x Hx)) in Hi'. by eapply list_elem_of_lookup_2. }
  specialize (IH db1 db' (backfilled_ids _ _ Hb1 Hids) Hl).
  eapply Forall2_compose; [|exact Hstep|apply IH]; [|intros x Hx; split..|done]; cycle 1.
  { by apply Hkept. }
  { by apply (Hin x ltac:(by right)). }
  simpl. intros d d1 d2 (Hf1 & Hsame1 & Hlink1) (Hf2 & Hlink2).
  split; [by eapply linkage_filled_trans|].
  intros [->|Hd]%elem_of_cons.
  - destruct (Hlink1 eq_refl) as [Hu Ho].
    destruct Hf2 as (_ & _ & u2 & o2 & -> & Hu2 & Ho2). simpl.
    split; intros Ht.
    + rewrite (Hu2 (Hu Ht)). auto.
    + rewrite (Ho2 (Ho Ht)). auto.
  - rewrite (Hsame1 (Hother d Hd)) in Hlink2. auto.
Qed.

Lemma backfill_step_filled userId orgId k db db' more :
  NoDup (_id <$> transactions db) →
  backfill_step userId orgId k db = Ok (db', more) →
  backfilled db db'
  ∧ Forall2 (λ d d',
       linkage_filled k d d'
       ∧ (d ∈ take BATCH_SIZE (transactions_by_paddle_subscription_id k db) →
          (truthy userId = true → truthy_str (Transaction.userId (fields d')) = true)
          ∧ (truthy orgId = true → truthy_str (Transaction.orgId (fields d')) = true)))
      (transactions db) (transactions db').
Proof.
  intros Hids. unfold backfill_step.
  destruct (backfill_patches _ _ _ _) as [db1|] eqn:Hp; [|done].
  intros [= <- _]. split; [by eapply backfill_patches_tables|].
  set (batch := take BATCH_SIZE (transactions_by_paddle_subscription_id k db)) in *.
  assert (batch `sublist_of` transactions db) as Hsub.
  { etrans; [apply sublist_take|apply sublist_filter]. }
  eapply Forall2_impl.
  - eapply (backfill_patches_filled _ _ k); [done| | |done].
    + eapply sublist_NoDup; [done|]. apply fmap_sublist.
      etrans; [apply sublist_filter|done].
    + intros txn [_ Htxn]%list_elem_of_filter. split.
      * by eapply elem_of_sublist.
      * apply elem_of_take in Htxn as (i & Hi & _).
        apply list_elem_of_lookup_2 in Hi.
        by apply list_elem_of_filter in Hi as [? _].
  - simpl. intros d d' (Hf & Hlink). split; [done|]. intros Hd.
    destruct (needs_linkage d) eqn:Hneeds.
    + apply Hlink. by apply list_elem_of_filter.
    + unfold needs_linkage in Hneeds.
      apply orb_false_iff in Hneeds as [Hu%negb_false_iff Ho%negb_false_iff].
      destruct Hf as (_ & _ & u & o & -> & Hu' & Ho'). simpl.
      by rewrite (Hu' Hu), (Ho' Ho).
Qed.

Lemma backfill_loop_filled userId orgId k fuel : ∀ db db',
  NoDup (_id <$> transactions db) →
  backfill_loop fuel userId orgId k db = Some (Ok db') →
  Forall2 (linkage_filled k) (transactions db) (transactions db').
Proof.
  induction fuel as [|fuel IH]; simpl; intros db db' Hids H; [done|].
  destruct (backfill_step _ _ _ _) as [[db1 more]|] eqn:H1; [|done].
  destruct (backfill_step_filled _ _ _ _ _ _ Hids H1) as [Hb Hstep].
  assert (Forall2 (linkage_filled k) (transactions db) (transactions db1)) as Hstep'.
  { eapply Forall2_impl; [done|]. by intros ? ? [? _]. }
  destruct more; [|by simplify_eq].
  eapply Forall2_compose; [apply linkage_filled_trans|done|].
  apply IH; [by eapply backfilled_ids|done].
Qed.

(** The rows inserted by [handleSubscriptionCreated] before the backfill. *)
Lemma handleSubscriptionCreated_loop fuel args db db' :
  handleSubscriptionCreated fuel args db = Some (Ok db') →
  let customData := or_empty (SubscriptionCreatedArgs.customData args) in
  ∃ db1, transactions db1 = transactions db
         ∧ if truthy (prop "userId" customData) || truthy (prop "orgId" customData)
           then backfill_loop fuel (prop "userId" customData) (prop "orgId" customData)
                  (SubscriptionCreatedArgs.paddleSubscriptionId args) db1 = Some (Ok db')
           else db' = db1.
Proof.
  unfold handleSubscriptionCreated. intros H.
  destruct (unique _) as [existing|] eqn:Hu; [|done].
  match type of H with context [match ?i with Ok _ => _ | Throw _ => _ end] =>
    destruct i as [db1|] eqn:Hi end; [|done].
  simpl. exists db1. split.
  { clear H. revert Hi. intros. repeat case_match; simplify_eq; done. }
  clear Hi. destruct (_ || _); [done|by simplify_eq].
Qed.

(** X17 (the backfill fills in what is missing, and nothing else). When the
    documents of [transactions] have distinct ids and
    [handleSubscriptionCreated] returns, the table holds the same documents
    in the same order; a transaction of another subscription is unchanged; a
    transaction of this subscription differs at most in [userId] and
    [orgId], and an identifier that was stored (non-empty) is unchanged. *)
Theorem backfill_fills_only_missing fuel args db db' :
  NoDup (_id <$> transactions db) →
  handleSubscriptionCreated fuel args db = Some (Ok db') →
  Forall2 (linkage_filled (SubscriptionCreatedArgs.paddleSubscriptionId args))
    (transactions db) (transactions db').
Proof.
  intros Hids (db1 & Ht & Hloop)%handleSubscriptionCreated_loop. simpl in Hloop.
  rewrite <- Ht in *. destruct (_ || _).
  - by eapply backfill_loop_filled.
  - subst. apply Forall_Forall2_diag, Forall_forall. intros d _.
    apply linkage_filled_refl.
Qed.

(** X18 (fewer transactions than a page are all linked). When the documents
    of [transactions] have distinct ids, the subscription has fewer than 100
    transactions and [handleSubscriptionCreated] returns, every transaction
    of the subscription has a user id if the custom data carries one, and an
    organisation id if the custom data carries one. *)
Theorem backfill_links_short_page fuel args db db' :
  let customData := or_empty (SubscriptionCreatedArgs.customData args) in
  let k := SubscriptionCreatedArgs.paddleSubscriptionId args in
  NoDup (_id <$> transactions db) →
  (length (transactions_by_paddle_subscription_id k db) < BATCH_SIZE)%nat →
  handleSubscriptionCreated fuel args db = Some (Ok db') →
  (truthy (prop "userId" customData) = true →
   Forall (λ r, truthy_str (Transaction.userId r) = true)
     (listTransactionsBySubscription k db'))
  ∧ (truthy (prop "orgId" customData) = true →
     Forall (λ r, truthy_str (Transaction.orgId r) = true)
       (listTransactionsBySubscription k db')).
Proof.
  intros customData k Hids Hshort (db1 & Ht & Hloop)%handleSubscriptionCreated_loop.
  fold customData k in Hloop.
  assert (transactions_by_paddle_subscription_id k db1
          = transactions_by_paddle_subscription_id k db) as Hsame
    by (unfold transactions_by_paddle_subscription_id; by rewrite Ht).
  rewrite <- Ht in Hids. rewrite <- Hsame in Hshort. clear Ht Hsame.
  assert (truthy (prop "userId" customData) || truthy (prop "orgId" customData) = true →
          Forall (λ d,
            (truthy (prop "userId" customData) = true
             → truthy_str (Transaction.userId (fields d)) = true)
            ∧ (truthy (prop "orgId" customData) = true
               → truthy_str (Transaction.orgId (fields d)) = true))
            (transactions_by_paddle_subscription_id k db')) as Hall.
  { intros Hgiven. rewrite Hgiven in Hloop.
    destruct fuel as [|fuel]; [done|]. simpl in Hloop.
    destruct (backfill_step _ _ _ _) as [[db2 more]|] eqn:Hstep; [|done].
    assert (more = false) as ->.
    { destruct more; [|done].
      destruct (proj1 (backfill_step_more _ _ _ _ _ _ Hstep) eq_refl) as [? _]. lia. }
    injection Hloop as ->.
    destruct (backfill_step_filled _ _ _ _ _ _ Hids Hstep) as [_ Hf].
    rewrite take_ge in Hf by lia.
    apply Forall_forall. intros d' [Hk Hd']%list_elem_of_filter.
    apply list_elem_of_lookup in Hd' as [i Hi].
    destruct (Forall2_lookup_r _ _ _ _ _ Hf Hi) as (d & Hd & Hfilled & Hlink).
    apply Hlink. apply list_elem_of_filter. split; [|by eapply list_elem_of_lookup_2].
    destruct Hfilled as (_ & _ & u & o & Hfields & _). by rewrite Hfields in Hk. }
  unfold listTransactionsBySubscription.
  split; intros Hgiven; apply Forall_fmap;
    (eapply Forall_impl; [apply Hall; rewrite Hgiven; by rewrite ?orb_true_r|]);
    simpl; intros d [Hu Ho]; auto.
Qed.

End BackfillWrites.

(** * Mutations seen through the queries *)

Section Queries.
Implicit Types (db : DB).

Lemma unique_filter_Some {A} (P : A → Prop) `{!∀ x, Decision (P x)} (l : list A) x :
  unique (filter P l) = Ok (Some x) → filter P l = [x] ∧ P x.
Proof.
  intros Hu%unique_Some. split; [done|].
  assert (x ∈ filter P l) as [? _]%list_elem_of_filter; [|done].
  rewrite Hu. by left.
Qed.

Lemma getCustomer_inv k db stored :
  getCustomer k db = Ok stored →
  match stored with
  | Some c => ∃ d, customers_by_paddle_customer_id k db = [d] ∧ fields d = c
                   ∧ Customer.paddleCustomerId c = k
  | None => customers_by_paddle_customer_id k db = []
  end.
Proof.
  unfold getCustomer, customers_by_paddle_customer_id.
  destruct (unique _) as [[d|]|] eqn:Hu; intros [= <-].
  - apply unique_filter_Some in Hu as [? ?]. by exists d.
  - by apply unique_None.
Qed.

Lemma getSubscription_inv k db stored :
  getSubscription k db = Ok stored →
  match stored with
  | Some s => ∃ d, subscriptions_by_paddle_subscription_id k db = [d] ∧ fields d = s
                   ∧ Subscription.paddleSubscriptionId s = k
  | None => subscriptions_by_paddle_subscription_id k db = []
  end.
Proof.
  unfold getSubscription, subscriptions_by_paddle_subscription_id.
  destruct (unique _) as [[d|]|] eqn:Hu; intros [= <-].
  - apply unique_filter_Some in Hu as [? ?]. by exists d.
  - by apply unique_None.
Qed.

Lemma getTransaction_inv k db stored :
  getTransaction k db = Ok stored →
  match stored with
  | Some x => ∃ d, transactions_by_paddle_transaction_id k db = [d] ∧ fields d = x
                   ∧ Transaction.paddleTransactionId x = k
  | None => transactions_by_paddle_transaction_id k db = []
  end.
Proof.
  unfold getTransaction, transactions_by_paddle_transaction_id.
  destruct (unique _) as [[d|]|] eqn:Hu; intros [= <-].
  - apply unique_filter_Some in Hu as [? ?]. by exists d.
  - by apply unique_None.
Qed.

(** X21 ([customer.created] keeps the stored customer). When the lookup of
    the customer succeeds, [handleCustomerCreated] returns; afterwards
    [getCustomer] gives the customer that was stored, the database being
    unchanged, or, when there was none, the customer of the event with its
    custom data ([{}] when the event has none). *)
Theorem customer_created_first_writer_wins args db stored :
  getCustomer (CustomerArgs.paddleCustomerId args) db = Ok stored →
  ∃ db',
    handleCustomerCreated args db = Ok db'
    ∧ getCustomer (CustomerArgs.paddleCustomerId args) db'
      = Ok (Some (default (customer_of_args args) stored))
    ∧ (is_Some stored → db' = db).
Proof.
  intros Hget. pose proof (getCustomer_inv _ _ _ Hget) as Hinv.
  unfold handleCustomerCreated. destruct stored as [c|].
  - destruct Hinv as (d & Hd & Hc & Hk). rewrite Hd. simpl.
    exists db. by rewrite Hget.
  - rewrite Hinv. simpl. eexists. split; [done|]. split; [|by intros [? [=]]].
    unfold getCustomer, customers_by_paddle_customer_id in *. simpl.
    rewrite (keyed_insert Customer.paddleCustomerId), Hinv. simpl.
    by rewrite decide_True.
Qed.

(** X22 (the upserts of a customer, read back). After
    [handleCustomerUpdated], [getCustomer] gives the e-mail address, name and
    status of the event; the custom data is that of the event when the
    customer existed (none when the event has none), and [{}] in place of a
    missing one when the customer was inserted. After
    [createOrUpdateCustomer], which returns the customer id, [getCustomer]
    gives the five arguments as they are. *)
Theorem customer_update_round_trip args db :
  (∀ db', handleCustomerUpdated args db = Ok db' →
     getCustomer (CustomerArgs.paddleCustomerId args) db'
     = Ok (Some (Customer.mk (CustomerArgs.paddleCustomerId args) (CustomerArgs.email args)
                   (CustomerArgs.name args) (CustomerArgs.status args)
                   (match customers_by_paddle_customer_id
                            (CustomerArgs.paddleCustomerId args) db with
                    | [] => Some (or_empty (CustomerArgs.customData args))
                    | _ => CustomerArgs.customData args
                    end))))
  ∧ (∀ id db', createOrUpdateCustomer args db = Ok (id, db') →
       id = CustomerArgs.paddleCustomerId args
       ∧ getCustomer (CustomerArgs.paddleCustomerId args) db'
         = Ok (Some (Customer.mk (CustomerArgs.paddleCustomerId args)
                       (CustomerArgs.email args) (CustomerArgs.name args)
                       (CustomerArgs.status args) (CustomerArgs.customData args)))).
Proof.
  split.
  - intros db'. unfold handleCustomerUpdated, customers_by_paddle_customer_id.
    destruct (unique _) as [[d|]|] eqn:Hu; intros [= <-].
    + apply unique_filter_Some in Hu as [Hd Hk]. rewrite Hd.
      unfold getCustomer, customers_by_paddle_customer_id. simpl.
      rewrite (keyed_patch Customer.paddleCustomerId _ _ d) by done.
      simpl. by rewrite Hk.
    + apply unique_None in Hu. rewrite Hu.
      unfold getCustomer, customers_by_paddle_customer_id. simpl.
      rewrite (keyed_insert Customer.paddleCustomerId), Hu. simpl.
      by rewrite decide_True.
  - intros id db'. unfold createOrUpdateCustomer, customers_by_paddle_customer_id.
    destruct (unique _) as [[d|]|] eqn:Hu; intros [= <- <-]; (split; [done|]).
    + apply unique_filter_Some in Hu as [Hd Hk].
      unfold getCustomer, customers_by_paddle_customer_id. simpl.
      rewrite (keyed_patch Customer.paddleCustomerId _ _ d) by done.
      simpl. by rewrite Hk.
    + apply unique_None in Hu.
      unfold getCustomer, customers_by_paddle_customer_id. simpl.
      rewrite (keyed_insert Customer.paddleCustomerId), Hu. simpl.
      by rewrite decide_True.
Qed.

(** X23 (a create event delivered again changes nothing). When
    [handleCustomerCreated], [handleTransactionCreated] or
    [handleAdjustmentCreated] has returned, the same call on the resulting
    database returns that database. *)
Theorem redelivered_create_is_noop :
  (∀ args db db',
     handleCustomerCreated args db = Ok db' → handleCustomerCreated args db' = Ok db')
  ∧ (∀ args db db',
       handleTransactionCreated args db = Ok db' →
       handleTransactionCreated args db' = Ok db')
  ∧ (∀ args db db',
       handleAdjustmentCreated args db = Ok db' →
       handleAdjustmentCreated args db' = Ok db').
Proof.
  split_and!; intros args db db'.
  - unfold handleCustomerCreated, customers_by_paddle_customer_id.
    destruct (unique _) as [[d|]|] eqn:Hu; intros [= <-]; [by rewrite Hu|].
    apply unique_None in Hu. simpl.
    rewrite (keyed_insert Customer.paddleCustomerId), Hu. simpl.
    by rewrite decide_True.
  - unfold handleTransactionCreated, transactions_by_paddle_transaction_id.
    destruct (unique _) as [[d|]|] eqn:Hu; [intros [= <-]; by rewrite Hu| |done].
    apply unique_None in Hu.
    destruct (resolve_linkage _ _ _) as [[userId orgId]|]; [|done].
    unfold insert_transaction.
    destruct (optional_string userId) as [u|]; [|done].
    destruct (optional_string orgId) as [o|]; [|done].
    intros [= <-]. simpl.
    rewrite (keyed_insert Transaction.paddleTransactionId), Hu. simpl.
    by rewrite decide_True.
  - unfold handleAdjustmentCreated, adjustments_by_paddle_adjustment_id.
    destruct (unique _) as [[d|]|] eqn:Hu; intros [= <-]; [by rewrite Hu|].
    apply unique_None in Hu. simpl.
    rewrite (keyed_insert Adjustment.paddleAdjustmentId), Hu. simpl.
    by rewrite decide_True.
Qed.

(** X24 ([transaction.completed] is an upsert that keeps the linkage). When
    [handleTransactionCompleted] returns, [getTransaction] finds the
    transaction, with status [completed]. When the transaction was stored
    before, its customer id, subscription id, total and billing time are
    those of the event where the event gives them, and every other field,
    [userId] and [orgId] among them, is as it was. *)
Theorem transaction_completed_upsert args db db' :
  handleTransactionCompleted args db = Ok db' →
  ∃ x,
    getTransaction (TransactionCompletedArgs.paddleTransactionId args) db' = Ok (Some x)
    ∧ Transaction.status x = "completed"
    ∧ ∀ old,
        getTransaction (TransactionCompletedArgs.paddleTransactionId args) db = Ok (Some old) →
        x = Transaction.mk (Transaction.paddleTransactionId old)
              (if_defined (TransactionCompletedArgs.paddleCustomerId args)
                 (Transaction.paddleCustomerId old))
              (if_defined (TransactionCompletedArgs.paddleSubscriptionId args)
                 (Transaction.paddleSubscriptionId old))
              "completed"
              (Transaction.currencyCode old)
              (if_defined (TransactionCompletedArgs.totalAmount args)
                 (Transaction.totalAmount old))
              (Transaction.collectionMode old)
              (if_defined (TransactionCompletedArgs.billedAt args) (Transaction.billedAt old))
              (Transaction.createdAt old) (Transaction.customData old)
              (Transaction.userId old) (Transaction.orgId old).
Proof.
  unfold handleTransactionCompleted.
  destruct (unique _) as [[d|]|] eqn:Hu; [| |done].
  - apply unique_filter_Some in Hu as [Hd Hk]. intros [= <-].
    eexists. split_and!.
    + unfold getTransaction, transactions_by_paddle_transaction_id in *. simpl.
      by rewrite (keyed_patch Transaction.paddleTransactionId _ _ d).
    + done.
    + intros old. unfold getTransaction. fold (transactions_by_paddle_transaction_id
        (TransactionCompletedArgs.paddleTransactionId args) db) in Hd.
      rewrite Hd. simpl. by intros [= <-].
  - apply unique_None in Hu.
    destruct (resolve_linkage _ _ _) as [[userId orgId]|]; [|done].
    unfold insert_transaction.
    destruct (optional_string userId) as [u|]; [|done].
    destruct (optional_string orgId) as [o|]; [|done].
    intros [= <-]. eexists. split_and!.
    + unfold getTransaction, transactions_by_paddle_transaction_id in *. simpl.
      rewrite (keyed_insert Transaction.paddleTransactionId), Hu. simpl.
      by rewrite decide_True.
    + done.
    + intros old. unfold getTransaction. rewrite Hu. done.
Qed.

(** X25 ([updateTransactionCustomer] never replaces a customer id). For a
    stored transaction, [updateTransactionCustomer] returns; the transaction
    read back has the given customer id when it had none (or an empty one),
    and is unchanged, as is the whole database, when it had one. No other
    table is written, no row is created. *)
Theorem updateTransactionCustomer_fills_missing t c db old :
  getTransaction t db = Ok (Some old) →
  ∃ db',
    updateTransactionCustomer t c db = Ok db'
    ∧ getTransaction t db'
      = Ok (Some (if truthy_str (Transaction.paddleCustomerId old) then old
                  else Transaction.mk (Transaction.paddleTransactionId old) (Some c)
                         (Transaction.paddleSubscriptionId old) (Transaction.status old)
                         (Transaction.currencyCode old) (Transaction.totalAmount old)
                         (Transaction.collectionMode old) (Transaction.billedAt old)
                         (Transaction.createdAt old) (Transaction.customData old)
                         (Transaction.userId old) (Transaction.orgId old)))
    ∧ (truthy_str (Transaction.paddleCustomerId old) = true → db' = db)
    ∧ backfilled db db'.
Proof.
  intros Hget. destruct (getTransaction_inv _ _ _ Hget) as (d & Hd & <- & Hk).
  unfold updateTransactionCustomer. rewrite Hd. simpl.
  destruct (truthy_str (Transaction.paddleCustomerId (fields d))) eqn:Hc; simpl.
  - exists db. by rewrite Hget.
  - eexists. split; [done|]. split_and!; [|done|].
    + unfold getTransaction, transactions_by_paddle_transaction_id in *. simpl.
      by rewrite (keyed_patch Transaction.paddleTransactionId _ _ d).
    + unfold backfilled. simpl. by rewrite tbl_patch_ids.
Qed.

Lemma patch_subscription_found k f db s :
  (∀ r, Subscription.paddleSubscriptionId (f r) = Subscription.paddleSubscriptionId r) →
  getSubscription k db = Ok (Some s) →
  ∃ db', patch_subscription k f db = Ok db'
         ∧ getSubscription k db' = Ok (Some (f s))
         ∧ customers db' = customers db ∧ transactions db' = transactions db
         ∧ adjustments db' = adjustments db ∧ webhook_events db' = webhook_events db.
Proof.
  intros Hf Hget. destruct (getSubscription_inv _ _ _ Hget) as (d & Hd & <- & Hk).
  unfold patch_subscription. rewrite Hd. simpl. eexists. split; [done|].
  split_and!; try done.
  unfold getSubscription, subscriptions_by_paddle_subscription_id in *. simpl.
  by rewrite (keyed_patch Subscription.paddleSubscriptionId _ _ d).
Qed.

(** X26 (the patches of a subscription, read back). For a stored
    subscription: after [handleSubscriptionPaused] and then
    [handleSubscriptionResumed] it is [active], without [pausedAt], with the
    next billing time of the resumption, and otherwise as it was; after
    [handleSubscriptionCanceled] and then [handleSubscriptionResumed] it is
    [active] without scheduled change, and still carries [canceledAt]; after
    [updateSubscriptionQuantityInternal] it differs in the quantity
    only. *)
Theorem subscription_patches_round_trip k db s :
  getSubscription k db = Ok (Some s) →
  (∀ pausedAt nextBilledAt,
     ∃ db1 db2,
       handleSubscriptionPaused k pausedAt db = Ok db1
       ∧ handleSubscriptionResumed k nextBilledAt db1 = Ok db2
       ∧ getSubscription k db2
         = Ok (Some (Subscription.mk (Subscription.paddleSubscriptionId s)
                       (Subscription.paddleCustomerId s) "active" (Subscription.priceId s)
                       (Subscription.quantity s) (Subscription.scheduledChange s)
                       (Subscription.currentBillingPeriodStart s)
                       (Subscription.currentBillingPeriodEnd s)
                       nextBilledAt None (Subscription.canceledAt s)
                       (Subscription.customData s) (Subscription.userId s)
                       (Subscription.orgId s))))
  ∧ (∀ canceledAt nextBilledAt,
       ∃ db1 db2,
         handleSubscriptionCanceled k canceledAt db = Ok db1
         ∧ handleSubscriptionResumed k nextBilledAt db1 = Ok db2
         ∧ getSubscription k db2
           = Ok (Some (Subscription.mk (Subscription.paddleSubscriptionId s)
                         (Subscription.paddleCustomerId s) "active" (Subscription.priceId s)
                         (Subscription.quantity s) None
                         (Subscription.currentBillingPeriodStart s)
                         (Subscription.currentBillingPeriodEnd s)
                         nextBilledAt None canceledAt
                         (Subscription.customData s) (Subscription.userId s)
                         (Subscription.orgId s))))
  ∧ (∀ quantity,
       ∃ db1,
         updateSubscriptionQuantityInternal k quantity db = Ok db1
         ∧ getSubscription k db1
           = Ok (Some (Subscription.mk (Subscription.paddleSubscriptionId s)
                         (Subscription.paddleCustomerId s) (Subscription.status s)
                         (Subscription.priceId s) (Some quantity)
                         (Subscription.scheduledChange s)
                         (Subscription.currentBillingPeriodStart s)
                         (Subscription.currentBillingPeriodEnd s)
                         (Subscription.nextBilledAt s) (Subscription.pausedAt s)
                         (Subscription.canceledAt s) (Subscription.customData s)
                         (Subscription.userId s) (Subscription.orgId s)))).
Proof.
  intros Hget.
  split_and!; intros;
    unfold handleSubscriptionPaused, handleSubscriptionCanceled, handleSubscriptionResumed,
      updateSubscriptionQuantityInternal;
    repeat
      match goal with
      | Hs : getSubscription k ?db0 = Ok (Some _)
        |- context [patch_subscription k ?f ?db0] =>
          let db1 := fresh "db1" in
          let Hp := fresh "Hp" in
          let Hg := fresh "Hg" in
          destruct (patch_subscription_found k f db0 _ ltac:(done) Hs)
            as (db1 & Hp & Hg & _);
          clear Hs; exists db1; simpl in Hg
      end;
    split_and!; done.
Qed.

(** X27 (the subscription of an organisation). [getSubscriptionByOrgId]
    answers [null] exactly when no subscription has the organisation id;
    otherwise it answers a stored subscription of the organisation, which is
    [active] if any subscription of the organisation is, and is the oldest
    one if none is. *)
Theorem getSubscriptionByOrgId_prefers_active orgId db :
  match getSubscriptionByOrgId orgId db with
  | None =>
      ∀ d, d ∈ subscriptions db → Subscription.orgId (fields d) ≠ Some orgId
  | Some s =>
      Subscription.orgId s = Some orgId
      ∧ (∃ d, d ∈ subscriptions db ∧ fields d = s)
      ∧ (Subscription.status s = "active"
         ∨ (∀ d, d ∈ subscriptions db → Subscription.orgId (fields d) = Some orgId →
                 Subscription.status (fields d) ≠ "active")
           ∧ ∃ first, head (subscriptions_by_org_id orgId db) = Some first
                      ∧ fields first = s)
  end.
Proof.
  unfold getSubscriptionByOrgId.
  destruct (subscriptions_by_org_id orgId db) as [|first rest] eqn:Hl.
  - intros d Hd Horg.
    assert (d ∈ subscriptions_by_org_id orgId db) as Hin
      by (by apply list_elem_of_filter).
    rewrite Hl in Hin. by apply elem_of_nil in Hin.
  - assert (∀ d, d ∈ first :: rest →
              Subscription.orgId (fields d) = Some orgId ∧ d ∈ subscriptions db) as Hin.
    { intros d. rewrite <- Hl. unfold subscriptions_by_org_id.
      by rewrite list_elem_of_filter. }
    destruct (List.find _ _) as [active|] eqn:Hfind; simpl.
    + apply List.find_some in Hfind as [Hactive%list_elem_of_In Hst%String.eqb_eq].
      destruct (Hin _ Hactive) as [Horg Hsub].
      split_and!; [done|by exists active|by left].
    + destruct (Hin first ltac:(left)) as [Horg Hsub].
      split_and!; [done|by exists first|right].
      split; [|by exists first].
      intros d Hd Hd_org Hst.
      assert (d ∈ first :: rest) as Hd'.
      { rewrite <- Hl. by apply list_elem_of_filter. }
      apply list_elem_of_In in Hd'.
      apply (List.find_none _ _ Hfind) in Hd'. by rewrite Hst in Hd'.
Qed.

(** X28 (fields written by [transaction.updated]). When the lookup of the
    transaction succeeds, [handleTransactionUpdated] returns. It changes
    nothing when the transaction is not stored; otherwise the transaction
    read back has the status of the event, the total, billing time and
    custom data of the event where the event gives them, and every other
    field as it was (customer, subscription, currency, collection mode,
    creation time, [userId], [orgId]); no row is created or deleted. *)
Theorem transaction_update_frame args db stored :
  getTransaction (TransactionUpdatedArgs.paddleTransactionId args) db = Ok stored →
  ∃ db',
    handleTransactionUpdated args db = Ok db'
    ∧ match stored with
      | None => db' = db
      | Some old =>
          getTransaction (TransactionUpdatedArgs.paddleTransactionId args) db'
          = Ok (Some (Transaction.mk (Transaction.paddleTransactionId old)
                        (Transaction.paddleCustomerId old)
                        (Transaction.paddleSubscriptionId old)
                        (TransactionUpdatedArgs.status args)
                        (Transaction.currencyCode old)
                        (if_defined (TransactionUpdatedArgs.totalAmount args)
                           (Transaction.totalAmount old))
                        (Transaction.collectionMode old)
                        (if_defined (TransactionUpdatedArgs.billedAt args)
                           (Transaction.billedAt old))
                        (Transaction.createdAt old)
                        (if_defined (TransactionUpdatedArgs.customData args)
                           (Transaction.customData old))
                        (Transaction.userId old) (Transaction.orgId old)))
          ∧ same_rows db db'
      end.
Proof.
  intros Hget. pose proof (getTransaction_inv _ _ _ Hget) as Hinv.
  unfold handleTransactionUpdated. destruct stored as [old|].
  - destruct Hinv as (d & Hd & <- & Hk). rewrite Hd. simpl.
    eexists. split; [done|]. split.
    + unfold getTransaction, transactions_by_paddle_transaction_id in *. simpl.
      by rewrite (keyed_patch Transaction.paddleTransactionId _ _ d).
    + unfold same_rows. simpl. by rewrite tbl_patch_ids.
  - rewrite Hinv. simpl. by exists db.
Qed.

Lemma handleSubscriptionCreated_subscription fuel args db db' :
  handleSubscriptionCreated fuel args db = Some (Ok db') →
  let k := SubscriptionCreatedArgs.paddleSubscriptionId args in
  let customData := or_empty (SubscriptionCreatedArgs.customData args) in
  ∃ db1,
    subscriptions db' = subscriptions db1
    ∧ match unique (subscriptions_by_paddle_subscription_id k db) with
      | Ok (Some _) => db1 = db
      | Ok None =>
          ∃ u o,
            optional_string (prop "userId" customData) = Ok u
            ∧ optional_string (prop "orgId" customData) = Ok o
            ∧ subscriptions db1
              = tbl_insert (next_id db)
                  (Subscription.mk k
                     (SubscriptionCreatedArgs.paddleCustomerId args)
                     (SubscriptionCreatedArgs.status args)
                     (SubscriptionCreatedArgs.priceId args)
                     (SubscriptionCreatedArgs.quantity args)
                     (SubscriptionCreatedArgs.scheduledChange args)
                     (SubscriptionCreatedArgs.currentBillingPeriodStart args)
                     (SubscriptionCreatedArgs.currentBillingPeriodEnd args)
                     (SubscriptionCreatedArgs.nextBilledAt args)
                     None None (Some customData) u o)
                  (subscriptions db)
      | Throw _ => False
      end.
Proof.
  unfold handleSubscriptionCreated. intros H.
  destruct (unique _) as [existing|] eqn:Hu; [|done].
  match type of H with context [match ?i with Ok _ => _ | Throw _ => _ end] =>
    destruct i as [db1|] eqn:Hi end; [|done].
  simpl. exists db1. split.
  - clear Hi. destruct (_ || _); [|by simplify_eq].
    by apply backfill_loop_tables in H as (_ & -> & _).
  - clear H. destruct existing as [s|]; [by simplify_eq|].
    destruct (optional_string (prop "userId" _)) as [u|]; [|done].
    destruct (optional_string (prop "orgId" _)) as [o|]; [|done].
    exists u, o. by simplify_eq.
Qed.

(** X29 ([subscription.created] keeps the stored subscription). When the
    lookup of the subscription succeeds and [handleSubscriptionCreated]
    returns: a subscription that was stored is read back as it was, and the
    table of subscriptions is unchanged; when none was stored, the one read
    back has the fields of the event, no [pausedAt] and [canceledAt], the
    custom data ([{}] when the event has none) and its [userId] and
    [orgId]. *)
Theorem subscription_created_first_writer_wins fuel args db db' stored :
  getSubscription (SubscriptionCreatedArgs.paddleSubscriptionId args) db = Ok stored →
  handleSubscriptionCreated fuel args db = Some (Ok db') →
  match stored with
  | Some s =>
      subscriptions db' = subscriptions db
      ∧ getSubscription (SubscriptionCreatedArgs.paddleSubscriptionId args) db' = Ok (Some s)
  | None =>
      let customData := or_empty (SubscriptionCreatedArgs.customData args) in
      ∃ u o,
        optional_string (prop "userId" customData) = Ok u
        ∧ optional_string (prop "orgId" customData) = Ok o
        ∧ getSubscription (SubscriptionCreatedArgs.paddleSubscriptionId args) db'
          = Ok (Some (Subscription.mk
                        (SubscriptionCreatedArgs.paddleSubscriptionId args)
                        (SubscriptionCreatedArgs.paddleCustomerId args)
                        (SubscriptionCreatedArgs.status args)
                        (SubscriptionCreatedArgs.priceId args)
                        (SubscriptionCreatedArgs.quantity args)
                        (SubscriptionCreatedArgs.scheduledChange args)
                        (SubscriptionCreatedArgs.currentBillingPeriodStart args)
                        (SubscriptionCreatedArgs.currentBillingPeriodEnd args)
                        (SubscriptionCreatedArgs.nextBilledAt args)
                        None None (Some customData) u o))
  end.
Proof.
  intros Hget (db1 & Hsubs & Hins)%handleSubscriptionCreated_subscription.
  simpl in Hins.
  pose proof (getSubscription_inv _ _ _ Hget) as Hinv.
  assert (∀ db2, subscriptions db2 = subscriptions db' →
            getSubscription (SubscriptionCreatedArgs.paddleSubscriptionId args) db2
            = getSubscription (SubscriptionCreatedArgs.paddleSubscriptionId args) db')
    as Hsame.
  { intros db2 Heq. unfold getSubscription, subscriptions_by_paddle_subscription_id.
    by rewrite Heq. }
  destruct stored as [s|].
  - destruct Hinv as (d & Hd & _). rewrite Hd in Hins. simpl in Hins. subst db1.
    split; [done|]. by rewrite <- (Hsame db).
  - rewrite Hinv in Hins. simpl in Hins. destruct Hins as (u & o & Hu & Ho & Hrow).
    exists u, o. split; [done|]. split; [done|].
    rewrite <- (Hsame db1) by done.
    unfold getSubscription, subscriptions_by_paddle_subscription_id in *.
    rewrite Hrow, (keyed_insert Subscription.paddleSubscriptionId), Hinv. simpl.
    by rewrite decide_True.
Qed.

End Queries.

(** * The theorems at sample data *)

Lemma honest_signature_accepted_witness :
  verifyPaddleWebhookSignature sample_hmac 1700000100000 "evt_3" "pdl_ntfset_secret"
    ("ts=" +:+ pretty 1700000000 +:+ ";h1="
     +:+ hex_encode [Byte.xde; Byte.xad; Byte.xbe; Byte.xef]) = true.
Proof.
  apply (honest_signature_accepted sample_hmac 1700000100000 "evt_3" "pdl_ntfset_secret"
           1700000000 [Byte.xde; Byte.xad; Byte.xbe; Byte.xef]).
  - vm_compute. discriminate.
  - reflexivity.
  - discriminate.
Defined.

Lemma hex_encode_inj_witness :
  [Byte.xde; Byte.xad] = [Byte.xde; Byte.xad].
Proof.
  apply (hex_encode_inj [Byte.xde; Byte.xad] [Byte.xde; Byte.xad]). reflexivity.
Defined.

Lemma empty_entity_wf : entity_wf empty_db.
Proof. split; simpl; constructor. Qed.

Lemma processEvent_tables_witness :
  subscriptions ctm_1_db = [] ∧ transactions ctm_1_db = [] ∧ adjustments ctm_1_db = [].
Proof.
  apply (processEvent_tables false 1000 ctm_1_created "customer.created" empty_db ctm_1_db).
  reflexivity.
Defined.

Lemma processEvent_keeps_keys_witness : entity_wf ctm_1_db.
Proof.
  apply (processEvent_keeps_keys false 1000 ctm_1_created "customer.created" empty_db).
  - apply empty_entity_wf.
  - reflexivity.
Defined.

Lemma processEvent_unambiguous_witness :
  processEvent false 1000 ctm_1_created "customer.created" empty_db ≠ Throw NotUnique.
Proof.
  apply (processEvent_unambiguous false 1000 ctm_1_created "customer.created" empty_db).
  apply empty_entity_wf.
Defined.

Lemma two_early_ids : NoDup (_id <$> transactions two_early_db).
Proof.
  vm_compute. apply NoDup_cons. split; [|apply NoDup_singleton].
  by intros [=]%list_elem_of_singleton.
Qed.

Lemma backfill_fills_only_missing_witness :
  Forall2 (linkage_filled "sub_1") (transactions two_early_db) (transactions two_linked_db).
Proof.
  apply (backfill_fills_only_missing 1 sub_1_created two_early_db two_linked_db).
  - apply two_early_ids.
  - vm_compute. reflexivity.
Defined.

Lemma backfill_links_short_page_witness :
  (truthy (Some (VString "user_1")) = true →
   Forall (λ r, truthy_str (Transaction.userId r) = true)
     (listTransactionsBySubscription "sub_1" two_linked_db))
  ∧ (truthy None = true →
     Forall (λ r, truthy_str (Transaction.orgId r) = true)
       (listTransactionsBySubscription "sub_1" two_linked_db)).
Proof.
  apply (backfill_links_short_page 1 sub_1_created two_early_db two_linked_db).
  - apply two_early_ids.
  - vm_compute. lia.
  - vm_compute. reflexivity.
Defined.

Lemma backfill_stops_with_both_witness :
  ∃ db', backfill_loop 2 (Some (VString "user_1")) (Some (VString "org_1")) "sub_1"
           early_transactions_db = Some (Ok db').
Proof.
  apply (backfill_stops_with_both "user_1" "org_1"); discriminate.
Defined.

Lemma backfill_short_page_witness :
  ∃ r, backfill_loop 1 (Some (VString "user_1")) None "sub_1" two_early_db = Some r.
Proof.
  apply (backfill_short_page (Some (VString "user_1")) None "sub_1" two_early_db 0).
  vm_compute. lia.
Defined.

Lemma redelivered_create_is_noop_witness :
  handleCustomerCreated ctm_1_args ctm_1_db = Ok ctm_1_db.
Proof.
  apply (proj1 redelivered_create_is_noop ctm_1_args empty_db ctm_1_db). reflexivity.
Defined.

Lemma customer_created_first_writer_wins_witness :
  ∃ db',
    handleCustomerCreated ctm_1_args empty_db = Ok db'
    ∧ getCustomer "ctm_1" db' = Ok (Some (customer_of_args ctm_1_args))
    ∧ (is_Some (@None Customer.t) → db' = empty_db).
Proof.
  apply (customer_created_first_writer_wins ctm_1_args empty_db None). reflexivity.
Defined.

Lemma customer_update_round_trip_witness :
  getCustomer "ctm_1" ctm_1_db
  = Ok (Some (Customer.mk "ctm_1" (Some "ada@example.com") None None (Some (VObject ∅)))).
Proof.
  apply (proj1 (customer_update_round_trip ctm_1_args empty_db) ctm_1_db). reflexivity.
Defined.

Lemma transaction_completed_upsert_witness :
  ∃ x,
    getTransaction "txn_1"
      (mkDB [] []
         [mkDoc 0%nat
            (Transaction.mk "txn_1" (Some "ctm_1") (Some "sub_1") "completed" None
               (Some "1000") None (Some "2024-01-02T00:00:00Z") None (Some (VObject ∅))
               None None)] [] [] 1%nat)
    = Ok (Some x)
    ∧ Transaction.status x = "completed"
    ∧ ∀ old,
        getTransaction "txn_1" empty_db = Ok (Some old) →
        x = Transaction.mk (Transaction.paddleTransactionId old)
              (if_defined (Some "ctm_1") (Transaction.paddleCustomerId old))
              (if_defined (Some "sub_1") (Transaction.paddleSubscriptionId old))
              "completed"
              (Transaction.currencyCode old)
              (if_defined (Some "1000") (Transaction.totalAmount old))
              (Transaction.collectionMode old)
              (if_defined (Some "2024-01-02T00:00:00Z") (Transaction.billedAt old))
              (Transaction.createdAt old) (Transaction.customData old)
              (Transaction.userId old) (Transaction.orgId old).
Proof.
  apply (transaction_completed_upsert txn_1_completed empty_db). reflexivity.
Defined.

Lemma updateTransactionCustomer_fills_missing_witness :
  ∃ db',
    updateTransactionCustomer "txn_9" "ctm_1" guest_transaction_db = Ok db'
    ∧ getTransaction "txn_9" db'
      = Ok (Some (Transaction.mk "txn_9" (Some "ctm_1") None "ready" (Some "USD")
                    (Some "1000") None None None (Some (VObject ∅)) None None))
    ∧ (false = true → db' = guest_transaction_db)
    ∧ backfilled guest_transaction_db db'.
Proof.
  apply (updateTransactionCustomer_fills_missing "txn_9" "ctm_1" guest_transaction_db
           guest_transaction).
  reflexivity.
Defined.

Lemma subscription_patches_round_trip_witness :
  ∃ db1 db2,
    handleSubscriptionPaused "sub_1" (Some "2024-01-15") sub_1_db = Ok db1
    ∧ handleSubscriptionResumed "sub_1" (Some "2024-02-01") db1 = Ok db2
    ∧ getSubscription "sub_1" db2 = Ok (Some (fields sub_1)).
Proof.
  apply (proj1 (subscription_patches_round_trip "sub_1" sub_1_db (fields sub_1) eq_refl)
           (Some "2024-01-15") (Some "2024-02-01")).
Defined.

Lemma transaction_update_frame_witness :
  ∃ db',
    handleTransactionUpdated
      (TransactionUpdatedArgs.mk "txn_9" "paid" None (Some "2024-01-02T00:00:00Z") None)
      guest_transaction_db = Ok db'
    ∧ getTransaction "txn_9" db'
      = Ok (Some (Transaction.mk "txn_9" None None "paid" (Some "USD") (Some "1000") None
                    (Some "2024-01-02T00:00:00Z") None (Some (VObject ∅)) None None))
      ∧ same_rows guest_transaction_db db'.
Proof.
  apply (transaction_update_frame
           (TransactionUpdatedArgs.mk "txn_9" "paid" None (Some "2024-01-02T00:00:00Z") None)
           guest_transaction_db (Some guest_transaction)).
  reflexivity.
Defined.

Lemma subscription_created_first_writer_wins_witness :
  ∃ u o,
    optional_string (Some (VString "user_1")) = Ok u
    ∧ optional_string None = Ok o
    ∧ getSubscription "sub_1" two_linked_db
      = Ok (Some (Subscription.mk "sub_1" "ctm_1" "active" "pri_1" (Some 1) None None None
                    None None None (Some (VObject {[ "userId" := VString "user_1" ]})) u o)).
Proof.
  apply (subscription_created_first_writer_wins 1 sub_1_created two_early_db two_linked_db
           None).
  - reflexivity.
  - vm_compute. reflexivity.
Defined.

(** * The signature scheme *)

Section SignatureSchemeFacts.

Import SignatureScheme.

(** ** Fields *)

Lemma free_of_other c s :
  free_of c s ↔ forallb (other_than c) (list_ascii_of_string s) = true.
Proof.
  unfold free_of. induction s as [|x s IH]; simpl.
  - split; [done|constructor].
  - rewrite Forall_cons, andb_true_iff, IH. unfold other_than.
    rewrite negb_true_iff, Ascii.eqb_neq. tauto.
Qed.

Lemma append_assoc (a b c : string) : (a +:+ b) +:+ c = a +:+ (b +:+ c).
Proof. induction a as [|x a IH]; [done|]. rewrite !append_cons. by rewrite IH. Qed.

Lemma append_inj_l (a b c : string) : a +:+ b = a +:+ c → b = c.
Proof. induction a as [|x a IH]; [done|]. rewrite !append_cons. intros [= ?]. auto. Qed.

Lemma split_nonempty sep s : split sep s ≠ [].
Proof.
  destruct s as [|c s]; [done|]. simpl.
  destruct (Ascii.eqb c sep); [done|]. by destruct (split sep s).
Qed.

Lemma split_parts_free sep s : Forall (free_of sep) (split sep s).
Proof.
  induction s as [|c s IH]; simpl.
  - repeat constructor.
  - destruct (Ascii.eqb_spec c sep) as [->|Hc].
    + constructor; [constructor|done].
    + destruct (split sep s) as [|hd tl].
      * repeat constructor. done.
      * apply Forall_cons in IH as [Hhd Htl].
        constructor; [|done]. by constructor.
Qed.

Lemma concat_cons_char sep c hd tl :
  String.concat sep (String c hd :: tl) = String c (String.concat sep (hd :: tl)).
Proof. by destruct tl. Qed.

Lemma concat_split sep s : String.concat (String sep "") (split sep s) = s.
Proof.
  induction s as [|c s IH]; [done|]. simpl.
  destruct (Ascii.eqb_spec c sep) as [->|Hc].
  - pose proof (split_nonempty sep s) as Hne.
    destruct (split sep s) as [|hd tl]; [done|].
    change (String.concat (String sep "") ("" :: hd :: tl))
      with (String sep (String.concat (String sep "") (hd :: tl))).
    by rewrite IH.
  - pose proof (split_nonempty sep s) as Hne.
    destruct (split sep s) as [|hd tl]; [done|].
    by rewrite concat_cons_char, IH.
Qed.

Lemma split_concat sep fs :
  fs ≠ [] → Forall (free_of sep) fs →
  split sep (String.concat (String sep "") fs) = fs.
Proof.
  induction fs as [|x fs IH]; [done|]. intros _ [Hx Hfs]%Forall_cons.
  destruct fs as [|y fs].
  - simpl. by apply split_free, free_of_other.
  - change (String.concat (String sep "") (x :: y :: fs))
      with (x +:+ String sep (String.concat (String sep "") (y :: fs))).
    rewrite split_field by by apply free_of_other.
    by rewrite IH.
Qed.

Lemma fields_of_split header fs : fields_of header fs ↔ split ";" header = fs.
Proof.
  split.
  - intros (-> & Hne & Hfree). by apply split_concat.
  - intros <-. split_and!.
    + by rewrite concat_split.
    + apply split_nonempty.
    + apply split_parts_free.
Qed.

Lemma find_first {A} (f : A → bool) l x :
  List.find f l = Some x
  ↔ ∃ before after, l = before ++ x :: after
      ∧ Forall (λ y, f y = false) before ∧ f x = true.
Proof.
  induction l as [|y l IH]; simpl.
  - split; [done|]. intros ([|??] & ? & ? & _); done.
  - destruct (f y) eqn:Hy.
    + split.
      * intros [= ->]. by exists [], l.
      * intros ([|z before] & after & Heq & Hbefore & Hx).
        -- by injection Heq as -> _.
        -- injection Heq as -> _. apply Forall_cons in Hbefore as [Hz _]. congruence.
    + rewrite IH. split.
      * intros (before & after & -> & Hbefore & Hx).
        exists (y :: before), after. split_and!; [done| |done]. by constructor.
      * intros ([|z before] & after & Heq & Hbefore & Hx).
        -- injection Heq as -> _. congruence.
        -- injection Heq as -> ->. apply Forall_cons in Hbefore as [_ Hbefore].
           by exists before, after.
Qed.

Lemma prefix_iff p s : String.prefix p s = true ↔ ∃ rest, s = p +:+ rest.
Proof.
  revert s. induction p as [|c p IH]; intros s.
  - split; [|by destruct s]. intros _. by exists s.
  - destruct s as [|d s]; simpl.
    + split; [done|]. by intros (rest & ?).
    + destruct (ascii_dec c d) as [->|Hcd].
      * rewrite IH. split; intros (rest & Heq); exists rest.
        -- by rewrite append_cons, <- Heq.
        -- rewrite append_cons in Heq. by injection Heq.
      * split; [done|]. intros (rest & Heq). rewrite append_cons in Heq.
        injection Heq as ??. by subst.
Qed.

Lemma named_startsWith name field :
  startsWith (name +:+ "=") field = true ↔ named name field.
Proof.
  unfold startsWith, named. rewrite prefix_iff.
  by setoid_rewrite append_assoc.
Qed.

Lemma value_of_split name field value :
  free_of "=" name →
  named name field →
  split "=" field !! 1%nat = Some value ↔ value_of name field value.
Proof.
  intros Hname%free_of_other (rest & ->).
  unfold value_of.
  change (name +:+ "=" +:+ rest) with (name +:+ String "=" rest).
  rewrite split_field by done. simpl. split.
  - intros Hv.
    pose proof (concat_split "=" rest) as Hrest.
    pose proof (split_parts_free "=" rest) as Hfree.
    destruct (split "=" rest) as [|v others]; [done|].
    injection Hv as ->. apply Forall_cons in Hfree as [Hvalue _].
    split; [done|].
    destruct others as [|o others].
    + left. simpl in Hrest. by rewrite Hrest.
    + right. eexists. by rewrite <- Hrest.
  - intros [Hvalue%free_of_other [Heq|(more & Heq)]].
    + apply append_inj_l in Heq. injection Heq as ->. rewrite ?append_nil. by rewrite split_free.
    + apply append_inj_l in Heq. injection Heq as ->.
      change (value +:+ "=" +:+ more) with (value +:+ String "=" more).
      rewrite append_nil. by rewrite split_field.
Qed.

Lemma header_field_first name header value :
  free_of "=" name →
  header_field name header = Some value ↔ first_field name header value.
Proof.
  intros Hname. unfold header_field, first_field. split.
  - destruct (List.find _ _) as [field|] eqn:Hfind; [|done].
    apply find_first in Hfind as (before & after & Hsplit & Hbefore & Hfield).
    apply named_startsWith in Hfield. intros Hvalue.
    exists before, field, after. split_and!.
    + by apply fields_of_split.
    + eapply Forall_impl; [exact Hbefore|]. simpl.
      intros f Hf Hnamed%named_startsWith. congruence.
    + by apply value_of_split.
  - intros (before & field & after & Hfields%fields_of_split & Hbefore & Hvalue).
    assert (named name field) as Hnamed.
    { destruct Hvalue as [_ [->|(more & ->)]]; eexists; done. }
    assert (List.find (startsWith (name +:+ "=")) (split ";" header) = Some field) as ->.
    { apply find_first. exists before, after. split_and!; [done| |by apply named_startsWith].
      eapply Forall_impl; [exact Hbefore|]. simpl.
      intros f Hf. destruct (startsWith _ f) eqn:Hs; [|done].
      by apply named_startsWith in Hs. }
    by apply (value_of_split name field value Hname Hnamed).
Qed.

(** ** Integers *)

Lemma white_space_iff c : is_white_space c = true ↔ white_space c.
Proof.
  unfold is_white_space, white_space. cbv zeta.
  rewrite !orb_true_iff, andb_true_iff, !N.leb_le, !N.eqb_eq.
  rewrite !elem_of_cons, elem_of_nil. lia.
Qed.

Lemma digit_value_iff c d :
  digit_value c = Some d ↔ digit c ∧ d = Z.of_N (N_of_ascii c) - 48.
Proof.
  unfold digit_value, digit. cbv zeta.
  destruct (_ && _) eqn:Hc.
  - apply andb_true_iff in Hc as [?%Z.leb_le ?%Z.leb_le].
    split; [intros [= <-]; lia|]. by intros [_ ->].
  - apply andb_false_iff in Hc as [?%Z.leb_gt| ?%Z.leb_gt]; (split; [done|lia]).
Qed.

Lemma digit_value_none c : digit_value c = None ↔ ¬ digit c.
Proof.
  destruct (digit_value c) as [d|] eqn:Hd.
  - apply digit_value_iff in Hd as [? _]. split; [done|tauto].
  - split; [|done]. intros _ Hc.
    assert (digit_value c = Some (Z.of_N (N_of_ascii c) - 48)) by by apply digit_value_iff.
    congruence.
Qed.

Lemma trim_start_span s :
  ∃ space, s = space +:+ trim_start s
    ∧ Forall white_space (list_ascii_of_string space)
    ∧ starts_without white_space (trim_start s).
Proof.
  induction s as [|c s (space & Heq & Hspace & Hrest)].
  - by exists "".
  - simpl. destruct (is_white_space c) eqn:Hc.
    + exists (String c space). rewrite append_cons, <- Heq. split_and!; [done| |done].
      constructor; [by apply white_space_iff|done].
    + exists "". split_and!; [done|constructor|]. simpl.
      rewrite <- white_space_iff. congruence.
Qed.

Lemma trim_start_append space s :
  Forall white_space (list_ascii_of_string space) →
  starts_without white_space s →
  trim_start (space +:+ s) = s.
Proof.
  intros Hspace Hs. induction space as [|c space IH].
  - rewrite append_nil. destruct s as [|c s]; [done|]. simpl in *.
    destruct (is_white_space c) eqn:Hc; [|done]. by apply white_space_iff in Hc.
  - simpl in Hspace. apply Forall_cons in Hspace as [Hc%white_space_iff Hspace].
    rewrite append_cons. simpl. rewrite Hc. auto.
Qed.

Lemma digits_span s :
  ∃ digits rest, s = digits +:+ rest
    ∧ Forall digit (list_ascii_of_string digits)
    ∧ starts_without digit rest.
Proof.
  induction s as [|c s (digits & rest & Heq & Hdigits & Hrest)].
  - by exists "", "".
  - destruct (digit_value c) as [d|] eqn:Hc.
    + apply digit_value_iff in Hc as [Hc _].
      exists (String c digits), rest. rewrite append_cons, <- Heq.
      split_and!; [done| |done]. by constructor.
    + apply digit_value_none in Hc. exists "", (String c s).
      split_and!; [done|constructor|done].
Qed.

Lemma parse_digits_number digits rest acc :
  Forall digit (list_ascii_of_string digits) →
  starts_without digit rest →
  parse_digits (digits +:+ rest) acc
  = match digits with
    | EmptyString => acc
    | String _ _ =>
        Some (default 0 acc * 10 ^ Z.of_nat (String.length digits) + number digits)
    end.
Proof.
  intros Hdigits Hrest. revert acc.
  induction digits as [|c digits IH]; intros acc.
  - rewrite append_nil. destruct rest as [|c rest]; [done|]. simpl in *.
    apply digit_value_none in Hrest. by rewrite Hrest.
  - simpl in Hdigits. apply Forall_cons in Hdigits as [Hc Hdigits].
    rewrite append_cons. simpl parse_digits.
    assert (digit_value c = Some (Z.of_N (N_of_ascii c) - 48)) as ->
      by by apply digit_value_iff.
    rewrite IH by done.
    destruct digits as [|c' digits'] eqn:Hd.
    + simpl. f_equal. lia.
    + rewrite <- Hd. f_equal. cbn [default].
      change (number (String c digits))
        with ((Z.of_N (N_of_ascii c) - 48) * 10 ^ Z.of_nat (String.length digits)
              + number digits).
      change (String.length (String c digits)) with (S (String.length digits)).
      rewrite Nat2Z.inj_succ, Z.pow_succ_r by lia. unfold id. ring.
Qed.

Lemma parseInt_cases s :
  parseInt s
  = match trim_start s with
    | EmptyString => None
    | String c rest =>
        if decide (c = "-"%char) then Z.opp <$> parse_digits rest None
        else if decide (c = "+"%char) then parse_digits rest None
        else parse_digits (String c rest) None
    end.
Proof.
  unfold parseInt. destruct (trim_start s) as [|c rest]; [done|].
  by destruct c as [[] [] [] [] [] [] [] []].
Qed.

Lemma digit_not_white c : digit c → ¬ white_space c.
Proof.
  unfold digit, white_space. rewrite !elem_of_cons, elem_of_nil. lia.
Qed.

Lemma digit_not_sign c : digit c → c ≠ "-"%char ∧ c ≠ "+"%char.
Proof. unfold digit. intros Hc. split; intros ->; simpl in Hc; lia. Qed.

Lemma parseInt_leading ts n : parseInt ts = Some n ↔ leading_integer ts n.
Proof.
  rewrite parseInt_cases. split.
  - destruct (trim_start_span ts) as (space & Hts & Hspace & _).
    destruct (trim_start ts) as [|c t]; [done|].
    assert (∀ s m, parse_digits s None = Some m →
              ∃ digits rest, s = digits +:+ rest ∧ m = number digits ∧ digits ≠ ""
                ∧ Forall digit (list_ascii_of_string digits)
                ∧ starts_without digit rest) as Hread.
    { intros s m. destruct (digits_span s) as (digits & rest & -> & Hdigits & Hrest).
      rewrite parse_digits_number by done.
      destruct digits as [|d digits]; [done|]. intros [= <-].
      exists (String d digits), rest. split_and!; [done|simpl; lia|done..]. }
    destruct (decide (c = "-"%char)) as [->|Hminus];
      [|destruct (decide (c = "+"%char)) as [->|Hplus]].
    + destruct (parse_digits t None) as [m|] eqn:Hm; [|done]. intros [= <-].
      destruct (Hread _ _ Hm) as (digits & rest & -> & -> & Hne & Hdigits & Hrest).
      exists space, "-"%string, digits, rest. split_and!; try done. by right; right.
    + intros Hm.
      destruct (Hread _ _ Hm) as (digits & rest & -> & -> & Hne & Hdigits & Hrest).
      exists space, "+"%string, digits, rest. split_and!; try done. by right; left.
    + intros Hm.
      destruct (Hread _ _ Hm) as (digits & rest & Heq & -> & Hne & Hdigits & Hrest).
      exists space, ""%string, digits, rest. rewrite append_nil, <- Heq.
      split_and!; try done. by left.
  - intros (space & sign & digits & rest & -> & Hspace & Hsign & Hne & Hdigits & Hrest).
    destruct digits as [|d digits]; [done|].
    pose proof Hdigits as Hd. simpl in Hd. apply Forall_cons in Hd as [Hd _].
    destruct (digit_not_sign d Hd) as [Hminus Hplus].
    assert (parse_digits (String d digits +:+ rest) None = Some (number (String d digits)))
      as Hread.
    { rewrite parse_digits_number by done. by f_equal. }
    destruct Hsign as [[-> ->]|[[-> ->]|[-> ->]]].
    + rewrite append_nil, trim_start_append; [|done|by apply digit_not_white].
      rewrite append_cons. rewrite !decide_False by done.
      by rewrite <- append_cons.
    + rewrite trim_start_append; [|done|].
      * change ("+" +:+ String d digits +:+ rest)
          with (String "+" (String d digits +:+ rest)).
        exact Hread.
      * simpl. unfold white_space. rewrite !elem_of_cons, elem_of_nil. simpl. lia.
    + rewrite trim_start_append; [|done|].
      * change ("-" +:+ String d digits +:+ rest)
          with (String "-" (String d digits +:+ rest)).
        change (Z.opp <$> parse_digits (String d digits +:+ rest) None
                = Some (- number (String d digits))).
        by rewrite Hread.
      * simpl. unfold white_space. rewrite !elem_of_cons, elem_of_nil. simpl. lia.
Qed.

(** ** Hexadecimal numerals *)

Lemma nibble_hex_digit c n : nibble c = Some n → (n < 16)%N ∧ hex_digit n = c.
Proof.
  destruct c as [[] [] [] [] [] [] [] []]; vm_compute;
    first [discriminate | intros [= <-]; by split].
Qed.

Lemma bytes_of_hex_byte b s :
  bytes_of_hex (byte_hex b +:+ s) = cons b <$> bytes_of_hex s.
Proof. destruct b; simpl; rewrite append_nil; by destruct (bytes_of_hex s). Qed.

Lemma bytes_of_hex_encode h1 digest :
  bytes_of_hex h1 = Some digest ↔ h1 = hex_encode digest.
Proof.
  split.
  - revert h1. induction digest as [|b bytes IH]; intros h1.
    + destruct h1 as [|hi [|lo rest]]; [done..|]. cbn [bytes_of_hex].
      by repeat case_match.
    + destruct h1 as [|hi [|lo rest]]; [done..|]. cbn [bytes_of_hex].
      destruct (nibble hi) as [h|] eqn:Hhi; [|done].
      destruct (nibble lo) as [l|] eqn:Hlo; [|done].
      destruct (bytes_of_hex rest) as [bs|] eqn:Hrest; [|done].
      destruct (Byte.of_N (16 * h + l)) as [b'|] eqn:Hb; [|done].
      intros [= -> ->].
      apply nibble_hex_digit in Hhi as [Hh <-], Hlo as [Hl <-].
      apply Byte.to_of_N in Hb.
      rewrite hex_encode_cons, Hb, <- (IH rest) by done.
      replace ((16 * h + l) / 16)%N with h
        by (apply (N.div_unique _ _ _ l); lia).
      replace ((16 * h + l) mod 16)%N with l
        by (apply (N.mod_unique _ _ h); lia).
      done.
  - intros ->. induction digest as [|b bytes IH]; [done|].
    change (hex_encode (b :: bytes)) with (byte_hex b +:+ hex_encode bytes).
    by rewrite bytes_of_hex_byte, IH.
Qed.

End SignatureSchemeFacts.

Section SignatureSchemeSpec.
Variable hmac_sha256 : string → string → option (list Byte.byte).

Lemma field_names_free :
  SignatureScheme.free_of "=" "ts" ∧ SignatureScheme.free_of "=" "h1".
Proof. split; by repeat constructor. Qed.

(** C4 (signature verification). [verifyPaddleWebhookSignature] is a total
    function to booleans, so it never throws; it returns [true] exactly for
    the requests that the signature scheme accepts: the first field of the
    header that starts with [ts=] and the first that starts with [h1=] have
    a value (the text between the first equals sign of the field and the
    next one, or the end of the field) that is not empty; the value of [ts]
    begins, after optional white space and an optional sign, with decimal
    digits, and the integer they denote is at most 300 seconds from the
    current time in whole seconds; the HMAC-SHA256 under the secret of the
    whole value of [ts], a colon and the raw body is computed without an
    exception; and the value of [h1] is the numeral of that digest with two
    lower-case hexadecimal digits per byte. When the HMAC computation fails
    the answer is [false]. *)
Theorem signature_acceptance now rawBody secret signatureHeader :
  (verifyPaddleWebhookSignature hmac_sha256 now rawBody secret signatureHeader = true
   ↔ SignatureScheme.accepts hmac_sha256 now rawBody secret signatureHeader)
  ∧ ((∀ message, hmac_sha256 secret message = None) →
     verifyPaddleWebhookSignature hmac_sha256 now rawBody secret signatureHeader = false).
Proof.
  destruct field_names_free as [Hts Hh1].
  assert (verifyPaddleWebhookSignature hmac_sha256 now rawBody secret signatureHeader = true
          ↔ SignatureScheme.accepts hmac_sha256 now rawBody secret signatureHeader)
    as Hiff.
  { rewrite verify_true_iff. unfold SignatureScheme.accepts.
    split; intros (ts & h1 & seconds & digest
                   & Hfield_ts & Hfield_h1 & Hts_given & Hh1_given
                   & Hseconds & Hage & Hmac & Hdigest);
      exists ts, h1, seconds, digest.
    - apply (header_field_first "ts" _ _ Hts) in Hfield_ts.
      apply (header_field_first "h1" _ _ Hh1) in Hfield_h1.
      apply parseInt_leading in Hseconds. apply bytes_of_hex_encode in Hdigest.
      by split_and!.
    - apply (header_field_first "ts" _ _ Hts) in Hfield_ts.
      apply (header_field_first "h1" _ _ Hh1) in Hfield_h1.
      apply parseInt_leading in Hseconds. apply bytes_of_hex_encode in Hdigest.
      by split_and!. }
  split; [done|]. intros Hfails.
  apply not_true_is_false. intros Hverify.
  apply Hiff in Hverify as (ts & _ & _ & digest & _ & _ & _ & _ & _ & _ & Hmac & _).
  by rewrite Hfails in Hmac.
Qed.

End SignatureSchemeSpec.

(** The request [signed_request], verified at the time of its stamp, is one
    that the scheme accepts. *)
Lemma signature_acceptance_witness :
  SignatureScheme.accepts sample_hmac 1700000000000 "evt_3" "pdl_ntfset_secret"
    "ts=1700000000;h1=deadbeef".
Proof.
  by apply (proj1 (signature_acceptance sample_hmac 1700000000000 "evt_3"
                     "pdl_ntfset_secret" "ts=1700000000;h1=deadbeef")).
Defined.

(** C4, as stated, fails in both directions. Three headers for one body,
    secret and time: the first has a field [ts=1700000000] with the time
    stamp of the valid digest, after an empty [ts=] field, and is refused;
    in the second the value of [ts] is not an integer, in the third the
    fields have a second equals sign, and both are accepted. *)
Lemma header_read_loosely :
  verifyPaddleWebhookSignature sample_hmac 1700000000000 "evt_3" "pdl_ntfset_secret"
    "ts=;ts=1700000000;h1=deadbeef" = false
  ∧ verifyPaddleWebhookSignature sample_hmac 1700000000000 "evt_3" "pdl_ntfset_secret"
      "ts=1700000000abc;h1=deadbeef" = true
  ∧ verifyPaddleWebhookSignature sample_hmac 1700000000000 "evt_3" "pdl_ntfset_secret"
      "ts=1700000000=junk;h1=deadbeef=junk" = true.
Proof. by split_and!. Qed.
